(** * old-photo-restore: the restoration pipeline of [src/App.tsx] and
      [src/services/gemini.ts], embedded and verified.

    The development follows the two source files.  [Js] collects the few
    pieces of JavaScript semantics the code relies on (truthiness of optional
    strings, [String.prototype.includes], template literals, thrown values,
    promises seen through the moment at which they settle).  [Gemini] embeds
    [restoreImage]; [App] embeds the React component's state and its
    handlers ([onDrop], [processPhoto], [processAll], [removePhoto],
    [updateAdjustment]).  The theorems come after the definitions. *)

From Stdlib Require Import String Ascii List Bool Arith ZArith Lia.
From Stdlib Require Import Decimal DecimalString DecimalZ.
Import ListNotations.
Open Scope string_scope.

(* ================================================================= *)
(** ** JavaScript values and control flow *)

Module Js.

(** A thrown value.  The handlers only ever read [err.message], which is
    absent on values that are not [Error]s (a [FileReader] error event). *)
Record Error := mkError { message : option string }.

(** [new Error(m)] *)
Definition newError (m : string) : Error := {| message := Some m |}.

(** How a block of code ends: with a value, or by throwing. *)
Inductive Completion (A : Type) : Type :=
| Return (a : A)
| Throw (e : Error).
Arguments Return {A} a.
Arguments Throw {A} e.

(** [try { body } catch (e) { handler(e) }] *)
Definition try_catch {A} (body : Completion A) (handler : Error -> Completion A)
  : Completion A :=
  match body with
  | Return a => Return a
  | Throw e => handler e
  end.

(** A promise, seen from the code that awaits it: it is already settled
    when it is handed over (an [async] function that threw before its first
    [await]), or it settles [ms] milliseconds after its creation, or it
    never does. *)
Inductive Promise (A : Type) : Type :=
| Settled (c : Completion A)
| SettlesAfter (ms : N) (c : Completion A)
| Never.
Arguments Settled {A} c.
Arguments SettlesAfter {A} ms c.
Arguments Never {A}.

(** Truthiness of an optional string: [undefined] and [""] are falsy. *)
Definition truthy (s : option string) : bool :=
  match s with
  | Some s => negb (s =? "")
  | None => false
  end.

(** [a || b] on optional strings. *)
Definition or_else (a b : option string) : option string :=
  if truthy a then a else b.

(** [s.includes(needle)].  Strings are UTF-8 byte sequences here; every
    needle of the source is ASCII, and an ASCII byte never occurs inside a
    multi-byte UTF-8 character, so the answer is that of the UTF-16 search. *)
Fixpoint includes (s needle : string) : bool :=
  prefix needle s
  || match s with
     | EmptyString => false
     | String _ s' => includes s' needle
     end.

(** Whether a character occurs in a string, and whether the first or the
    last character of a needle does: what decides if the needle can lie
    across the seam of a concatenation. *)
Fixpoint occurs (c : ascii) (s : string) : bool :=
  match s with
  | EmptyString => false
  | String b s' => Ascii.eqb c b || occurs c s'
  end.

Definition headOccurs (needle s : string) : bool :=
  match needle with
  | EmptyString => false
  | String c _ => occurs c s
  end.

Fixpoint lastOccurs (needle s : string) : bool :=
  match needle with
  | EmptyString => false
  | String c EmptyString => occurs c s
  | String _ needle' => lastOccurs needle' s
  end.

(** [err.message?.includes(needle)] used as a condition. *)
Definition message_includes (e : Error) (needle : string) : bool :=
  match message e with
  | Some m => includes m needle
  | None => false
  end.

(** [${x}] inside a template literal. *)
Definition interpolate (x : option string) : string :=
  match x with
  | Some s => s
  | None => "undefined"
  end.

(** [s.substring(n)] *)
Definition substring_from (n : nat) (s : string) : string :=
  substring n (String.length s - n) s.

(** [s.split(',')[1]]: the text between the first and the second comma. *)
Fixpoint after_comma (s : string) : option string :=
  match s with
  | EmptyString => None
  | String c s' => if Ascii.eqb c "," then Some s' else after_comma s'
  end.

Fixpoint until_comma (s : string) : string :=
  match s with
  | EmptyString => EmptyString
  | String c s' => if Ascii.eqb c "," then EmptyString else String c (until_comma s')
  end.

Definition split_comma_1 (s : string) : option string :=
  option_map until_comma (after_comma s).

End Js.

(* ================================================================= *)
(** ** [src/services/gemini.ts] *)

Module Gemini.
Import Js.

Inductive RestorationMode := standard | ultra.

(** The response of [ai.models.generateContent], as far as it is read. *)
Record Blob := { data : option string; mimeType : option string }.
Record Part := { inlineData : option Blob; text : option string }.
Record Content := { parts : option (list Part) }.
Record Candidate := { finishReason : option string; content : option Content }.
Record GenerateContentResponse := { candidates : option (list Candidate) }.

(** The request, as far as it depends on the arguments. *)
Record GenerateContentRequest := {
  model : string;
  reqData : string;
  reqMimeType : string;
  imageSize : option string
}.

(** [process.env] *)
Record ProcessEnv := { API_KEY : option string; GEMINI_API_KEY : option string }.

(** The messages of the errors the function throws. *)
Definition msgNoApiKey : string :=
  "API Key not found. Please ensure GEMINI_API_KEY is set or select a key.".
Definition msgNoCandidate : string :=
  "Gemini 未返回任何候选结果。可能是由于安全过滤或请求被拒绝。".
Definition msgStopped (reason : option string) : string :=
  "生成已停止，原因: " ++ interpolate reason ++ "。请尝试上传其他照片。".
Definition msgNoParts : string :=
  "Gemini 返回的响应中没有内容部分 (parts)。".
Definition msgTextInstead (t : option string) : string :=
  "模型未返回图像，而是返回了文字说明: " ++ interpolate t.
Definition msgNoImage : string :=
  "Gemini 未返回有效的图像数据。".
Definition msgNetwork : string :=
  "网络连接失败，请检查您的网络设置或 API 密钥是否有效。".
Definition msgSafety : string :=
  "由于安全政策，该照片无法处理。请尝试上传其他照片。".

(** [`data:${mimeType};base64,${data}`] *)
Definition dataUrl (b : Blob) : string :=
  "data:" ++ interpolate (mimeType b) ++ ";base64," ++ interpolate (data b).

Definition modelOf (mode : RestorationMode) : string :=
  match mode with
  | ultra => "gemini-3-pro-image-preview"
  | standard => "gemini-2.5-flash-image"
  end.

Definition imageSizeOf (mode : RestorationMode) : option string :=
  match mode with
  | ultra => Some "2K"
  | standard => None
  end.

Definition buildRequest (base64Image mime : string) (mode : RestorationMode)
  : GenerateContentRequest :=
  {| model := modelOf mode;
     reqData := interpolate (or_else (split_comma_1 base64Image) (Some base64Image));
     reqMimeType := mime;
     imageSize := imageSizeOf mode |}.

(** [response.candidates?.[0]] *)
Definition firstCandidate (r : GenerateContentResponse) : option Candidate :=
  match candidates r with
  | Some (c :: _) => Some c
  | _ => None
  end.

(** [candidate.finishReason && candidate.finishReason !== 'STOP'] *)
Definition abnormalFinish (c : Candidate) : bool :=
  truthy (finishReason c) &&
  match finishReason c with
  | Some r => negb (r =? "STOP")
  | None => true
  end.

(** [candidate.content?.parts] *)
Definition partsOf (c : Candidate) : option (list Part) :=
  match content c with
  | Some ct => parts ct
  | None => None
  end.

(** The [for] loop over the parts: the first part with [inlineData]. *)
Fixpoint firstInline (ps : list Part) : option Blob :=
  match ps with
  | [] => None
  | p :: ps' =>
      match inlineData p with
      | Some b => Some b
      | None => firstInline ps'
      end
  end.

(** [parts.find(p => p.text)] *)
Definition findText (ps : list Part) : option Part :=
  find (fun p => truthy (text p)) ps.

(** The body of the [try] block after the response has arrived
    (lines 84 to 113). *)
Definition inspectResponse (r : GenerateContentResponse) : Completion string :=
  match firstCandidate r with
  | None => Throw (newError msgNoCandidate)
  | Some candidate =>
      if abnormalFinish candidate
      then Throw (newError (msgStopped (finishReason candidate)))
      else
        match partsOf candidate with
        | None | Some [] => Throw (newError msgNoParts)
        | Some ps =>
            match firstInline ps with
            | Some b => Return (dataUrl b)
            | None =>
                match findText ps with
                | Some textPart => Throw (newError (msgTextInstead (text textPart)))
                | None => Throw (newError msgNoImage)
                end
            end
        end
  end.

(** The [catch] block (lines 114 to 127): it sees every error of the [try]
    block, those of the transport and those thrown by [inspectResponse]. *)
Definition rethrow (e : Error) : Error :=
  if message_includes e "fetch failed" then newError msgNetwork
  else if message_includes e "Safety" then newError msgSafety
  else e.

(** What [restoreImage] does once [generateContent] has settled with [c]. *)
Definition afterResponse (c : Completion GenerateContentResponse)
  : Completion string :=
  try_catch
    (match c with
     | Return r => inspectResponse r
     | Throw e => Throw e
     end)
    (fun e => Throw (rethrow e)).

Section RestoreImage.
(** The collaborators: the environment variables and the remote model
    behind the SDK. *)
Variable env : ProcessEnv.
Variable generateContent : GenerateContentRequest -> Promise GenerateContentResponse.

Definition apiKey : option string := or_else (API_KEY env) (GEMINI_API_KEY env).

(** The function returns its promise together with the requests it has
    sent.  Without a key it throws before its first [await], so that its
    promise is born rejected; otherwise the rest of its body runs when
    the SDK's promise has settled, at the earliest in a later tick. *)
Definition restoreImage (base64Image mime : string) (mode : RestorationMode)
  : Promise string * list GenerateContentRequest :=
  if negb (truthy apiKey) then (Settled (Throw (newError msgNoApiKey)), [])
  else
    let request := buildRequest base64Image mime mode in
    (match generateContent request with
     | Settled c => SettlesAfter 0%N (afterResponse c)
     | SettlesAfter ms c => SettlesAfter ms (afterResponse c)
     | Never => Never
     end, [request]).
End RestoreImage.

(** *** Vocabulary for statements about responses *)

(** The finish reason is absent, empty or the normal stop. *)
Definition NormalFinish (c : Candidate) : Prop :=
  finishReason c = None \/ finishReason c = Some "" \/ finishReason c = Some "STOP".

Definition NoImage (ps : list Part) : Prop :=
  Forall (fun p => inlineData p = None) ps.

Definition NoText (ps : list Part) : Prop :=
  Forall (fun p => truthy (text p) = false) ps.

(** [b] is the payload of the first fragment that bears an image. *)
Definition FirstImage (ps : list Part) (b : Blob) : Prop :=
  exists before p after,
    ps = (before ++ p :: after)%list /\ NoImage before /\ inlineData p = Some b.

(** [t] is the text of the first fragment that bears a non-empty text. *)
Definition FirstText (ps : list Part) (t : string) : Prop :=
  exists before p after,
    ps = (before ++ p :: after)%list /\ NoText before /\ text p = Some t /\ t <> "".

(** The error that leaves [restoreImage] when a message [m] was built
    around the text [inner] received from the remote side. *)
Definition surfaced (inner m : string) : Error :=
  if includes inner "fetch failed" then newError msgNetwork
  else if includes inner "Safety" then newError msgSafety
  else newError m.

End Gemini.

(* ================================================================= *)
(** ** [src/App.tsx] *)

Module App.
Import Js Gemini.

(** *** The data model *)

Inductive Status := StPending | StProcessing | StCompleted | StError.

Definition Status_eqb (a b : Status) : bool :=
  match a, b with
  | StPending, StPending | StProcessing, StProcessing
  | StCompleted, StCompleted | StError, StError => true
  | _, _ => false
  end.

(** A [File], as far as the component reads it. *)
Record File := { name : string; type : string }.

(** The sliders hand over [parseInt] of their value: numbers are integers. *)
Record Adjustments := {
  brightness : Z;
  contrast : Z;
  saturation : Z;
  sharpness : Z
}.

(** [keyof PhotoItem['adjustments']] *)
Inductive AdjustmentKey := Brightness | Contrast | Saturation | Sharpness.

Record PhotoItem := {
  id : string;
  file : File;
  preview : string;
  status : Status;
  result : option string;
  error : option string;
  adjustments : Adjustments
}.

(** The state of the component ([useState]). *)
Record AppState := {
  photos : list PhotoItem;
  isProcessingAll : bool;
  hasApiKey : option bool;
  restorationMode : RestorationMode
}.

Definition setPhotos (f : list PhotoItem -> list PhotoItem) (st : AppState) : AppState :=
  {| photos := f (photos st);
     isProcessingAll := isProcessingAll st;
     hasApiKey := hasApiKey st;
     restorationMode := restorationMode st |}.

Definition setIsProcessingAll (b : bool) (st : AppState) : AppState :=
  {| photos := photos st;
     isProcessingAll := b;
     hasApiKey := hasApiKey st;
     restorationMode := restorationMode st |}.

Definition setHasApiKey (b : bool) (st : AppState) : AppState :=
  {| photos := photos st;
     isProcessingAll := isProcessingAll st;
     hasApiKey := Some b;
     restorationMode := restorationMode st |}.

Definition initialState : AppState :=
  {| photos := [];
     isProcessingAll := false;
     hasApiKey := None;
     restorationMode := standard |}.

(** [prev.map(p => p.id === id ? f(p) : p)], the shape of every update. *)
Definition mapById (i : string) (f : PhotoItem -> PhotoItem) (prev : list PhotoItem)
  : list PhotoItem :=
  map (fun p => if id p =? i then f p else p) prev.

(** *** [onDrop] *)

(** One accepted file, with what the browser answers for it:
    [Math.random().toString(36)] and [URL.createObjectURL(file)]. *)
Record Accepted := {
  accFile : File;
  random36 : string;
  objectURL : string
}.

Definition defaultAdjustments : Adjustments :=
  {| brightness := 100; contrast := 100; saturation := 100; sharpness := 0 |}.

Definition newId (a : Accepted) : string := substring_from 7 (random36 a).

Definition newPhoto (a : Accepted) : PhotoItem :=
  {| id := newId a;
     file := accFile a;
     preview := objectURL a;
     status := StPending;
     result := None;
     error := None;
     adjustments := defaultAdjustments |}.

Definition onDrop (acceptedFiles : list Accepted) (prev : list PhotoItem)
  : list PhotoItem :=
  (prev ++ map newPhoto acceptedFiles)%list.

(** *** [removePhoto] *)

Definition removePhoto (i : string) (prev : list PhotoItem) : list PhotoItem :=
  filter (fun p => if id p =? i then false else true) prev.

(** *** [updateAdjustment] *)

(** [{ ...p.adjustments, [key]: value }] *)
Definition setKey (key : AdjustmentKey) (value : Z) (a : Adjustments) : Adjustments :=
  match key with
  | Brightness =>
      {| brightness := value; contrast := contrast a;
         saturation := saturation a; sharpness := sharpness a |}
  | Contrast =>
      {| brightness := brightness a; contrast := value;
         saturation := saturation a; sharpness := sharpness a |}
  | Saturation =>
      {| brightness := brightness a; contrast := contrast a;
         saturation := value; sharpness := sharpness a |}
  | Sharpness =>
      {| brightness := brightness a; contrast := contrast a;
         saturation := saturation a; sharpness := value |}
  end.

Definition getKey (key : AdjustmentKey) (a : Adjustments) : Z :=
  match key with
  | Brightness => brightness a
  | Contrast => contrast a
  | Saturation => saturation a
  | Sharpness => sharpness a
  end.

Definition withAdjustments (a : Adjustments) (p : PhotoItem) : PhotoItem :=
  {| id := id p; file := file p; preview := preview p; status := status p;
     result := result p; error := error p; adjustments := a |}.

Definition updateAdjustment (i : string) (key : AdjustmentKey) (value : Z)
  (prev : list PhotoItem) : list PhotoItem :=
  mapById i (fun p => withAdjustments (setKey key value (adjustments p)) p) prev.

(** The [min] and [max] attributes of the four range inputs. *)
Definition sliderMin (key : AdjustmentKey) : Z :=
  match key with
  | Brightness | Contrast => 50
  | Saturation | Sharpness => 0
  end.

Definition sliderMax (key : AdjustmentKey) : Z :=
  match key with
  | Brightness | Contrast => 150
  | Saturation => 200
  | Sharpness => 100
  end.

Definition inRange (key : AdjustmentKey) (v : Z) : Prop :=
  (sliderMin key <= v <= sliderMax key)%Z.

(** *** The three updates of [processPhoto] *)

(** [{ ...p, status: 'processing' }] *)
Definition toProcessing (p : PhotoItem) : PhotoItem :=
  {| id := id p; file := file p; preview := preview p; status := StProcessing;
     result := result p; error := error p; adjustments := adjustments p |}.

(** [{ ...p, status: 'completed', result }] *)
Definition toCompleted (r : string) (p : PhotoItem) : PhotoItem :=
  {| id := id p; file := file p; preview := preview p; status := StCompleted;
     result := Some r; error := error p; adjustments := adjustments p |}.

(** [{ ...p, status: 'error', error: errorMessage }] *)
Definition toError (errorMessage : string) (p : PhotoItem) : PhotoItem :=
  {| id := id p; file := file p; preview := preview p; status := StError;
     result := result p; error := Some errorMessage; adjustments := adjustments p |}.

(** *** What happens around one [processPhoto] *)

(** What the user may do while a call is awaited. *)
Inductive UserAction :=
| Drop (acceptedFiles : list Accepted)
| Remove (i : string)
| Adjust (i : string) (key : AdjustmentKey) (value : Z).

Definition act (a : UserAction) : AppState -> AppState :=
  setPhotos
    match a with
    | Drop fs => onDrop fs
    | Remove i => removePhoto i
    | Adjust i key value => updateAdjustment i key value
    end.

Definition actAll (l : list UserAction) (st : AppState) : AppState :=
  fold_left (fun s a => act a s) l st.

(** The surroundings of one run of [processPhoto]: the environment
    variables, the [FileReader] (which always ends with [load] or [error],
    after some milliseconds), the remote model, the order in which the
    event loop delivers a response and a timer that are due in the same
    millisecond, and what the user does in the meantime. *)
Record World := {
  processEnv : ProcessEnv;
  readAsDataURL : File -> N * Completion string;
  generateContent : GenerateContentRequest -> Promise GenerateContentResponse;
  timerFirst : bool;
  meanwhile : list UserAction
}.

(** What a run leaves in the log, in order. *)
Inductive Event :=
| Started (i : string)
| Sent (request : GenerateContentRequest)
| Finished (i : string).

Definition Run : Type := AppState * list Event.

(** *** [processPhoto] *)

(** [setTimeout(() => reject(new Error(...)), 90000)] *)
Definition timeoutMs : N := 90000.
Definition msgTimeout : string := "请求超时，请重试".
Definition timeoutError : Error := newError msgTimeout.

Definition msgDefault : string := "修复失败，请重试".
Definition msgKeyInvalid : string := "API 密钥失效，请重新选择".
Definition msgQuota : string :=
  "API 配额已耗尽。请稍后再试，或在 Google AI Studio 中检查您的配额限制。".
Definition msgConnectivity : string := "网络连接失败，请检查您的网络设置。".

(** [await Promise.race([restorationPromise, timeoutPromise])], reached
    [elapsed] milliseconds after the timer was armed.  A promise that is
    already settled wins, being the first of the array; otherwise the one
    that settles first does. *)
Definition race (elapsed : N) (restorationPromise : Promise string) (timerFirst : bool)
  : Completion string :=
  match restorationPromise with
  | Settled c => c
  | SettlesAfter ms c =>
      match (elapsed + ms ?= timeoutMs)%N with
      | Lt => c
      | Eq => if timerFirst then Throw timeoutError else c
      | Gt => Throw timeoutError
      end
  | Never => Throw timeoutError
  end.

(** The [try] block up to the value of [result]: the timer is armed before
    the block is entered, the file is read, then the restoration is called
    and raced against the timer. *)
Definition attempt (photo : PhotoItem) (mode : RestorationMode) (w : World)
  : Completion string * list GenerateContentRequest :=
  let (elapsed, read) := readAsDataURL w (file photo) in
  match read with
  | Throw e => (Throw e, [])
  | Return base64 =>
      let (restorationPromise, sent) :=
        restoreImage (processEnv w) (generateContent w) base64 (type (file photo)) mode in
      (race elapsed restorationPromise (timerFirst w), sent)
  end.

Definition isEntityNotFound (err : Error) : bool :=
  message_includes err "Requested entity was not found".
Definition isQuota (err : Error) : bool :=
  message_includes err "quota" || message_includes err "429"
  || message_includes err "RESOURCE_EXHAUSTED".
Definition isFetchFailed (err : Error) : bool :=
  message_includes err "fetch failed".

(** The value of [errorMessage] at the end of the [catch] block. *)
Definition errorMessageOf (err : Error) : string :=
  let errorMessage := interpolate (or_else (message err) (Some msgDefault)) in
  if isEntityNotFound err then msgKeyInvalid
  else if isQuota err then msgQuota
  else if isFetchFailed err then msgConnectivity
  else errorMessage.

(** The [catch] block. *)
Definition onFailure (i : string) (err : Error) (st : AppState) : AppState :=
  let st' := if isEntityNotFound err then setHasApiKey false st else st in
  setPhotos (mapById i (toError (errorMessageOf err))) st'.

(** The guard of the first line. *)
Definition guarded (photo : PhotoItem) : bool :=
  Status_eqb (status photo) StProcessing || Status_eqb (status photo) StCompleted.

(** The first update. *)
Definition start (photo : PhotoItem) (st : AppState) : AppState :=
  setPhotos (mapById (id photo) toProcessing) st.

(** The [try] and [catch] blocks, run on the state [st] that the
    component has reached when the awaited promise settles. *)
Definition settle (photo : PhotoItem) (mode : RestorationMode) (w : World)
  (st : AppState) : Completion Run :=
  let (outcome, sent) := attempt photo mode w in
  let log := (Started (id photo) :: map Sent sent ++ [Finished (id photo)])%list in
  try_catch
    (match outcome with
     | Return r => Return (setPhotos (mapById (id photo) (toCompleted r)) st, log)
     | Throw err => Throw err
     end)
    (fun err => Return (onFailure (id photo) err st, log)).

Definition processPhoto (photo : PhotoItem) (w : World) (st : AppState)
  : Completion Run :=
  if guarded photo then Return (st, [])
  else settle photo (restorationMode st) w (actAll (meanwhile w) (start photo st)).

(** *** [processAll] *)

Definition eligible (p : PhotoItem) : bool :=
  Status_eqb (status p) StPending || Status_eqb (status p) StError.

(** The [for ... of] loop with its [await]: the [k]-th run happens in the
    [k]-th world, and starts when the one before has returned. *)
Fixpoint processEach (pendingPhotos : list PhotoItem) (worlds : nat -> World)
  (k : nat) (st : AppState) : Completion Run :=
  match pendingPhotos with
  | [] => Return (st, [])
  | photo :: rest =>
      match processPhoto photo (worlds k) st with
      | Throw e => Throw e
      | Return (st', log) =>
          match processEach rest worlds (S k) st' with
          | Throw e => Throw e
          | Return (st'', log') => Return (st'', (log ++ log')%list)
          end
      end
  end.

Definition processAll (worlds : nat -> World) (st : AppState) : Completion Run :=
  let pendingPhotos := filter eligible (photos st) in
  match processEach pendingPhotos worlds 0 (setIsProcessingAll true st) with
  | Throw e => Throw e
  | Return (st', log) => Return (setIsProcessingAll false st', log)
  end.

End App.

(* ================================================================= *)
(** ** Sessions: what the user makes the component do, in order *)

Module Session.
Import Js Gemini App.

(** One command of the user: an action on the collection, a click on the
    button of one photo, or a click on the button that restores all.
    [ProcessOne] takes the photo of the render in which the button was
    clicked; any photo is allowed here, so that a stale one is covered. *)
Inductive Command :=
| User (a : UserAction)
| ProcessOne (photo : PhotoItem) (w : World)
| ProcessAll (worlds : nat -> World).

Definition stateAfter (c : Completion Run) (otherwise : AppState) : AppState :=
  match c with
  | Return (st, _) => st
  | Throw _ => otherwise
  end.

Definition exec (c : Command) (st : AppState) : AppState :=
  match c with
  | User a => act a st
  | ProcessOne photo w => stateAfter (processPhoto photo w st) st
  | ProcessAll worlds => stateAfter (processAll worlds st) st
  end.

Definition run (cs : list Command) (st : AppState) : AppState :=
  fold_left (fun s c => exec c s) cs st.

(** The files accepted during a session, in the order of their creation. *)
Definition dropped (a : UserAction) : list Accepted :=
  match a with
  | Drop fs => fs
  | _ => []
  end.

Definition droppedIn (w : World) : list Accepted :=
  flat_map dropped (meanwhile w).

Definition droppedDuring (worlds : nat -> World) (first n : nat) : list Accepted :=
  flat_map (fun k => droppedIn (worlds k)) (seq first n).

Definition acceptedBy (c : Command) (st : AppState) : list Accepted :=
  match c with
  | User a => dropped a
  | ProcessOne photo w => if guarded photo then [] else droppedIn w
  | ProcessAll worlds =>
      droppedDuring worlds 0 (List.length (filter eligible (photos st)))
  end.

Fixpoint accepted (cs : list Command) (st : AppState) : list Accepted :=
  match cs with
  | [] => []
  | c :: cs' => (acceptedBy c st ++ accepted cs' (exec c st))%list
  end.

(** A state the component can be in. *)
Definition Reachable (st : AppState) : Prop :=
  exists cs, st = run cs initialState.

(** An action that takes no photo away. *)
Definition keeps (a : UserAction) : Prop :=
  match a with
  | Remove _ => False
  | _ => True
  end.

(** The status agrees with the two optional fields: a pending photo has
    neither, a completed one has a result, one in error has a message. *)
Definition coherent (p : PhotoItem) : Prop :=
  match status p with
  | StPending => result p = None /\ error p = None
  | StProcessing => True
  | StCompleted => result p <> None
  | StError => error p <> None
  end.

(** [p'] is [p] up to its adjustments. *)
Definition sameButAdjustments (p p' : PhotoItem) : Prop :=
  id p' = id p /\ file p' = file p /\ preview p' = preview p /\
  status p' = status p /\ result p' = result p /\ error p' = error p.


(** [l1] is [l2] with some elements left out, in the same order. *)
Inductive Subseq {A : Type} : list A -> list A -> Prop :=
| Subseq_nil : Subseq [] []
| Subseq_skip x l1 l2 : Subseq l1 l2 -> Subseq l1 (x :: l2)
| Subseq_keep x l1 l2 : Subseq l1 l2 -> Subseq (x :: l1) (x :: l2).

(** The ids of the collection, and those given to accepted files. *)
Definition ids (l : list PhotoItem) : list string := map id l.
Definition newIds (l : list Accepted) : list string := map newId l.

(** The log of one run of [processPhoto] that passed the guard. *)
Definition oneRun (photo : PhotoItem) (log : list Event) : Prop :=
  exists sent,
    log = (Started (id photo) :: map Sent sent ++ [Finished (id photo)])%list.

End Session.

(* ================================================================= *)
(** ** Concrete inputs *)

Module Examples.
Import Js Gemini App Session.

Definition scan : File := {| name := "grandma-1953.jpg"; type := "image/jpeg" |}.
Definition scan2 : File := {| name := "wedding.png"; type := "image/png" |}.

(** [Math.random()] answers 0.5, then 0.25: in base 36 these are exactly
    [0.i] and [0.9]. *)
Definition half : Accepted :=
  {| accFile := scan; random36 := "0.i"; objectURL := "blob:app/1" |}.
Definition quarter : Accepted :=
  {| accFile := scan2; random36 := "0.9"; objectURL := "blob:app/2" |}.

Definition first : Accepted :=
  {| accFile := scan; random36 := "0.4fzyo82mvyr"; objectURL := "blob:app/1" |}.
Definition second : Accepted :=
  {| accFile := scan2; random36 := "0.q1w7xk3n9ab"; objectURL := "blob:app/2" |}.

Definition third : Accepted :=
  {| accFile := scan; random36 := "0.7hd02lq5tz"; objectURL := "blob:app/3" |}.

Definition withKey : ProcessEnv :=
  {| API_KEY := None; GEMINI_API_KEY := Some "AIza-platform-key" |}.
Definition withoutKey : ProcessEnv :=
  {| API_KEY := None; GEMINI_API_KEY := None |}.

Definition restored : Blob :=
  {| data := Some "iVBORw0KGgo="; mimeType := Some "image/png" |}.

Definition candidateOf (reason : option string) (ps : list Part) : Candidate :=
  {| finishReason := reason; content := Some {| parts := Some ps |} |}.

Definition imagePart (b : Blob) : Part := {| inlineData := Some b; text := None |}.
Definition textPart (t : string) : Part := {| inlineData := None; text := Some t |}.

Definition responseOf (reason : option string) (ps : list Part)
  : GenerateContentResponse :=
  {| candidates := Some [candidateOf reason ps] |}.

Definition withImage : GenerateContentResponse :=
  responseOf (Some "STOP") [textPart "Here is the photo."; imagePart restored].
Definition noCandidates : GenerateContentResponse := {| candidates := Some [] |}.
Definition refusal : string := "I cannot edit photos of real people.".
Definition textOnly : GenerateContentResponse :=
  responseOf (Some "STOP") [textPart refusal].
Definition safetyText : string :=
  "Safety guidelines prevent me from restoring this picture.".
Definition safetyTextOnly : GenerateContentResponse :=
  responseOf (Some "STOP") [textPart safetyText].
Definition stoppedEarly : GenerateContentResponse :=
  responseOf (Some "MAX_TOKENS") [].

(** A world in which the file is read in [readMs] milliseconds and the
    remote model behaves as [remote]. *)
Definition world (e : ProcessEnv) (readMs : N)
  (remote : Promise GenerateContentResponse) (ua : list UserAction) : World :=
  {| processEnv := e;
     readAsDataURL := fun f => (readMs, Return ("data:" ++ type f ++ ";base64,AAAA"));
     generateContent := fun _ => remote;
     timerFirst := true;
     meanwhile := ua |}.

Definition answers (r : GenerateContentResponse) : World :=
  world withKey 15 (SettlesAfter 4000 (Return r)) [].
Definition fails (m : string) : World :=
  world withKey 15 (SettlesAfter 300 (Throw (newError m))) [].
Definition hangs : World := world withKey 15 Never [].
Definition keyless : World := world withoutKey 15 Never [].
(** The file takes 50 s to read, the model answers 60 s after it was
    called. *)
Definition slowRead : World :=
  world withKey 50000 (SettlesAfter 60000 (Return withImage)) [].
Definition unreadable : World :=
  {| processEnv := withKey;
     readAsDataURL := fun _ => (15%N, Throw {| message := None |});
     generateContent := fun _ => Never;
     timerFirst := true;
     meanwhile := [] |}.

(** A batch in which the first call fails while the user drops a third
    file, and the later calls succeed. *)
Definition batch (k : nat) : World :=
  match k with
  | O => world withKey 15 (SettlesAfter 300 (Throw (newError "503 Service Unavailable")))
           [Drop [third]]
  | S _ => answers withImage
  end.

Definition fresh (a : Accepted) : AppState :=
  setPhotos (onDrop [a]) initialState.
Definition freshPair : AppState :=
  setPhotos (onDrop [first; second]) initialState.

Definition photoAt (k : nat) (st : AppState) : PhotoItem :=
  nth k (photos st) (newPhoto first).

(** What one run of [processPhoto] on a freshly dropped photo leaves in the
    collection, and how many requests it sent. *)
Definition outcomeIn (w : World)
  : Completion (list (Status * option string * option string) * nat) :=
  match processPhoto (newPhoto first) w (fresh first) with
  | Return (st, log) =>
      Return (map (fun p => (status p, result p, error p)) (photos st),
              List.length (filter (fun e => match e with Sent _ => true | _ => false end) log))
  | Throw e => Throw e
  end.

End Examples.

(* ================================================================= *)
(** ** The rest of [src/App.tsx]: what is rendered, exported and asked of
       the host *)

Module View.
Import Js Gemini App Session.

(** [${n}] inside a template literal, for an integer [n].  The numbers of
    the source are IEEE doubles: they hold the integers up to 2^53 exactly
    and print them in plain decimal, which is what [showZ] gives; beyond
    that a double rounds, and from 1e21 on it prints with an exponent.  The
    values that reach the two filters are those of the four sliders, and
    the statements on printed numbers are made within the sliders' bounds
    ([withinSliders]). *)
Definition showZ (n : Z) : string := NilZero.string_of_int (Z.to_int n).

(** The adjustments that the four sliders can produce: each value within
    the [min] and [max] of its slider. *)
Definition withinSliders (a : Adjustments) : Prop :=
  inRange Brightness (brightness a) /\ inRange Contrast (contrast a) /\
  inRange Saturation (saturation a) /\ inRange Sharpness (sharpness a).

(** [getFilterString] *)
Definition getFilterString (adj : Adjustments) : string :=
  "brightness(" ++ showZ (brightness adj)
  ++ "%) contrast(" ++ showZ (contrast adj)
  ++ "%) saturate(" ++ showZ (saturation adj) ++ "%) "
  ++ (if (0 <? sharpness adj)%Z
      then "contrast(" ++ showZ (100 + sharpness adj) ++ "%)"
      else "").

(** The value given to [ctx.filter] in [downloadImage]. *)
Definition canvasFilter (adj : Adjustments) : string :=
  "brightness(" ++ showZ (brightness adj)
  ++ "%) contrast(" ++ showZ (contrast adj)
  ++ "%) saturate(" ++ showZ (saturation adj)
  ++ "%) blur(" ++ showZ (if (0 <? sharpness adj)%Z then 0 else 0) ++ "px)".

(** What the browser does for [downloadImage]: whether the image loads
    ([img.onload] fires) and whether the canvas hands out a 2d context. *)
Record Browser := { imageLoads : bool; context2d : bool }.

(** What is drawn and offered for download: the source of the image, the
    filter of the canvas and the name of the file. *)
Record Download := { imgSource : string; ctxFilter : string; linkDownload : string }.

(** [downloadImage] *)
Definition downloadImage (photo : PhotoItem) (b : Browser) : option Download :=
  if negb (truthy (result photo)) then None
  else if negb (imageLoads b) then None
  else if negb (context2d b) then None
  else Some {| imgSource := interpolate (result photo);
               ctxFilter := canvasFilter (adjustments photo);
               linkDownload := "restored-enhanced-" ++ name (file photo) |}.

(** [src={photo.result || photo.preview}] *)
Definition imgSrc (photo : PhotoItem) : string :=
  interpolate (or_else (result photo) (Some (preview photo))).

(** [style={{ filter: photo.result ? getFilterString(photo.adjustments) : 'none' }}] *)
Definition imgFilter (photo : PhotoItem) : string :=
  if truthy (result photo) then getFilterString (adjustments photo) else "none".

(** The button under a photo: the download button when it is completed,
    else the button that calls [processPhoto], disabled while processing. *)
Inductive FooterButton := DownloadButton | ProcessButton (disabled : bool).

Definition footerButton (photo : PhotoItem) : FooterButton :=
  if Status_eqb (status photo) StCompleted then DownloadButton
  else ProcessButton (Status_eqb (status photo) StProcessing).

(** [disabled={isProcessingAll || photos.every(p => p.status === 'completed')}] *)
Definition batchDisabled (st : AppState) : bool :=
  isProcessingAll st
  || forallb (fun p => Status_eqb (status p) StCompleted) (photos st).

(** [restorationMode === 'ultra' && hasApiKey === false] *)
Definition bannerShown (st : AppState) : bool :=
  match restorationMode st, hasApiKey st with
  | ultra, Some false => true
  | _, _ => false
  end.

Definition setRestorationMode (mode : RestorationMode) (st : AppState) : AppState :=
  {| photos := photos st;
     isProcessingAll := isProcessingAll st;
     hasApiKey := hasApiKey st;
     restorationMode := mode |}.

(** [window.aistudio]: each of its two properties is a function or not
    ([None]), and a call of it gives a promise. *)
Record AiStudio := {
  hasSelectedApiKey : option (Promise bool);
  openSelectKey : option (Promise unit)
}.

(** What an [await] resumes with, if it ever does. *)
Definition awaited {A : Type} (p : Promise A) : option (Completion A) :=
  match p with
  | Settled c | SettlesAfter _ c => Some c
  | Never => None
  end.

(** [checkKey], run once when the component is mounted. *)
Definition checkKey (aistudio : option AiStudio) (st : AppState) : AppState :=
  match aistudio with
  | Some a =>
      match hasSelectedApiKey a with
      | Some p =>
          match awaited p with
          | Some (Return hasKey) => setHasApiKey hasKey st
          | Some (Throw _) => st
          | None => st
          end
      | None => st
      end
  | None => st
  end.

(** [handleSelectKey] *)
Definition handleSelectKey (aistudio : option AiStudio) (st : AppState) : AppState :=
  match aistudio with
  | Some a =>
      match openSelectKey a with
      | Some p =>
          match awaited p with
          | Some (Return _) => setHasApiKey true st
          | Some (Throw _) => st
          | None => st
          end
      | None => st
      end
  | None => st
  end.

(** The previews that [removePhoto] hands to [URL.revokeObjectURL]: that of
    [prev.find(p => p.id === id)], if there is one. *)
Definition revoked (i : string) (prev : list PhotoItem) : list string :=
  match find (fun p => id p =? i) prev with
  | Some photo => [preview photo]
  | None => []
  end.

(** The requests in a log. *)
Definition requests (log : list Event) : list GenerateContentRequest :=
  flat_map (fun e => match e with Sent r => [r] | _ => [] end) log.

(** The ids of the photos for which a run appears in a log. *)
Definition started (log : list Event) : list string :=
  flat_map (fun e => match e with Started i => [i] | _ => [] end) log.

(** A string is a data URL when it is built as [restoreImage] builds one. *)
Definition isDataUrl (s : string) : Prop := exists b, s = dataUrl b.

(** Every result of the collection is a data URL. *)
Definition resultsAreDataUrls (l : list PhotoItem) : Prop :=
  Forall (fun p => forall r, result p = Some r -> isDataUrl r) l.

(** The characters of a printed integer, the strings made of them, and the
    strings that cannot continue one. *)
Definition numChar (c : ascii) : bool := occurs c "0123456789-".

Fixpoint numeric (s : string) : bool :=
  match s with
  | EmptyString => true
  | String c s' => numChar c && numeric s'
  end.

Definition stops (s : string) : bool :=
  match s with
  | EmptyString => true
  | String c _ => negb (numChar c)
  end.

(** What a run of [processPhoto] on [photo] leaves of the collection when
    it ends with the update [f] by id, the user having done [during] in the
    meantime: the collection is the one the user left, updated by id; and
    when the user has removed nothing, every photo that was there at the
    start is at its place, with its id, file and preview, a photo of the id
    of [photo] with the status, result and error that [f] gives it, any
    other photo with those it had. *)
Definition EndsWith (f : PhotoItem -> PhotoItem) (photo : PhotoItem)
  (during : list UserAction) (st st' : AppState) : Prop :=
  photos st' = mapById (id photo) f (photos (actAll during (start photo st))) /\
  (Forall keeps during ->
   forall k p,
     nth_error (photos st) k = Some p ->
     exists p',
       nth_error (photos st') k = Some p' /\
       id p' = id p /\ file p' = file p /\ preview p' = preview p /\
       (id p = id photo ->
        status p' = status (f p) /\ result p' = result (f p) /\ error p' = error (f p)) /\
       (id p <> id photo ->
        status p' = status p /\ result p' = result p /\ error p' = error p)).

(** The photo is left in error with the message [m]: its status is error,
    its error is [m], its result is what it was. *)
Definition EndsInError (m : string) := EndsWith (toError m).

(** The photo is left completed with the result [r]: its status is
    completed, its result is [r], its error is what it was. *)
Definition EndsCompleted (r : string) := EndsWith (toCompleted r).

(** What a photo keeps of the file it was made for, and what a file gives
    to its photo: the id, the file and the preview. *)
Definition lineage (p : PhotoItem) : string * File * string :=
  (id p, file p, preview p).

Definition lineageOf (a : Accepted) : string * File * string :=
  (substring_from 7 (random36 a), accFile a, objectURL a).

(** A world in which the key is there and every file can be read. *)
Definition ready (w : World) : Prop :=
  truthy (apiKey (processEnv w)) = true /\
  forall f, exists base64, snd (readAsDataURL w f) = Return base64.

End View.

Module Scenes.
Import Js Gemini App Session Examples View.

Definition host (selected : bool) : AiStudio :=
  {| hasSelectedApiKey := Some (SettlesAfter 20 (Return selected));
     openSelectKey := Some (SettlesAfter 3000 (Return tt)) |}.

Definition browser : Browser := {| imageLoads := true; context2d := true |}.

Definition userKey : ProcessEnv :=
  {| API_KEY := Some "AIza-user-key"; GEMINI_API_KEY := Some "AIza-platform-key" |}.

Definition tuned : Adjustments :=
  {| brightness := 120; contrast := 90; saturation := 140; sharpness := 30 |}.

Definition ultraState : AppState := setRestorationMode ultra (fresh first).

Definition invalidKey : World :=
  fails "404 NOT_FOUND: Requested entity was not found.".

(** The collection after the first photo has been restored. *)
Definition restoredFirst : AppState :=
  run [User (Drop [first]); ProcessOne (newPhoto first) (answers withImage)]
    initialState.

(** The photo as a render before the restoration had it: still pending. *)
Definition staleFirst : PhotoItem := newPhoto first.

(** Two worlds of a batch whose first answer is an image and whose second
    call never settles. *)
Definition thenHangs (k : nat) : World :=
  match k with
  | O => answers withImage
  | S _ => hangs
  end.

(** A failure whose message has two of the signals. *)
Definition twoSignals : string :=
  "404 Requested entity was not found (quota project missing)".

End Scenes.

Import Js Gemini App Session Examples View Scenes.

(* ================================================================= *)
(** ** Searching in strings *)

Section Includes.

Lemma prefix_empty (s : string) : prefix "" s = true.
Proof. destruct s; reflexivity. Qed.

Lemma prefix_cons (c a : ascii) (n s : string) :
  prefix (String c n) (String a s) = true <-> c = a /\ prefix n s = true.
Proof.
  simpl. destruct (ascii_dec c a) as [e | ne].
  - split; [intros H; split; assumption | intros [_ H]; exact H].
  - split; [discriminate | intros [e _]; contradiction].
Qed.

Lemma includes_empty (s : string) : includes s "" = true.
Proof. destruct s; reflexivity. Qed.

Lemma prefix_app_l (n t s : string) :
  prefix n t = true -> prefix n (t ++ s) = true.
Proof.
  revert n. induction t as [| a t IH]; intros [| c n] H.
  - apply prefix_empty.
  - discriminate H.
  - reflexivity.
  - change (String a t ++ s) with (String a (t ++ s)).
    apply prefix_cons in H. apply prefix_cons. destruct H as [e H].
    split; [exact e | apply IH; exact H].
Qed.

Lemma includes_app_l (n t s : string) :
  includes t n = true -> includes (t ++ s) n = true.
Proof.
  induction t as [| a t IH]; intros H.
  - simpl in H. rewrite orb_false_r in H.
    destruct n; [apply includes_empty | discriminate H].
  - change (String a t ++ s) with (String a (t ++ s)).
    simpl in H |- *. apply orb_true_iff in H. apply orb_true_iff.
    destruct H as [H | H].
    + left. apply (prefix_app_l _ (String a t) s) in H. exact H.
    + right. apply IH. exact H.
Qed.

(** A needle found in the tail is found in the whole. *)
Lemma includes_app_r (n p t : string) :
  includes t n = true -> includes (p ++ t) n = true.
Proof.
  intros H. induction p as [| a p IH].
  - exact H.
  - change (String a p ++ t) with (String a (p ++ t)).
    simpl. rewrite IH. apply orb_true_r.
Qed.

(** No occurrence can begin inside a prefix that lacks the needle's first
    character. *)
Lemma includes_skip_prefix (n p t : string) :
  headOccurs n p = false -> includes (p ++ t) n = includes t n.
Proof.
  destruct n as [| c n].
  - intros _. rewrite !includes_empty. reflexivity.
  - simpl. induction p as [| a p IH]; intros H.
    + reflexivity.
    + simpl in H. apply orb_false_iff in H. destruct H as [Hca Hp].
      change (String a p ++ t) with (String a (p ++ t)).
      cbn [includes]. rewrite (IH Hp).
      replace (prefix (String c n) (String a (p ++ t))) with false; [reflexivity |].
      simpl. destruct (ascii_dec c a) as [e | ne]; [| reflexivity].
      subst a. rewrite Ascii.eqb_refl in Hca. discriminate Hca.
Qed.

Lemma occurs_lastOccurs_cons (n : string) (b : ascii) (s : string) :
  lastOccurs n s = true -> lastOccurs n (String b s) = true.
Proof.
  induction n as [| c n IH]; intros H.
  - discriminate H.
  - destruct n as [| d n].
    + simpl in H |- *. rewrite H. apply orb_true_r.
    + apply IH. exact H.
Qed.

Lemma prefix_lastOccurs (s n : string) :
  n <> "" -> prefix n s = true -> lastOccurs n s = true.
Proof.
  revert n. induction s as [| b s IH]; intros [| c n] Hne H;
    try congruence; try discriminate H.
  apply prefix_cons in H. destruct H as [e H]. subst b.
  destruct n as [| d n].
  - simpl. rewrite Ascii.eqb_refl. reflexivity.
  - change (lastOccurs (String d n) (String c s) = true).
    apply occurs_lastOccurs_cons. apply IH; [discriminate | exact H].
Qed.

Lemma includes_lastOccurs (s n : string) :
  n <> "" -> includes s n = true -> lastOccurs n s = true.
Proof.
  intros Hne. induction s as [| b s IH]; intros H.
  - simpl in H. rewrite orb_false_r in H. destruct n; [congruence | discriminate H].
  - cbn [includes] in H. apply orb_true_iff in H. destruct H as [H | H].
    + apply prefix_lastOccurs; assumption.
    + apply occurs_lastOccurs_cons. apply IH. exact H.
Qed.

Lemma prefix_app_or (n t s : string) :
  prefix n (t ++ s) = true -> prefix n t = true \/ lastOccurs n s = true.
Proof.
  revert n. induction t as [| a t IH]; intros n H.
  - destruct n as [| c n]; [left; reflexivity |].
    right. apply prefix_lastOccurs; [discriminate | exact H].
  - destruct n as [| c n]; [left; reflexivity |].
    change (String a t ++ s) with (String a (t ++ s)) in H.
    apply prefix_cons in H. destruct H as [e H].
    destruct (IH n H) as [Hp | Hl].
    + left. apply prefix_cons. split; assumption.
    + right. destruct n as [| d n]; [discriminate Hl | exact Hl].
Qed.

(** No occurrence can end inside a suffix that lacks the needle's last
    character. *)
Lemma includes_skip_suffix (n t s : string) :
  lastOccurs n s = false -> includes (t ++ s) n = includes t n.
Proof.
  intros Hl. destruct n as [| c n].
  - rewrite !includes_empty. reflexivity.
  - induction t as [| a t IH].
    + change ("" ++ s) with s.
      destruct (includes s (String c n)) eqn:E; [| reflexivity].
      apply includes_lastOccurs in E; [congruence | discriminate].
    + change (String a t ++ s) with (String a (t ++ s)).
      cbn [includes]. rewrite IH. f_equal.
      destruct (prefix (String c n) (String a t)) eqn:E.
      * apply (prefix_app_l _ _ s) in E. exact E.
      * destruct (prefix (String c n) (String a (t ++ s))) eqn:E'; [| reflexivity].
        apply (prefix_app_or _ (String a t) s) in E'.
        destruct E' as [E' | E']; congruence.
Qed.

End Includes.

(* ================================================================= *)
(** ** [restoreImage]: reading the response *)

Section Response.

Lemma truthy_Some (t : string) : t <> "" -> truthy (Some t) = true.
Proof.
  intros H. simpl. destruct (String.eqb_spec t ""); [contradiction | reflexivity].
Qed.

Lemma firstInline_FirstImage (ps : list Part) (b : Blob) :
  FirstImage ps b -> firstInline ps = Some b.
Proof.
  intros (before & p & after & -> & Hb & Hp).
  induction Hb as [| q before Hq _ IH]; simpl.
  - rewrite Hp. reflexivity.
  - rewrite Hq. exact IH.
Qed.

Lemma firstInline_NoImage (ps : list Part) :
  NoImage ps -> firstInline ps = None.
Proof.
  intros H. induction H as [| q ps Hq _ IH]; simpl.
  - reflexivity.
  - rewrite Hq. exact IH.
Qed.

Lemma findText_FirstText (ps : list Part) (t : string) :
  FirstText ps t -> exists p, findText ps = Some p /\ text p = Some t.
Proof.
  intros (before & p & after & -> & Hb & Hp & Ht). exists p. split; [| exact Hp].
  unfold findText. induction Hb as [| q before Hq _ IH]; simpl.
  - rewrite Hp, (truthy_Some t Ht). reflexivity.
  - rewrite Hq. exact IH.
Qed.

Lemma findText_NoText (ps : list Part) : NoText ps -> findText ps = None.
Proof.
  intros H. unfold findText. induction H as [| q ps Hq _ IH]; simpl.
  - reflexivity.
  - rewrite Hq. exact IH.
Qed.

Lemma abnormalFinish_NormalFinish (c : Candidate) :
  NormalFinish c -> abnormalFinish c = false.
Proof.
  unfold abnormalFinish. intros [H | [H | H]]; rewrite H; reflexivity.
Qed.

Lemma abnormalFinish_other (c : Candidate) (fr : string) :
  finishReason c = Some fr -> fr <> "" -> fr <> "STOP" -> abnormalFinish c = true.
Proof.
  intros H He Hs. unfold abnormalFinish. rewrite H, (truthy_Some fr He).
  destruct (String.eqb_spec fr "STOP"); [contradiction | reflexivity].
Qed.

(** The [catch] block leaves the fixed messages of the [try] block alone. *)
Lemma rethrow_fixed :
  rethrow (newError msgNoCandidate) = newError msgNoCandidate /\
  rethrow (newError msgNoParts) = newError msgNoParts /\
  rethrow (newError msgNoImage) = newError msgNoImage /\
  rethrow (newError msgNoApiKey) = newError msgNoApiKey.
Proof. repeat split; vm_compute; reflexivity. Qed.

(** A marker is in the stop message exactly when it is in the reason. *)
Lemma includes_msgStopped (fr needle : string) :
  headOccurs needle "生成已停止，原因: " = false ->
  lastOccurs needle "。请尝试上传其他照片。" = false ->
  includes (msgStopped (Some fr)) needle = includes fr needle.
Proof.
  intros Hh Hl. unfold msgStopped. cbn [interpolate].
  rewrite (includes_skip_prefix _ _ _ Hh). apply includes_skip_suffix. exact Hl.
Qed.

Lemma includes_msgTextInstead (t needle : string) :
  headOccurs needle "模型未返回图像，而是返回了文字说明: " = false ->
  includes (msgTextInstead (Some t)) needle = includes t needle.
Proof.
  intros Hh. unfold msgTextInstead. cbn [interpolate].
  apply includes_skip_prefix. exact Hh.
Qed.

Lemma rethrow_msgStopped (fr : string) :
  rethrow (newError (msgStopped (Some fr))) = surfaced fr (msgStopped (Some fr)).
Proof.
  unfold rethrow, surfaced, message_includes. cbn [message newError].
  rewrite !includes_msgStopped by (vm_compute; reflexivity). reflexivity.
Qed.

Lemma rethrow_msgTextInstead (t : string) :
  rethrow (newError (msgTextInstead (Some t))) = surfaced t (msgTextInstead (Some t)).
Proof.
  unfold rethrow, surfaced, message_includes. cbn [message newError].
  rewrite !includes_msgTextInstead by (vm_compute; reflexivity). reflexivity.
Qed.

Lemma restoreImage_settles (env : ProcessEnv)
  (gc : GenerateContentRequest -> Promise GenerateContentResponse)
  (base64 mime : string) (mode : RestorationMode)
  (ms : N) (c : Completion GenerateContentResponse) :
  truthy (apiKey env) = true ->
  gc (buildRequest base64 mime mode) = SettlesAfter ms c ->
  restoreImage env gc base64 mime mode
  = (SettlesAfter ms (afterResponse c), [buildRequest base64 mime mode]).
Proof.
  intros Hk Hgc. unfold restoreImage. rewrite Hk, Hgc. reflexivity.
Qed.

(** The [try] block once the candidate has passed the two first checks. *)
Lemma inspectResponse_parts (r : GenerateContentResponse) (c : Candidate)
  (ps : list Part) :
  firstCandidate r = Some c -> NormalFinish c -> partsOf c = Some ps -> ps <> [] ->
  inspectResponse r
  = match firstInline ps with
    | Some b => Return (dataUrl b)
    | None =>
        match findText ps with
        | Some textPart => Throw (newError (msgTextInstead (text textPart)))
        | None => Throw (newError msgNoImage)
        end
    end.
Proof.
  intros Hc Hn Hp Hne. unfold inspectResponse.
  rewrite Hc, (abnormalFinish_NormalFinish c Hn), Hp.
  destruct ps; [contradiction | reflexivity].
Qed.

Lemma app_cons_not_nil {A} (before : list A) (x : A) (after : list A) :
  (before ++ x :: after)%list <> [].
Proof. destruct before; discriminate. Qed.

End Response.

Section ResponseClaims.

(** C3 (as amended).  Once the remote model has answered with a response
    [r], [restoreImage] settles with the outcome of reading [r]:
    - no candidate: the empty-response error;
    - a finish reason that is present and is not the normal stop: the
      stop-reason error, which is checked before the content fragments
      are looked at;
    - a normal finish and no content fragments: the empty-response error;
    - otherwise the first image-bearing fragment, returned as a data URL
      of its mime type and bytes;
    - no image but a fragment with a non-empty text: the model-refused-text
      error carrying the first such text;
    - otherwise the unknown error.
    The two errors that embed remote text (the finish reason, the returned
    text) pass through the [catch] block, which replaces them by the
    connectivity error when that text contains "fetch failed", else by the
    content-blocked error when it contains "Safety" ([surfaced]). *)
Theorem restoreImage_reads_response
  (env : ProcessEnv)
  (gc : GenerateContentRequest -> Promise GenerateContentResponse)
  (base64 mime : string) (mode : RestorationMode)
  (ms : N) (r : GenerateContentResponse) :
  truthy (apiKey env) = true ->
  gc (buildRequest base64 mime mode) = SettlesAfter ms (Return r) ->
  let outcome := afterResponse (Return r) in
  fst (restoreImage env gc base64 mime mode) = SettlesAfter ms outcome /\
  (firstCandidate r = None -> outcome = Throw (newError msgNoCandidate)) /\
  (forall c fr,
      firstCandidate r = Some c ->
      finishReason c = Some fr -> fr <> "" -> fr <> "STOP" ->
      outcome = Throw (surfaced fr (msgStopped (Some fr)))) /\
  (forall c,
      firstCandidate r = Some c -> NormalFinish c ->
      partsOf c = None \/ partsOf c = Some [] ->
      outcome = Throw (newError msgNoParts)) /\
  (forall c ps b,
      firstCandidate r = Some c -> NormalFinish c ->
      partsOf c = Some ps -> FirstImage ps b ->
      outcome = Return (dataUrl b)) /\
  (forall c ps t,
      firstCandidate r = Some c -> NormalFinish c ->
      partsOf c = Some ps -> NoImage ps -> FirstText ps t ->
      outcome = Throw (surfaced t (msgTextInstead (Some t)))) /\
  (forall c ps,
      firstCandidate r = Some c -> NormalFinish c ->
      partsOf c = Some ps -> ps <> [] -> NoImage ps -> NoText ps ->
      outcome = Throw (newError msgNoImage)).
Proof.
  intros Hk Hgc outcome. subst outcome.
  split; [rewrite (restoreImage_settles _ _ _ _ _ _ _ Hk Hgc); reflexivity |].
  unfold afterResponse.
  destruct rethrow_fixed as (Fc & Fp & Fi & _).
  split; [| split; [| split; [| split; [| split]]]].
  - intros Hc. unfold inspectResponse. rewrite Hc. cbn [try_catch].
    rewrite Fc. reflexivity.
  - intros c fr Hc Hfr He Hs. unfold inspectResponse.
    rewrite Hc, (abnormalFinish_other c fr Hfr He Hs), Hfr. cbn [try_catch].
    rewrite rethrow_msgStopped. reflexivity.
  - intros c Hc Hn Hp. unfold inspectResponse.
    rewrite Hc, (abnormalFinish_NormalFinish c Hn).
    destruct Hp as [Hp | Hp]; rewrite Hp; cbn [try_catch]; rewrite Fp; reflexivity.
  - intros c ps b Hc Hn Hp Hb.
    assert (Hne : ps <> []).
    { destruct Hb as (before & p & after & -> & _). apply app_cons_not_nil. }
    rewrite (inspectResponse_parts r c ps Hc Hn Hp Hne).
    rewrite (firstInline_FirstImage ps b Hb). reflexivity.
  - intros c ps t Hc Hn Hp Hi Ht.
    assert (Hne : ps <> []).
    { destruct Ht as (before & p & after & -> & _). apply app_cons_not_nil. }
    rewrite (inspectResponse_parts r c ps Hc Hn Hp Hne).
    rewrite (firstInline_NoImage ps Hi).
    destruct (findText_FirstText ps t Ht) as (p & Hf & Hpt).
    rewrite Hf, Hpt. cbn [try_catch]. rewrite rethrow_msgTextInstead. reflexivity.
  - intros c ps Hc Hn Hp Hne Hi Ht.
    rewrite (inspectResponse_parts r c ps Hc Hn Hp Hne).
    rewrite (firstInline_NoImage ps Hi), (findText_NoText ps Ht). cbn [try_catch].
    rewrite Fi. reflexivity.
Qed.

(** The theorem at a response whose second fragment bears the image. *)
Lemma restoreImage_reads_response_witness :
  fst (restoreImage withKey (fun _ => SettlesAfter 4000 (Return withImage))
         "data:image/jpeg;base64,AAAA" "image/jpeg" standard)
  = SettlesAfter 4000 (afterResponse (Return withImage)) /\
  afterResponse (Return withImage) = Return (dataUrl restored).
Proof.
  pose proof (restoreImage_reads_response withKey
                (fun _ => SettlesAfter 4000 (Return withImage))
                "data:image/jpeg;base64,AAAA" "image/jpeg" standard 4000 withImage
                eq_refl eq_refl) as (H & _ & _ & _ & Himg & _).
  split; [exact H |].
  apply (Himg (candidateOf (Some "STOP")
                 [textPart "Here is the photo."; imagePart restored])
           [textPart "Here is the photo."; imagePart restored] restored).
  - reflexivity.
  - right. right. reflexivity.
  - reflexivity.
  - exists [textPart "Here is the photo."], (imagePart restored), [].
    split; [reflexivity |]. split; [| reflexivity].
    constructor; [reflexivity | constructor].
Defined.

(** C3 as it is written fails: a response whose only fragment is a text
    that contains "Safety" does not end in the model-refused-text error
    that carries the text, but in the content-blocked error. *)
Lemma restoreImage_text_only_not_refused :
  firstCandidate safetyTextOnly = Some (candidateOf (Some "STOP") [textPart safetyText]) /\
  NoImage [textPart safetyText] /\
  FirstText [textPart safetyText] safetyText /\
  fst (restoreImage withKey (fun _ => SettlesAfter 4000 (Return safetyTextOnly))
         "data:image/jpeg;base64,AAAA" "image/jpeg" standard)
  = SettlesAfter 4000 (Throw (newError msgSafety)) /\
  newError msgSafety <> newError (msgTextInstead (Some safetyText)).
Proof.
  split; [reflexivity |].
  split; [constructor; [reflexivity | constructor] |].
  split.
  - exists [], (textPart safetyText), []. repeat split; [constructor | discriminate].
  - split; [vm_compute; reflexivity | vm_compute; discriminate].
Qed.

(** C9.  There is a response with a single fragment, a text that contains
    "Safety", on which [restoreImage] fails with the content-blocked error
    and not with the model-refused-text error: the [try] block throws the
    latter while it reads the response, and the [catch] block, written for
    the failures of the transport, inspects that error too and replaces
    it. *)
Theorem restoreImage_catch_reinspects_own_errors :
  exists (t : string) (r : GenerateContentResponse),
    r = responseOf (Some "STOP") [textPart t] /\
    includes t "Safety" = true /\
    inspectResponse r = Throw (newError (msgTextInstead (Some t))) /\
    rethrow (newError (msgTextInstead (Some t))) = newError msgSafety /\
    fst (restoreImage withKey (fun _ => SettlesAfter 4000 (Return r))
           "data:image/jpeg;base64,AAAA" "image/jpeg" standard)
    = SettlesAfter 4000 (Throw (newError msgSafety)) /\
    msgSafety <> msgTextInstead (Some t).
Proof.
  exists safetyText, safetyTextOnly.
  split; [reflexivity |].
  split; [vm_compute; reflexivity |].
  split; [reflexivity |].
  split; [vm_compute; reflexivity |].
  split; [vm_compute; reflexivity | vm_compute; discriminate].
Qed.

End ResponseClaims.

(* ================================================================= *)
(** ** [updateAdjustment] *)

Section Adjustments.

Lemma getKey_setKey (key : AdjustmentKey) (value : Z) (a : Adjustments) :
  getKey key (setKey key value a) = value.
Proof. destruct key; reflexivity. Qed.

Lemma getKey_setKey_other (key key' : AdjustmentKey) (value : Z) (a : Adjustments) :
  key' <> key -> getKey key' (setKey key value a) = getKey key' a.
Proof. destruct key, key'; intros H; try reflexivity; contradiction. Qed.

Lemma nth_error_mapById (i : string) (f : PhotoItem -> PhotoItem)
  (prev : list PhotoItem) (k : nat) :
  nth_error (mapById i f prev) k
  = option_map (fun p => if id p =? i then f p else p) (nth_error prev k).
Proof. unfold mapById. apply nth_error_map. Qed.

Lemma in_mapById (i : string) (f : PhotoItem -> PhotoItem)
  (prev : list PhotoItem) (q : PhotoItem) :
  In q (mapById i f prev) ->
  exists p, In p prev /\ q = if id p =? i then f p else p.
Proof.
  unfold mapById. intros H. apply in_map_iff in H.
  destruct H as (p & E & Hp). exists p. split; [exact Hp | symmetry; exact E].
Qed.

(** C10.  [updateAdjustment i key value] keeps the collection's length and
    order; at every position the photo keeps its id, file, preview,
    status, result, error and the three adjustments other than [key]; a
    photo whose id is not [i] is left as it is, and one whose id is [i]
    gets [value] under [key]. *)
Theorem updateAdjustment_frame
  (i : string) (key : AdjustmentKey) (value : Z) (prev : list PhotoItem) :
  List.length (updateAdjustment i key value prev) = List.length prev /\
  forall k p,
    nth_error prev k = Some p ->
    exists p',
      nth_error (updateAdjustment i key value prev) k = Some p' /\
      id p' = id p /\ file p' = file p /\ preview p' = preview p /\
      status p' = status p /\ result p' = result p /\ error p' = error p /\
      (forall key', key' <> key ->
                    getKey key' (adjustments p') = getKey key' (adjustments p)) /\
      (id p <> i -> p' = p) /\
      (id p = i -> getKey key (adjustments p') = value).
Proof.
  split.
  - unfold updateAdjustment, mapById. apply length_map.
  - intros k p Hk. unfold updateAdjustment.
    rewrite nth_error_mapById, Hk. cbn [option_map].
    destruct (String.eqb_spec (id p) i) as [e | ne].
    + eexists. split; [reflexivity |]. cbn.
      repeat split; try reflexivity.
      * intros key' Hd. apply getKey_setKey_other. exact Hd.
      * intros Hd. contradiction.
      * intros _. apply getKey_setKey.
    + exists p. repeat split; try reflexivity. intros e. contradiction.
Qed.

(** The theorem on two photos: the saturation of the second is set. *)
Lemma updateAdjustment_frame_witness :
  exists p',
    nth_error (updateAdjustment "k3n9ab" Saturation 140 (photos freshPair)) 0 = Some p' /\
    p' = newPhoto first.
Proof.
  destruct (updateAdjustment_frame "k3n9ab" Saturation 140 (photos freshPair))
    as [_ H].
  destruct (H 0%nat (newPhoto first) eq_refl)
    as (p' & Hn & _ & _ & _ & _ & _ & _ & _ & Hsame & _).
  exists p'. split; [exact Hn |]. apply Hsame. vm_compute. discriminate.
Defined.

(** C2 as it is written fails: a saturation of 250 is stored as 250, above
    the declared maximum of 200. *)
Lemma updateAdjustment_stores_250 :
  map (fun p => saturation (adjustments p))
      (updateAdjustment (newId first) Saturation 250 (photos (fresh first)))
  = [250%Z] /\
  ~ inRange Saturation 250.
Proof.
  split; [reflexivity |]. unfold inRange. simpl. lia.
Qed.

(** C2 (as amended).  [updateAdjustment] stores the value it is given, as
    it is and for every input: nothing is clamped.  The stored value lies
    within the declared range of the parameter exactly when the input
    does, which the range sliders see to. *)
Theorem updateAdjustment_stores_value
  (i : string) (key : AdjustmentKey) (value : Z) (prev : list PhotoItem)
  (p' : PhotoItem) :
  In p' (updateAdjustment i key value prev) ->
  id p' = i ->
  getKey key (adjustments p') = value /\
  (inRange key (getKey key (adjustments p')) <-> inRange key value).
Proof.
  intros Hin Hid. unfold updateAdjustment in Hin.
  apply in_mapById in Hin. destruct Hin as (p & _ & E).
  assert (Hv : getKey key (adjustments p') = value).
  { destruct (String.eqb_spec (id p) i) as [e | ne].
    - subst p'. cbn. apply getKey_setKey.
    - subst p'. contradiction. }
  split; [exact Hv |]. rewrite Hv. reflexivity.
Qed.

(** The theorem on a slider value within its range. *)
Lemma updateAdjustment_stores_value_witness :
  getKey Brightness
    (adjustments (photoAt 0 (setPhotos (updateAdjustment (newId first) Brightness 120)
                               (fresh first)))) = 120%Z.
Proof.
  apply (updateAdjustment_stores_value (newId first) Brightness 120
           (photos (fresh first))).
  - left. reflexivity.
  - reflexivity.
Defined.

End Adjustments.

(* ================================================================= *)
(** ** [processPhoto] *)

Section ProcessPhoto.

Lemma in_mapById_hit (i : string) (f : PhotoItem -> PhotoItem)
  (prev : list PhotoItem) (q : PhotoItem) :
  (forall p, id (f p) = id p) ->
  In q (mapById i f prev) -> id q = i ->
  exists p, In p prev /\ id p = i /\ q = f p.
Proof.
  intros Hf Hin Hid. apply in_mapById in Hin. destruct Hin as (p & Hp & E).
  exists p. destruct (String.eqb_spec (id p) i) as [e | ne].
  - repeat split; assumption.
  - subst q. contradiction.
Qed.

Lemma hasApiKey_act (a : UserAction) (st : AppState) :
  hasApiKey (act a st) = hasApiKey st
  /\ restorationMode (act a st) = restorationMode st
  /\ isProcessingAll (act a st) = isProcessingAll st.
Proof. repeat split. Qed.

Lemma hasApiKey_actAll (l : list UserAction) (st : AppState) :
  hasApiKey (actAll l st) = hasApiKey st
  /\ restorationMode (actAll l st) = restorationMode st
  /\ isProcessingAll (actAll l st) = isProcessingAll st.
Proof.
  revert st. induction l as [| a l IH]; intros st.
  - repeat split.
  - change (actAll (a :: l) st) with (actAll l (act a st)).
    destruct (IH (act a st)) as (H1 & H2 & H3).
    rewrite H1, H2, H3. apply hasApiKey_act.
Qed.

(** An action that removes nothing keeps every photo at its place, with
    its id, file, preview, status, result and error. *)
Lemma act_keeps (a : UserAction) (st : AppState) (k : nat) (p : PhotoItem) :
  keeps a ->
  nth_error (photos st) k = Some p ->
  exists p', nth_error (photos (act a st)) k = Some p' /\ sameButAdjustments p p'.
Proof.
  intros Hk Hn. destruct a as [fs | i | i key value]; [| contradiction |].
  - exists p. split; [| repeat split].
    cbn. unfold onDrop. rewrite nth_error_app1; [exact Hn |].
    apply nth_error_Some. congruence.
  - cbn. unfold updateAdjustment. rewrite nth_error_mapById, Hn. cbn [option_map].
    destruct (id p =? i); eexists; (split; [reflexivity | repeat split]).
Qed.

Lemma actAll_keeps (l : list UserAction) (st : AppState) (k : nat) (p : PhotoItem) :
  Forall keeps l ->
  nth_error (photos st) k = Some p ->
  exists p', nth_error (photos (actAll l st)) k = Some p' /\ sameButAdjustments p p'.
Proof.
  intros Hl. revert st p. induction Hl as [| a l Ha _ IH]; intros st p Hn.
  - exists p. split; [exact Hn | repeat split].
  - change (actAll (a :: l) st) with (actAll l (act a st)).
    destruct (act_keeps a st k p Ha Hn) as (p1 & Hn1 & S1).
    destruct (IH (act a st) p1 Hn1) as (p2 & Hn2 & S2).
    exists p2. split; [exact Hn2 |].
    unfold sameButAdjustments in *. intuition congruence.
Qed.

(** [processPhoto] never throws: what the [try] block throws is caught. *)
Lemma settle_Return (photo : PhotoItem) (mode : RestorationMode) (w : World)
  (st : AppState) :
  settle photo mode w st
  = Return
      (match fst (attempt photo mode w) with
       | Return r => setPhotos (mapById (id photo) (toCompleted r)) st
       | Throw err => onFailure (id photo) err st
       end,
       (Started (id photo)
          :: map Sent (snd (attempt photo mode w)) ++ [Finished (id photo)])%list).
Proof.
  unfold settle. destruct (attempt photo mode w) as [[r | e] sent]; reflexivity.
Qed.

Lemma guarded_false (photo : PhotoItem) :
  status photo = StPending \/ status photo = StError -> guarded photo = false.
Proof. unfold guarded. intros [H | H]; rewrite H; reflexivity. Qed.

Lemma guarded_true (photo : PhotoItem) :
  status photo = StProcessing \/ status photo = StCompleted -> guarded photo = true.
Proof. unfold guarded. intros [H | H]; rewrite H; reflexivity. Qed.

Lemma processPhoto_unguarded (photo : PhotoItem) (w : World) (st : AppState) :
  guarded photo = false ->
  processPhoto photo w st
  = settle photo (restorationMode st) w (actAll (meanwhile w) (start photo st)).
Proof. intros H. unfold processPhoto. rewrite H. reflexivity. Qed.

(** When the object handed over is processing or completed, the run stops
    at the guard: same state, nothing logged, nothing sent. *)
Lemma processPhoto_guarded (photo : PhotoItem) (w : World) (st : AppState) :
  status photo = StProcessing \/ status photo = StCompleted ->
  processPhoto photo w st = Return (st, []).
Proof. intros H. unfold processPhoto. rewrite (guarded_true photo H). reflexivity. Qed.

(** The photos of the given id after the [catch] block. *)
Lemma onFailure_photos (i : string) (err : Error) (st : AppState) (p : PhotoItem) :
  In p (photos (onFailure i err st)) -> id p = i ->
  status p = StError /\ error p = Some (errorMessageOf err).
Proof.
  intros Hin Hid.
  assert (H : In p (mapById i (toError (errorMessageOf err)) (photos st))).
  { unfold onFailure in Hin. destruct (isEntityNotFound err); exact Hin. }
  apply in_mapById_hit in H; [| reflexivity | exact Hid].
  destruct H as (q & _ & _ & ->). split; reflexivity.
Qed.

Lemma onFailure_hasApiKey (i : string) (err : Error) (st : AppState) :
  hasApiKey (onFailure i err st)
  = if isEntityNotFound err then Some false else hasApiKey st.
Proof. unfold onFailure. destruct (isEntityNotFound err); reflexivity. Qed.

Lemma completed_photos (i r : string) (st : AppState) (p : PhotoItem) :
  In p (photos (setPhotos (mapById i (toCompleted r)) st)) -> id p = i ->
  status p = StCompleted /\ result p = Some r.
Proof.
  intros Hin Hid. cbn in Hin.
  apply in_mapById_hit in Hin; [| reflexivity | exact Hid].
  destruct Hin as (q & _ & _ & ->). split; reflexivity.
Qed.

Lemma onFailure_photos_eq (i : string) (err : Error) (st : AppState) :
  photos (onFailure i err st) = mapById i (toError (errorMessageOf err)) (photos st).
Proof. unfold onFailure. destruct (isEntityNotFound err); reflexivity. Qed.

(** A photo of the start, after the first update and what the user did. *)
Lemma during_position (photo : PhotoItem) (during : list UserAction) (st : AppState)
  (k : nat) (p : PhotoItem) :
  Forall keeps during ->
  nth_error (photos st) k = Some p ->
  exists q,
    nth_error (photos (actAll during (start photo st))) k = Some q /\
    id q = id p /\ file q = file p /\ preview q = preview p /\
    result q = result p /\ error q = error p /\
    (id p <> id photo -> status q = status p).
Proof.
  intros Hk Hn.
  set (p1 := if id p =? id photo then toProcessing p else p).
  assert (Hn1 : nth_error (photos (start photo st)) k = Some p1).
  { cbn. rewrite nth_error_mapById, Hn. reflexivity. }
  destruct (actAll_keeps during (start photo st) k p1 Hk Hn1)
    as (q & Hq & Hi & Hf & Hv & Hs & Hr & He).
  exists q. split; [exact Hq |]. subst p1.
  destruct (String.eqb_spec (id p) (id photo)) as [e | ne]; cbn in Hi, Hf, Hv, Hs, Hr, He.
  - repeat split; try assumption. intros Hd. contradiction.
  - repeat split; try assumption. intros _. exact Hs.
Qed.

Lemma EndsWith_intro (f : PhotoItem -> PhotoItem) (photo : PhotoItem)
  (during : list UserAction) (st st' : AppState) :
  (forall q, id (f q) = id q /\ file (f q) = file q /\ preview (f q) = preview q) ->
  (forall q q', result q = result q' -> error q = error q' ->
                status (f q) = status (f q') /\ result (f q) = result (f q')
                /\ error (f q) = error (f q')) ->
  photos st' = mapById (id photo) f (photos (actAll during (start photo st))) ->
  EndsWith f photo during st st'.
Proof.
  intros Hkeep Hsame Hp. split; [exact Hp |].
  intros Hk k p Hn.
  destruct (during_position photo during st k p Hk Hn)
    as (q & Hq & Hi & Hf & Hv & Hr & He & Hs).
  rewrite Hp, nth_error_mapById, Hq. cbn [option_map].
  destruct (Hkeep q) as (Ki & Kf & Kv).
  destruct (String.eqb_spec (id q) (id photo)) as [e | ne].
  - exists (f q). split; [reflexivity |].
    split; [congruence |]. split; [congruence |]. split; [congruence |].
    split; [intros _; apply Hsame; assumption | intros Hd; congruence].
  - exists q. split; [reflexivity |].
    split; [exact Hi |]. split; [exact Hf |]. split; [exact Hv |].
    split; [intros E; congruence |].
    intros Hd. split; [apply Hs; exact Hd | split; assumption].
Qed.

Lemma EndsInError_intro (m : string) (photo : PhotoItem)
  (during : list UserAction) (st st' : AppState) :
  photos st' = mapById (id photo) (toError m) (photos (actAll during (start photo st))) ->
  EndsInError m photo during st st'.
Proof.
  apply EndsWith_intro.
  - intros q. repeat split.
  - intros q q' Hr He. cbn. rewrite Hr. repeat split.
Qed.

Lemma EndsCompleted_intro (r : string) (photo : PhotoItem)
  (during : list UserAction) (st st' : AppState) :
  photos st' = mapById (id photo) (toCompleted r) (photos (actAll during (start photo st))) ->
  EndsCompleted r photo during st st'.
Proof.
  apply EndsWith_intro.
  - intros q. repeat split.
  - intros q q' Hr He. cbn. rewrite He. repeat split.
Qed.

End ProcessPhoto.

Section ProcessPhotoClaims.

(** C7.  The guard of [processPhoto] reads the status of the photo object
    it is handed, which is that of the render or of the snapshot the object
    comes from, and not the status the photo has in the collection.  Here
    the first photo is completed in the collection, and [processPhoto] is
    handed the object of an earlier render, still pending: the request to
    start is not ignored.  The first update puts the completed photo back
    into processing, a second request is sent, and as that call never
    settles the photo ends in error, with the result of the first
    restoration beside the message.  The same happens inside one batch
    when two photos of its snapshot share an id: the run for the second
    restarts both, which the run for the first had completed. *)
Theorem processPhoto_restarts_completed :
  map status (photos restoredFirst) = [StCompleted] /\
  map id (photos restoredFirst) = [id staleFirst] /\
  status staleFirst = StPending /\
  map status (photos (start staleFirst restoredFirst)) = [StProcessing] /\
  (exists st',
      processPhoto staleFirst hangs restoredFirst
      = Return (st', [Started (id staleFirst);
                      Sent (buildRequest "data:image/jpeg;base64,AAAA" "image/jpeg"
                              standard);
                      Finished (id staleFirst)]) /\
      map status (photos st') = [StError] /\
      map error (photos st') = [Some msgTimeout] /\
      map result (photos st') = [Some (dataUrl restored)]) /\
  processPhoto staleFirst hangs restoredFirst <> Return (restoredFirst, []) /\
  (exists st' log,
      processAll thenHangs (setPhotos (onDrop [half; quarter]) initialState)
      = Return (st', log) /\
      started log = [""; ""] /\
      List.length (requests log) = 2%nat /\
      map status (photos st') = [StError; StError] /\
      map result (photos st') = [Some (dataUrl restored); Some (dataUrl restored)]).
Proof.
  split; [reflexivity |]. split; [reflexivity |]. split; [reflexivity |].
  split; [reflexivity |]. split.
  - eexists. split; [vm_compute; reflexivity |]. repeat split.
  - split; [vm_compute; discriminate |].
    eexists. eexists. split; [vm_compute; reflexivity |]. repeat split.
Qed.

(** C5 (as amended).  When the [try] block of [processPhoto] ends with a
    failure [err], the run returns normally and leaves the photo in error
    with a message chosen from [err.message] by the first of these that
    applies: "Requested entity was not found" in the message gives the
    credential-invalid message and sets the credential flag to false;
    else "quota", "429" or "RESOURCE_EXHAUSTED" gives the quota message;
    else "fetch failed" gives the connectivity message; else the message
    itself is stored, or the default when there is none.  In the three
    last cases the flag is left as it was.  The collection is the one the
    user left, with every photo of the id in error with that message and
    every other photo as it was. *)
Theorem processPhoto_failure_message
  (photo : PhotoItem) (w : World) (st : AppState)
  (err : Error) (sent : list GenerateContentRequest) :
  guarded photo = false ->
  attempt photo (restorationMode st) w = (Throw err, sent) ->
  exists st' log,
    processPhoto photo w st = Return (st', log) /\
    EndsInError (errorMessageOf err) photo (meanwhile w) st st' /\
    (message_includes err "Requested entity was not found" = true ->
     errorMessageOf err = msgKeyInvalid /\ hasApiKey st' = Some false) /\
    (message_includes err "Requested entity was not found" = false ->
     hasApiKey st' = hasApiKey st /\
     (message_includes err "quota" = true \/ message_includes err "429" = true
      \/ message_includes err "RESOURCE_EXHAUSTED" = true ->
      errorMessageOf err = msgQuota) /\
     (message_includes err "quota" = false -> message_includes err "429" = false ->
      message_includes err "RESOURCE_EXHAUSTED" = false ->
      (message_includes err "fetch failed" = true ->
       errorMessageOf err = msgConnectivity) /\
      (message_includes err "fetch failed" = false ->
       (forall m, message err = Some m -> m <> "" -> errorMessageOf err = m) /\
       (message err = None \/ message err = Some "" ->
        errorMessageOf err = msgDefault)))).
Proof.
  intros Hg Ha.
  rewrite (processPhoto_unguarded photo w st Hg), settle_Return, Ha. cbn [fst snd].
  eexists. eexists. split; [reflexivity |].
  split; [apply EndsInError_intro; apply onFailure_photos_eq |].
  rewrite onFailure_hasApiKey.
  destruct (hasApiKey_actAll (meanwhile w) (start photo st)) as (Hk & _ & _).
  rewrite Hk. change (hasApiKey (start photo st)) with (hasApiKey st).
  unfold errorMessageOf, isEntityNotFound, isQuota, isFetchFailed.
  split.
  - intros E. rewrite E. split; reflexivity.
  - intros E. rewrite E. split; [reflexivity |]. split.
    + intros [Q | [Q | Q]]; rewrite Q; rewrite ?orb_true_r; reflexivity.
    + intros Q1 Q2 Q3. rewrite Q1, Q2, Q3. cbn [orb]. split.
      * intros F. rewrite F. reflexivity.
      * intros F. rewrite F. split.
        -- intros m Hm Hne. rewrite Hm. unfold or_else.
           rewrite (truthy_Some m Hne). reflexivity.
        -- intros [Hm | Hm]; rewrite Hm; reflexivity.
Qed.

(** The theorem on a remote failure that reports an exhausted quota, for
    the first of two photos: the first is in error with the quota message,
    the second is as it was. *)
Lemma processPhoto_failure_message_witness :
  exists st' log,
    processPhoto (newPhoto first)
      (fails "429 RESOURCE_EXHAUSTED: you exceeded your current quota") freshPair
    = Return (st', log) /\
    photos st' = [toError msgQuota (newPhoto first); newPhoto second] /\
    hasApiKey st' = None.
Proof.
  destruct (processPhoto_failure_message (newPhoto first)
              (fails "429 RESOURCE_EXHAUSTED: you exceeded your current quota")
              freshPair
              (newError "429 RESOURCE_EXHAUSTED: you exceeded your current quota")
              [buildRequest "data:image/jpeg;base64,AAAA" "image/jpeg" standard]
              eq_refl eq_refl)
    as (st' & log & H & [Hp _] & _ & Hflag).
  exists st', log. split; [exact H |]. split.
  - rewrite Hp. vm_compute. reflexivity.
  - apply Hflag. vm_compute. reflexivity.
Defined.

(** C5 as it is written fails: a message with a quota signal does not
    always give the quota message.  Here the message has "quota" and
    "Requested entity was not found": the photo gets the credential-invalid
    message and the flag is set to false. *)
Lemma processPhoto_quota_signal_not_quota_message :
  message_includes (newError twoSignals) "quota" = true /\
  attempt (newPhoto first) standard (fails twoSignals)
  = (Throw (newError twoSignals),
     [buildRequest "data:image/jpeg;base64,AAAA" "image/jpeg" standard]) /\
  (exists st' log,
      processPhoto (newPhoto first) (fails twoSignals) (fresh first) = Return (st', log) /\
      map error (photos st') = [Some msgKeyInvalid] /\
      hasApiKey st' = Some false) /\
  msgKeyInvalid <> msgQuota.
Proof.
  split; [vm_compute; reflexivity |]. split; [vm_compute; reflexivity |].
  split; [| vm_compute; discriminate].
  eexists. eexists. split; [vm_compute; reflexivity |]. split; reflexivity.
Qed.

End ProcessPhotoClaims.

(* ================================================================= *)
(** ** The timer of [processPhoto] *)

Section Deadline.

Lemma errorMessageOf_timeout : errorMessageOf timeoutError = msgTimeout.
Proof. vm_compute. reflexivity. Qed.

Lemma race_late (elapsed ms : N) (c : Completion string) (tf : bool) :
  (timeoutMs < elapsed + ms)%N ->
  race elapsed (SettlesAfter ms c) tf = Throw timeoutError.
Proof.
  intros H. unfold race. apply N.compare_gt_iff in H. rewrite H. reflexivity.
Qed.

Lemma race_early (elapsed ms : N) (c : Completion string) (tf : bool) :
  (elapsed + ms < timeoutMs)%N ->
  race elapsed (SettlesAfter ms c) tf = c.
Proof.
  intros H. unfold race. apply N.compare_lt_iff in H. rewrite H. reflexivity.
Qed.

Lemma attempt_read (photo : PhotoItem) (mode : RestorationMode) (w : World)
  (elapsed : N) (base64 : string)
  (promise : Promise string) (sent : list GenerateContentRequest) :
  readAsDataURL w (file photo) = (elapsed, Return base64) ->
  restoreImage (processEnv w) (generateContent w) base64 (type (file photo)) mode
  = (promise, sent) ->
  attempt photo mode w = (race elapsed promise (timerFirst w), sent).
Proof. intros Hr Hp. unfold attempt. rewrite Hr, Hp. reflexivity. Qed.

(** C6 (as amended).  The timer of 90 seconds is armed when
    [processPhoto] has passed its guard, before the file is read, and the
    restoration call is raced against it: the time spent reading counts.
    With [elapsed] the milliseconds spent reading: a restoration call that
    never settles, or settles later than 90000 ms after the timer was
    armed, leaves the photo in error with the timeout message, whatever
    the call ends with later; a call that returns an image earlier than
    that leaves the photo completed with that image.  In both cases the
    collection is the one the user left with the photos of that id so
    updated, every other photo is as it was, and the credential flag is
    untouched. *)
Theorem processPhoto_deadline
  (photo : PhotoItem) (w : World) (st : AppState)
  (elapsed : N) (base64 : string)
  (promise : Promise string) (sent : list GenerateContentRequest) :
  guarded photo = false ->
  readAsDataURL w (file photo) = (elapsed, Return base64) ->
  restoreImage (processEnv w) (generateContent w) base64 (type (file photo))
    (restorationMode st) = (promise, sent) ->
  exists st' log,
    processPhoto photo w st = Return (st', log) /\
    (promise = Never \/
     (exists ms c, promise = SettlesAfter ms c /\ (timeoutMs < elapsed + ms)%N) ->
     EndsInError msgTimeout photo (meanwhile w) st st' /\
     hasApiKey st' = hasApiKey st) /\
    (forall ms r,
        promise = SettlesAfter ms (Return r) -> (elapsed + ms < timeoutMs)%N ->
        EndsCompleted r photo (meanwhile w) st st' /\
        hasApiKey st' = hasApiKey st).
Proof.
  intros Hg Hr Hp.
  rewrite (processPhoto_unguarded photo w st Hg), settle_Return.
  rewrite (attempt_read photo _ w elapsed base64 promise sent Hr Hp). cbn [fst snd].
  destruct (hasApiKey_actAll (meanwhile w) (start photo st)) as (Hk & _ & _).
  eexists. eexists. split; [reflexivity |]. split.
  - intros Hlate.
    assert (E : race elapsed promise (timerFirst w) = Throw timeoutError).
    { destruct Hlate as [-> | (ms & c & -> & Hlt)];
        [reflexivity | apply race_late; exact Hlt]. }
    rewrite E. split.
    + apply EndsInError_intro. rewrite <- errorMessageOf_timeout.
      apply onFailure_photos_eq.
    + rewrite onFailure_hasApiKey.
      replace (isEntityNotFound timeoutError) with false by (vm_compute; reflexivity).
      rewrite Hk. reflexivity.
  - intros ms r -> Hlt.
    rewrite (race_early elapsed ms (Return r) _ Hlt). split.
    + apply EndsCompleted_intro. reflexivity.
    + cbn [hasApiKey setPhotos]. rewrite Hk. reflexivity.
Qed.

(** The theorem on a remote call that never settles, for the first of two
    photos: the first is in error with the timeout message, the second is
    as it was. *)
Lemma processPhoto_deadline_witness :
  exists st' log,
    processPhoto (newPhoto first) hangs freshPair = Return (st', log) /\
    photos st' = [toError msgTimeout (newPhoto first); newPhoto second] /\
    hasApiKey st' = None.
Proof.
  destruct (processPhoto_deadline (newPhoto first) hangs freshPair
              15 "data:image/jpeg;base64,AAAA" Never
              [buildRequest "data:image/jpeg;base64,AAAA" "image/jpeg" standard]
              eq_refl eq_refl eq_refl)
    as (st' & log & H & Hlate & _).
  destruct (Hlate (or_introl eq_refl)) as [[Hp _] Hf].
  exists st', log. split; [exact H |]. split.
  - rewrite Hp. vm_compute. reflexivity.
  - rewrite Hf. reflexivity.
Defined.

(** C6 as it is written fails: the deadline is not measured from the call
    of the restoration.  Here the file takes 50 s to read and the
    restoration returns an image 60 s after it was called, within 90 s of
    its call; the photo ends in error with the timeout message. *)
Lemma processPhoto_deadline_not_from_call :
  readAsDataURL slowRead scan = (50000%N, Return "data:image/jpeg;base64,AAAA") /\
  fst (restoreImage (processEnv slowRead) (generateContent slowRead)
         "data:image/jpeg;base64,AAAA" "image/jpeg" standard)
  = SettlesAfter 60000 (Return (dataUrl restored)) /\
  (60000 < timeoutMs)%N /\
  exists st' log,
    processPhoto (newPhoto first) slowRead (fresh first) = Return (st', log) /\
    map status (photos st') = [StError] /\
    map error (photos st') = [Some msgTimeout] /\
    map result (photos st') = [None].
Proof.
  split; [reflexivity |]. split; [reflexivity |]. split; [reflexivity |].
  eexists. eexists. split; [vm_compute; reflexivity |].
  repeat split.
Qed.

End Deadline.

(* ================================================================= *)
(** ** What every command preserves *)

Section Preservation.

(** A property of the collection that the four kinds of update keep. *)
Variable P : list PhotoItem -> Prop.
Hypothesis P_processing : forall i l, P l -> P (mapById i toProcessing l).
Hypothesis P_completed : forall i r l, P l -> P (mapById i (toCompleted r) l).
Hypothesis P_error : forall i m l, P l -> P (mapById i (toError m) l).
Hypothesis P_act : forall a st, P (photos st) -> P (photos (act a st)).

Lemma preserved_actAll (l : list UserAction) (st : AppState) :
  P (photos st) -> P (photos (actAll l st)).
Proof.
  revert st. induction l as [| a l IH]; intros st H.
  - exact H.
  - change (actAll (a :: l) st) with (actAll l (act a st)).
    apply IH, P_act, H.
Qed.

Lemma preserved_processPhoto (photo : PhotoItem) (w : World) (st : AppState) :
  P (photos st) ->
  exists st' log, processPhoto photo w st = Return (st', log) /\ P (photos st').
Proof.
  intros H. unfold processPhoto. destruct (guarded photo).
  - exists st, []. split; [reflexivity | exact H].
  - rewrite settle_Return. eexists. eexists. split; [reflexivity |].
    assert (H2 : P (photos (actAll (meanwhile w) (start photo st)))).
    { apply preserved_actAll. cbn. apply P_processing, H. }
    destruct (fst (attempt photo (restorationMode st) w)) as [r | err].
    + cbn. apply P_completed, H2.
    + unfold onFailure. destruct (isEntityNotFound err); cbn; apply P_error, H2.
Qed.

Lemma preserved_processEach (ps : list PhotoItem) (worlds : nat -> World)
  (k : nat) (st : AppState) :
  P (photos st) ->
  exists st' log, processEach ps worlds k st = Return (st', log) /\ P (photos st').
Proof.
  revert k st. induction ps as [| photo rest IH]; intros k st H.
  - exists st, []. split; [reflexivity | exact H].
  - destruct (preserved_processPhoto photo (worlds k) st H) as (st1 & log1 & E1 & H1).
    destruct (IH (S k) st1 H1) as (st2 & log2 & E2 & H2).
    exists st2, (log1 ++ log2)%list. cbn [processEach]. rewrite E1, E2.
    split; [reflexivity | exact H2].
Qed.

Lemma preserved_processAll (worlds : nat -> World) (st : AppState) :
  P (photos st) ->
  exists st' log, processAll worlds st = Return (st', log) /\ P (photos st').
Proof.
  intros H. unfold processAll.
  destruct (preserved_processEach (filter eligible (photos st)) worlds 0
              (setIsProcessingAll true st) H) as (st1 & log1 & E1 & H1).
  rewrite E1. exists (setIsProcessingAll false st1), log1.
  split; [reflexivity | exact H1].
Qed.

Lemma preserved_exec (c : Command) (st : AppState) :
  P (photos st) -> P (photos (exec c st)).
Proof.
  intros H. destruct c as [a | photo w | worlds]; cbn [exec].
  - apply P_act, H.
  - destruct (preserved_processPhoto photo w st H) as (st' & log & E & H').
    rewrite E. exact H'.
  - destruct (preserved_processAll worlds st H) as (st' & log & E & H').
    rewrite E. exact H'.
Qed.

Lemma preserved_run (cs : list Command) (st : AppState) :
  P (photos st) -> P (photos (run cs st)).
Proof.
  revert st. induction cs as [| c cs IH]; intros st H.
  - exact H.
  - change (run (c :: cs) st) with (run cs (exec c st)).
    apply IH, preserved_exec, H.
Qed.

End Preservation.

(* ================================================================= *)
(** ** Status, result and error *)

Section Coherence.

Lemma Forall_mapById (Q : PhotoItem -> Prop) (f : PhotoItem -> PhotoItem)
  (i : string) (l : list PhotoItem) :
  (forall p, Q p -> Q (f p)) -> Forall Q l -> Forall Q (mapById i f l).
Proof.
  intros Hf H. unfold mapById. induction H as [| p l Hp _ IH]; cbn.
  - constructor.
  - constructor; [| exact IH]. destruct (id p =? i); [apply Hf |]; exact Hp.
Qed.

Lemma coherent_newPhoto (a : Accepted) : coherent (newPhoto a).
Proof. split; reflexivity. Qed.

Lemma coherent_toCompleted (r : string) (p : PhotoItem) : coherent (toCompleted r p).
Proof. unfold coherent. cbn. discriminate. Qed.

Lemma coherent_toError (m : string) (p : PhotoItem) : coherent (toError m p).
Proof. unfold coherent. cbn. discriminate. Qed.

Lemma coherent_toProcessing (p : PhotoItem) : coherent (toProcessing p).
Proof. exact I. Qed.

Lemma coherent_act (a : UserAction) (st : AppState) :
  Forall coherent (photos st) -> Forall coherent (photos (act a st)).
Proof.
  intros H. destruct a as [fs | i | i key value]; cbn.
  - unfold onDrop. apply Forall_app. split; [exact H |].
    apply Forall_forall. intros p Hp. apply in_map_iff in Hp.
    destruct Hp as (a & <- & _). apply coherent_newPhoto.
  - unfold removePhoto. apply Forall_forall. intros p Hp.
    apply filter_In in Hp. destruct Hp as [Hp _].
    revert p Hp. apply Forall_forall. exact H.
  - unfold updateAdjustment. apply Forall_mapById; [| exact H].
    intros p Hp. exact Hp.
Qed.

(** C1 (as amended).  In every state the component can reach, a completed
    photo has a result, a photo in error has an error message, and a
    pending photo has neither.  The update to completed stores the result
    and leaves the error field as it was; the update to error stores the
    message and leaves the result field as it was; the update to
    processing leaves both as they were.  Nothing is ever cleared, so both
    fields can be populated at once. *)
Theorem status_agrees_with_fields (st : AppState) :
  Reachable st ->
  Forall coherent (photos st) /\
  (forall r p, status (toCompleted r p) = StCompleted /\
               result (toCompleted r p) = Some r /\
               error (toCompleted r p) = error p) /\
  (forall m p, status (toError m p) = StError /\
               error (toError m p) = Some m /\
               result (toError m p) = result p) /\
  (forall p, status (toProcessing p) = StProcessing /\
             result (toProcessing p) = result p /\
             error (toProcessing p) = error p).
Proof.
  intros (cs & ->). split; [| repeat split].
  apply (preserved_run (Forall coherent)).
  - intros i l. apply Forall_mapById. intros p _. apply coherent_toProcessing.
  - intros i r l. apply Forall_mapById. intros p _. apply coherent_toCompleted.
  - intros i m l. apply Forall_mapById. intros p _. apply coherent_toError.
  - exact coherent_act.
  - constructor.
Qed.

(** The theorem on the state after a drop and a timed-out restoration. *)
Lemma status_agrees_with_fields_witness :
  Forall coherent
    (photos (run [User (Drop [first]); ProcessOne (newPhoto first) hangs] initialState)).
Proof.
  apply (status_agrees_with_fields
           (run [User (Drop [first]); ProcessOne (newPhoto first) hangs] initialState)).
  exists [User (Drop [first]); ProcessOne (newPhoto first) hangs]. reflexivity.
Defined.

(** C1 as it is written fails: a photo whose first restoration timed out
    and whose retry succeeded is completed with its result, and still has
    the error message of the first attempt. *)
Lemma retry_leaves_result_and_error :
  let st1 := run [User (Drop [first]); ProcessOne (newPhoto first) hangs] initialState in
  let st2 := run [ProcessOne (photoAt 0 st1) (answers withImage)] st1 in
  map status (photos st1) = [StError] /\
  map status (photos st2) = [StCompleted] /\
  map result (photos st2) = [Some (dataUrl restored)] /\
  map error (photos st2) = [Some msgTimeout].
Proof. vm_compute. repeat split. Qed.

End Coherence.

(* ================================================================= *)
(** ** [processAll] *)

Section ProcessAll.

Lemma eligible_guarded (p : PhotoItem) : eligible p = true -> guarded p = false.
Proof. unfold eligible, guarded. destruct (status p); cbn; congruence. Qed.


Lemma processPhoto_returns (photo : PhotoItem) (w : World) (st : AppState) :
  guarded photo = false ->
  exists st' log, processPhoto photo w st = Return (st', log) /\ oneRun photo log.
Proof.
  intros Hg. rewrite (processPhoto_unguarded photo w st Hg), settle_Return.
  eexists. eexists. split; [reflexivity | eexists; reflexivity].
Qed.

(** The loop returns, and its log is one run after the other. *)
Lemma processEach_log (ps : list PhotoItem) (worlds : nat -> World) :
  Forall (fun q => guarded q = false) ps ->
  forall (n : nat) (st : AppState),
  exists st' log,
    processEach ps worlds n st = Return (st', log) /\
    exists segments, log = concat segments /\ Forall2 oneRun ps segments.
Proof.
  intros Hps. induction Hps as [| photo rest Hg _ IH]; intros n st.
  - exists st, []. split; [reflexivity |].
    exists []. split; [reflexivity | constructor].
  - destruct (processPhoto_returns photo (worlds n) st Hg) as (st1 & log1 & E1 & R1).
    destruct (IH (S n) st1) as (st2 & log2 & E2 & segs & -> & F2).
    exists st2, (log1 ++ concat segs)%list. cbn [processEach]. rewrite E1, E2.
    split; [reflexivity |].
    exists (log1 :: segs). split; [reflexivity | constructor; assumption].
Qed.




End ProcessAll.

(* ================================================================= *)
(** ** Identifiers *)

Section Identifiers.

Lemma Subseq_refl {A} (l : list A) : Subseq l l.
Proof. induction l; constructor; assumption. Qed.

Lemma Subseq_trans {A} (l1 l2 l3 : list A) :
  Subseq l1 l2 -> Subseq l2 l3 -> Subseq l1 l3.
Proof.
  intros H12 H23. revert l1 H12.
  induction H23 as [| x l2 l3 _ IH | x l2 l3 _ IH]; intros l1 H12.
  - exact H12.
  - constructor. apply IH. exact H12.
  - inversion H12; subst; constructor; apply IH; assumption.
Qed.

Lemma Subseq_app {A} (l1 l2 r1 r2 : list A) :
  Subseq l1 l2 -> Subseq r1 r2 -> Subseq (l1 ++ r1) (l2 ++ r2).
Proof.
  intros Hl Hr. induction Hl; cbn; try constructor; assumption.
Qed.

Lemma Subseq_prefix {A} (l r : list A) : Subseq l (l ++ r).
Proof.
  induction l as [| x l IH]; cbn; [| constructor; exact IH].
  induction r; constructor; assumption.
Qed.

Lemma Subseq_filter {A} (f : A -> bool) (l : list A) : Subseq (filter f l) l.
Proof.
  induction l as [| x l IH]; cbn; [constructor |].
  destruct (f x); constructor; exact IH.
Qed.

Lemma Subseq_map {A B} (f : A -> B) (l1 l2 : list A) :
  Subseq l1 l2 -> Subseq (map f l1) (map f l2).
Proof. intros H. induction H; cbn; constructor; assumption. Qed.

Lemma Subseq_In {A} (l1 l2 : list A) (x : A) : Subseq l1 l2 -> In x l1 -> In x l2.
Proof.
  intros H. induction H as [| y l1 l2 _ IH | y l1 l2 _ IH]; intros Hin.
  - exact Hin.
  - right. apply IH. exact Hin.
  - destruct Hin as [-> | Hin]; [left; reflexivity | right; apply IH; exact Hin].
Qed.

Lemma Subseq_NoDup {A} (l1 l2 : list A) : Subseq l1 l2 -> NoDup l2 -> NoDup l1.
Proof.
  intros H. induction H as [| y l1 l2 H IH | y l1 l2 H IH]; intros Hnd.
  - exact Hnd.
  - inversion Hnd; subst. apply IH. assumption.
  - inversion Hnd as [| ? ? Hy Hnd']; subst. constructor; [| apply IH; exact Hnd'].
    intros Hin. apply Hy. apply (Subseq_In l1 l2 y H Hin).
Qed.

(** The updates by id leave the ids alone. *)
Lemma ids_mapById (i : string) (f : PhotoItem -> PhotoItem) (l : list PhotoItem) :
  (forall p, id (f p) = id p) -> ids (mapById i f l) = ids l.
Proof.
  intros Hf. unfold ids, mapById. rewrite map_map. apply map_ext.
  intros p. destruct (id p =? i); [apply Hf | reflexivity].
Qed.

Lemma ids_onDrop (fs : list Accepted) (l : list PhotoItem) :
  ids (onDrop fs l) = (ids l ++ newIds fs)%list.
Proof.
  unfold ids, newIds, onDrop. rewrite map_app, map_map. reflexivity.
Qed.

Lemma ids_act (a : UserAction) (st : AppState) :
  Subseq (ids (photos (act a st))) (ids (photos st) ++ newIds (dropped a)).
Proof.
  destruct a as [fs | i | i key value];
    unfold act, setPhotos; cbn [photos dropped].
  - rewrite ids_onDrop. apply Subseq_refl.
  - unfold newIds. cbn [map]. rewrite app_nil_r.
    apply Subseq_map. apply Subseq_filter.
  - unfold newIds. cbn [map]. rewrite app_nil_r. unfold updateAdjustment.
    rewrite ids_mapById by reflexivity. apply Subseq_refl.
Qed.

Lemma newIds_app (l1 l2 : list Accepted) :
  newIds (l1 ++ l2) = (newIds l1 ++ newIds l2)%list.
Proof. apply map_app. Qed.

Lemma ids_actAll (l : list UserAction) (st : AppState) :
  Subseq (ids (photos (actAll l st))) (ids (photos st) ++ newIds (flat_map dropped l)).
Proof.
  revert st. induction l as [| a l IH]; intros st.
  - cbn. rewrite app_nil_r. apply Subseq_refl.
  - change (actAll (a :: l) st) with (actAll l (act a st)).
    cbn [flat_map]. rewrite newIds_app, app_assoc.
    apply Subseq_trans with (ids (photos (act a st)) ++ newIds (flat_map dropped l))%list.
    + apply IH.
    + apply Subseq_app; [apply ids_act | apply Subseq_refl].
Qed.

Lemma ids_processPhoto (photo : PhotoItem) (w : World) (st st' : AppState)
  (log : list Event) :
  guarded photo = false ->
  processPhoto photo w st = Return (st', log) ->
  Subseq (ids (photos st')) (ids (photos st) ++ newIds (droppedIn w)).
Proof.
  intros Hg E. rewrite (processPhoto_unguarded photo w st Hg), settle_Return in E.
  injection E as <- _.
  assert (H : Subseq (ids (photos (actAll (meanwhile w) (start photo st))))
                (ids (photos st) ++ newIds (droppedIn w))).
  { apply Subseq_trans
      with (ids (photos (start photo st)) ++ newIds (droppedIn w))%list.
    - apply ids_actAll.
    - unfold start, setPhotos. cbn [photos].
      rewrite ids_mapById by reflexivity. apply Subseq_refl. }
  destruct (fst (attempt photo (restorationMode st) w)) as [r | err].
  - unfold setPhotos. cbn [photos]. rewrite ids_mapById by reflexivity. exact H.
  - unfold onFailure, setPhotos.
    destruct (isEntityNotFound err); cbn [photos setHasApiKey];
      rewrite ids_mapById by reflexivity; exact H.
Qed.

Lemma ids_processEach (ps : list PhotoItem) (worlds : nat -> World) :
  Forall (fun q => guarded q = false) ps ->
  forall (n : nat) (st st' : AppState) (log : list Event),
    processEach ps worlds n st = Return (st', log) ->
    Subseq (ids (photos st'))
      (ids (photos st) ++ newIds (droppedDuring worlds n (List.length ps))).
Proof.
  intros Hps. induction Hps as [| photo rest Hg _ IH]; intros n st st' log E.
  - injection E as <- _. cbn. rewrite app_nil_r. apply Subseq_refl.
  - cbn [processEach] in E.
    destruct (processPhoto photo (worlds n) st) as [[st1 log1] | e] eqn:E1;
      [| discriminate E].
    destruct (processEach rest worlds (S n) st1) as [[st2 log2] | e] eqn:E2;
      [| discriminate E].
    injection E as <- _.
    unfold droppedDuring. cbn [List.length seq flat_map].
    rewrite newIds_app, app_assoc.
    apply Subseq_trans
      with (ids (photos st1) ++ newIds (droppedDuring worlds (S n) (List.length rest)))%list.
    + apply (IH (S n) st1 st2 log2 E2).
    + apply Subseq_app; [| apply Subseq_refl].
      apply (ids_processPhoto photo (worlds n) st st1 log1 Hg E1).
Qed.

Lemma ids_exec (c : Command) (st : AppState) :
  Subseq (ids (photos (exec c st))) (ids (photos st) ++ newIds (acceptedBy c st)).
Proof.
  destruct c as [a | photo w | worlds]; cbn [exec acceptedBy].
  - apply ids_act.
  - destruct (guarded photo) eqn:Hg.
    + unfold processPhoto. rewrite Hg. cbn. rewrite app_nil_r. apply Subseq_refl.
    + destruct (processPhoto_returns photo w st Hg) as (st' & log & E & _).
      rewrite E. cbn. apply (ids_processPhoto photo w st st' log Hg E).
  - unfold processAll.
    assert (Hps : Forall (fun q => guarded q = false) (filter eligible (photos st))).
    { apply Forall_forall. intros q Hq. apply filter_In in Hq.
      apply eligible_guarded. apply Hq. }
    destruct (processEach (filter eligible (photos st)) worlds 0
                (setIsProcessingAll true st)) as [[st1 log1] | e] eqn:E.
    + cbn. apply (ids_processEach _ worlds Hps 0%nat _ st1 log1 E).
    + cbn. apply Subseq_prefix.
Qed.

Lemma ids_run (cs : list Command) (st : AppState) :
  Subseq (ids (photos (run cs st))) (ids (photos st) ++ newIds (accepted cs st)).
Proof.
  revert st. induction cs as [| c cs IH]; intros st.
  - cbn. rewrite app_nil_r. apply Subseq_refl.
  - change (run (c :: cs) st) with (run cs (exec c st)).
    cbn [accepted]. rewrite newIds_app, app_assoc.
    apply Subseq_trans with (ids (photos (exec c st)) ++ newIds (accepted cs (exec c st)))%list.
    + apply IH.
    + apply Subseq_app; [apply ids_exec | apply Subseq_refl].
Qed.

End Identifiers.

Section Lineage.

Lemma Subseq_nth {A} (l1 l2 : list A) (k : nat) (x : A) :
  Subseq l1 l2 -> nth_error l1 k = Some x ->
  exists j, nth_error l2 j = Some x.
Proof.
  intros H. revert k. induction H as [| y l1 l2 _ IH | y l1 l2 _ IH]; intros k Hk.
  - destruct k; discriminate Hk.
  - destruct (IH k Hk) as (j & Hj). exists (S j). exact Hj.
  - destruct k as [| k].
    + exists 0%nat. exact Hk.
    + destruct (IH k Hk) as (j & Hj). exists (S j). exact Hj.
Qed.

(** Two elements of a subsequence come, in their order, from two places
    of the sequence. *)
Lemma Subseq_pair {A} (l1 l2 : list A) (k1 k2 : nat) (x y : A) :
  Subseq l1 l2 -> (k1 < k2)%nat ->
  nth_error l1 k1 = Some x -> nth_error l1 k2 = Some y ->
  exists j1 j2, (j1 < j2)%nat /\ nth_error l2 j1 = Some x /\ nth_error l2 j2 = Some y.
Proof.
  intros H. revert k1 k2.
  induction H as [| z l1 l2 _ IH | z l1 l2 H IH]; intros k1 k2 Hlt H1 H2.
  - destruct k1; discriminate H1.
  - destruct (IH k1 k2 Hlt H1 H2) as (j1 & j2 & Hj & J1 & J2).
    exists (S j1), (S j2). split; [lia | split; assumption].
  - destruct k2 as [| k2]; [lia |]. destruct k1 as [| k1].
    + destruct (Subseq_nth l1 l2 k2 y H H2) as (j & Hj).
      exists 0%nat, (S j). split; [lia | split; assumption].
    + assert (Hlt' : (k1 < k2)%nat) by lia.
      destruct (IH k1 k2 Hlt' H1 H2) as (j1 & j2 & Hj & J1 & J2).
      exists (S j1), (S j2). split; [lia | split; assumption].
Qed.

(** The updates by id leave the id, the file and the preview alone. *)
Lemma lineage_mapById (i : string) (f : PhotoItem -> PhotoItem) (l : list PhotoItem) :
  (forall p, lineage (f p) = lineage p) ->
  map lineage (mapById i f l) = map lineage l.
Proof.
  intros Hf. unfold mapById. rewrite map_map. apply map_ext.
  intros p. destruct (id p =? i); [apply Hf | reflexivity].
Qed.

Lemma lineage_onDrop (fs : list Accepted) (l : list PhotoItem) :
  map lineage (onDrop fs l) = (map lineage l ++ map lineageOf fs)%list.
Proof. unfold onDrop. rewrite map_app, map_map. reflexivity. Qed.

Lemma lineage_act (a : UserAction) (st : AppState) :
  Subseq (map lineage (photos (act a st)))
    (map lineage (photos st) ++ map lineageOf (dropped a)).
Proof.
  destruct a as [fs | i | i key value];
    unfold act, setPhotos; cbn [photos dropped].
  - rewrite lineage_onDrop. apply Subseq_refl.
  - cbn [map]. rewrite app_nil_r. apply Subseq_map. apply Subseq_filter.
  - cbn [map]. rewrite app_nil_r. unfold updateAdjustment.
    rewrite lineage_mapById by reflexivity. apply Subseq_refl.
Qed.

Lemma lineage_actAll (l : list UserAction) (st : AppState) :
  Subseq (map lineage (photos (actAll l st)))
    (map lineage (photos st) ++ map lineageOf (flat_map dropped l)).
Proof.
  revert st. induction l as [| a l IH]; intros st.
  - cbn. rewrite app_nil_r. apply Subseq_refl.
  - change (actAll (a :: l) st) with (actAll l (act a st)).
    cbn [flat_map]. rewrite map_app, app_assoc.
    apply Subseq_trans
      with (map lineage (photos (act a st)) ++ map lineageOf (flat_map dropped l))%list.
    + apply IH.
    + apply Subseq_app; [apply lineage_act | apply Subseq_refl].
Qed.

Lemma lineage_processPhoto (photo : PhotoItem) (w : World) (st st' : AppState)
  (log : list Event) :
  guarded photo = false ->
  processPhoto photo w st = Return (st', log) ->
  Subseq (map lineage (photos st'))
    (map lineage (photos st) ++ map lineageOf (droppedIn w)).
Proof.
  intros Hg E. rewrite (processPhoto_unguarded photo w st Hg), settle_Return in E.
  injection E as <- _.
  assert (H : Subseq (map lineage (photos (actAll (meanwhile w) (start photo st))))
                (map lineage (photos st) ++ map lineageOf (droppedIn w))).
  { apply Subseq_trans
      with (map lineage (photos (start photo st)) ++ map lineageOf (droppedIn w))%list.
    - apply lineage_actAll.
    - unfold start, setPhotos. cbn [photos].
      rewrite lineage_mapById by reflexivity. apply Subseq_refl. }
  destruct (fst (attempt photo (restorationMode st) w)) as [r | err].
  - unfold setPhotos. cbn [photos]. rewrite lineage_mapById by reflexivity. exact H.
  - rewrite onFailure_photos_eq. rewrite lineage_mapById by reflexivity. exact H.
Qed.

Lemma lineage_processEach (ps : list PhotoItem) (worlds : nat -> World) :
  Forall (fun q => guarded q = false) ps ->
  forall (n : nat) (st st' : AppState) (log : list Event),
    processEach ps worlds n st = Return (st', log) ->
    Subseq (map lineage (photos st'))
      (map lineage (photos st)
         ++ map lineageOf (droppedDuring worlds n (List.length ps))).
Proof.
  intros Hps. induction Hps as [| photo rest Hg _ IH]; intros n st st' log E.
  - injection E as <- _. cbn. rewrite app_nil_r. apply Subseq_refl.
  - cbn [processEach] in E.
    destruct (processPhoto photo (worlds n) st) as [[st1 log1] | e] eqn:E1;
      [| discriminate E].
    destruct (processEach rest worlds (S n) st1) as [[st2 log2] | e] eqn:E2;
      [| discriminate E].
    injection E as <- _.
    unfold droppedDuring. cbn [List.length seq flat_map].
    rewrite map_app, app_assoc.
    apply Subseq_trans
      with (map lineage (photos st1)
              ++ map lineageOf (droppedDuring worlds (S n) (List.length rest)))%list.
    + apply (IH (S n) st1 st2 log2 E2).
    + apply Subseq_app; [| apply Subseq_refl].
      apply (lineage_processPhoto photo (worlds n) st st1 log1 Hg E1).
Qed.

Lemma lineage_exec (c : Command) (st : AppState) :
  Subseq (map lineage (photos (exec c st)))
    (map lineage (photos st) ++ map lineageOf (acceptedBy c st)).
Proof.
  destruct c as [a | photo w | worlds]; cbn [exec acceptedBy].
  - apply lineage_act.
  - destruct (guarded photo) eqn:Hg.
    + unfold processPhoto. rewrite Hg. cbn. rewrite app_nil_r. apply Subseq_refl.
    + destruct (processPhoto_returns photo w st Hg) as (st' & log & E & _).
      rewrite E. cbn. apply (lineage_processPhoto photo w st st' log Hg E).
  - unfold processAll.
    assert (Hps : Forall (fun q => guarded q = false) (filter eligible (photos st))).
    { apply Forall_forall. intros q Hq. apply filter_In in Hq.
      apply eligible_guarded. apply Hq. }
    destruct (processEach (filter eligible (photos st)) worlds 0
                (setIsProcessingAll true st)) as [[st1 log1] | e] eqn:E.
    + cbn. apply (lineage_processEach _ worlds Hps 0%nat _ st1 log1 E).
    + cbn. apply Subseq_prefix.
Qed.

(** The photos of the collection are at any time, in order, among those
    made for the files accepted so far, each with the id, the file and
    the preview it was made with. *)
Lemma lineage_run (cs : list Command) (st : AppState) :
  Subseq (map lineage (photos (run cs st)))
    (map lineage (photos st) ++ map lineageOf (accepted cs st)).
Proof.
  revert st. induction cs as [| c cs IH]; intros st.
  - cbn. rewrite app_nil_r. apply Subseq_refl.
  - change (run (c :: cs) st) with (run cs (exec c st)).
    cbn [accepted]. rewrite map_app, app_assoc.
    apply Subseq_trans
      with (map lineage (photos (exec c st))
              ++ map lineageOf (accepted cs (exec c st)))%list.
    + apply IH.
    + apply Subseq_app; [apply lineage_exec | apply Subseq_refl].
Qed.

End Lineage.

Section IdentifierClaims.

(** C8 (as amended).  The id of a photo is what follows the seventh
    character of the base-36 numeral of the number that [Math.random]
    drew for it; no command changes it, nor the file or the preview
    beside it, and the photos of the collection are at any time, in
    order, among those made for the files accepted so far.  Hence any two
    photos of the collection come from two different accepted files, the
    earlier photo from the earlier file, and their ids differ exactly
    when the numerals drawn for these two files differ after their
    seventh character; what was drawn for other files does not matter.
    In particular the ids of the collection are pairwise different when
    all the numerals drawn during the session differ after their seventh
    character.  The code does not check that they do. *)
Theorem ids_distinct_when_draws_are (cs : list Command) :
  (forall a, id (newPhoto a) = substring_from 7 (random36 a)) /\
  Subseq (map lineage (photos (run cs initialState)))
    (map lineageOf (accepted cs initialState)) /\
  (forall k1 k2 p1 p2,
      (k1 < k2)%nat ->
      nth_error (photos (run cs initialState)) k1 = Some p1 ->
      nth_error (photos (run cs initialState)) k2 = Some p2 ->
      exists j1 j2 a1 a2,
        (j1 < j2)%nat /\
        nth_error (accepted cs initialState) j1 = Some a1 /\
        nth_error (accepted cs initialState) j2 = Some a2 /\
        lineage p1 = lineageOf a1 /\ lineage p2 = lineageOf a2 /\
        (id p1 <> id p2 <->
         substring_from 7 (random36 a1) <> substring_from 7 (random36 a2))) /\
  (NoDup (map (fun a => substring_from 7 (random36 a)) (accepted cs initialState)) ->
   NoDup (map id (photos (run cs initialState)))).
Proof.
  assert (H : Subseq (map lineage (photos (run cs initialState)))
                (map lineageOf (accepted cs initialState))).
  { apply (lineage_run cs initialState). }
  split; [reflexivity |]. split; [exact H |]. split.
  - intros k1 k2 p1 p2 Hlt H1 H2.
    assert (M1 : nth_error (map lineage (photos (run cs initialState))) k1
                 = Some (lineage p1)) by (rewrite nth_error_map, H1; reflexivity).
    assert (M2 : nth_error (map lineage (photos (run cs initialState))) k2
                 = Some (lineage p2)) by (rewrite nth_error_map, H2; reflexivity).
    destruct (Subseq_pair _ _ k1 k2 _ _ H Hlt M1 M2) as (j1 & j2 & Hj & J1 & J2).
    rewrite nth_error_map in J1, J2.
    destruct (nth_error (accepted cs initialState) j1) as [a1 |] eqn:A1;
      [| discriminate J1].
    destruct (nth_error (accepted cs initialState) j2) as [a2 |] eqn:A2;
      [| discriminate J2].
    cbn [option_map] in J1, J2.
    assert (L1 : lineage p1 = lineageOf a1) by congruence.
    assert (L2 : lineage p2 = lineageOf a2) by congruence.
    exists j1, j2, a1, a2.
    split; [exact Hj |]. split; [exact A1 |]. split; [exact A2 |].
    split; [exact L1 |]. split; [exact L2 |].
    assert (E1 : id p1 = substring_from 7 (random36 a1))
      by (unfold lineage, lineageOf in L1; congruence).
    assert (E2 : id p2 = substring_from 7 (random36 a2))
      by (unfold lineage, lineageOf in L2; congruence).
    rewrite E1, E2. reflexivity.
  - intros Hnd.
    apply (Subseq_NoDup _ _ (ids_run cs initialState)). exact Hnd.
Qed.

(** The theorem on a session in which three files are dropped, the same
    empty id being drawn for the first two: the first photo and the third
    have different ids all the same. *)
Lemma ids_distinct_when_draws_are_witness :
  exists p1 p2,
    nth_error (photos (run [User (Drop [half; quarter; first])] initialState)) 0
    = Some p1 /\
    nth_error (photos (run [User (Drop [half; quarter; first])] initialState)) 2
    = Some p2 /\
    id p1 <> id p2.
Proof.
  exists (newPhoto half), (newPhoto first).
  split; [reflexivity |]. split; [reflexivity |].
  destruct (ids_distinct_when_draws_are [User (Drop [half; quarter; first])])
    as (_ & _ & Hpair & _).
  destruct (Hpair 0%nat 2%nat (newPhoto half) (newPhoto first)
              (le_S _ _ (le_n 1)) eq_refl eq_refl)
    as (j1 & j2 & a1 & a2 & _ & _ & _ & L1 & L2 & Hiff).
  apply Hiff.
  assert (E1 : id (newPhoto half) = substring_from 7 (random36 a1))
    by (unfold lineage, lineageOf in L1; congruence).
  assert (E2 : id (newPhoto first) = substring_from 7 (random36 a2))
    by (unfold lineage, lineageOf in L2; congruence).
  rewrite <- E1, <- E2. vm_compute. discriminate.
Defined.

(** C8 as it is written fails.  [Math.random] draws 0.5 for one file and
    0.25 for another: the numerals [0.i] and [0.9] have three characters,
    nothing follows the seventh, and both photos get the empty id, be it
    that both are in the collection or that the first was removed before
    the second was dropped. *)
Lemma ids_can_repeat :
  random36 half <> random36 quarter /\
  accFile half <> accFile quarter /\
  map id (photos (run [User (Drop [half]); User (Drop [quarter])] initialState))
  = [""; ""] /\
  map id (photos (run [User (Drop [half])] initialState)) = [""] /\
  map id (photos (run [User (Drop [half]); User (Remove (newId half));
                       User (Drop [quarter])] initialState))
  = [""].
Proof.
  split; [discriminate |]. split; [discriminate |]. repeat split.
Qed.

End IdentifierClaims.

(* ================================================================= *)
(** ** Scenarios *)

Section Scenarios.

(** A response with an image completes the photo with that image. *)
Example scenario_image :
  outcomeIn (answers withImage)
  = Return ([(StCompleted, Some "data:image/png;base64,iVBORw0KGgo=", None)], 1%nat).
Proof. vm_compute. reflexivity. Qed.

(** A response without candidates ends in the empty-response error. *)
Example scenario_no_candidates :
  outcomeIn (answers noCandidates)
  = Return ([(StError, None, Some msgNoCandidate)], 1%nat).
Proof. vm_compute. reflexivity. Qed.

(** A response with a text only ends in the error that carries the text. *)
Example scenario_text_only :
  outcomeIn (answers textOnly)
  = Return ([(StError, None, Some (msgTextInstead (Some refusal)))], 1%nat).
Proof. vm_compute. reflexivity. Qed.

(** A generation that stopped early and has no fragments ends in the
    stop-reason error, not in the empty-response error. *)
Example scenario_stopped_early :
  outcomeIn (answers stoppedEarly)
  = Return ([(StError, None, Some (msgStopped (Some "MAX_TOKENS")))], 1%nat).
Proof. vm_compute. reflexivity. Qed.

(** Without a key nothing is sent, and the photo is in error at once. *)
Example scenario_keyless :
  outcomeIn keyless = Return ([(StError, None, Some msgNoApiKey)], 0%nat).
Proof. vm_compute. reflexivity. Qed.

(** A file that cannot be read: the error event has no message, nothing is
    sent and the default message is stored. *)
Example scenario_unreadable :
  outcomeIn unreadable = Return ([(StError, None, Some msgDefault)], 0%nat).
Proof. vm_compute. reflexivity. Qed.

(** A failure of the transport is renamed by [restoreImage] before it
    reaches [processPhoto], which then stores the new message as it is. *)
Example scenario_fetch_failed :
  outcomeIn (fails "TypeError: fetch failed")
  = Return ([(StError, None, Some msgNetwork)], 1%nat).
Proof. vm_compute. reflexivity. Qed.

(** An invalid key downgrades the flag. *)
Example scenario_invalid_key :
  match processPhoto (newPhoto first)
          (fails "404 NOT_FOUND: Requested entity was not found.") (fresh first) with
  | Return (st, _) => (hasApiKey st, map error (photos st))
  | Throw _ => (None, [])
  end
  = (Some false, [Some msgKeyInvalid]).
Proof. vm_compute. reflexivity. Qed.

End Scenarios.

(* ================================================================= *)
(** ** [restoreImage]: the key, the request, and what can come out *)

Section RestoreImageMore.

(** X1.  [restoreImage] uses [API_KEY] when it is set and not empty, and
    [GEMINI_API_KEY] otherwise.  When neither is usable its promise is
    rejected on return with the missing-key error and nothing is sent,
    whatever the remote side would have answered; with a key exactly one
    request is sent, and the promise is still pending on return: it
    settles when the SDK's does, and never if the SDK's never does. *)
Theorem restoreImage_key
  (env : ProcessEnv)
  (gc : GenerateContentRequest -> Promise GenerateContentResponse)
  (base64 mime : string) (mode : RestorationMode) :
  (truthy (API_KEY env) = true -> apiKey env = API_KEY env) /\
  (truthy (API_KEY env) = false -> apiKey env = GEMINI_API_KEY env) /\
  (truthy (API_KEY env) = false -> truthy (GEMINI_API_KEY env) = false ->
   restoreImage env gc base64 mime mode
   = (Settled (Throw (newError msgNoApiKey)), [])) /\
  (truthy (API_KEY env) = true \/ truthy (GEMINI_API_KEY env) = true ->
   snd (restoreImage env gc base64 mime mode) = [buildRequest base64 mime mode] /\
   (forall c, fst (restoreImage env gc base64 mime mode) <> Settled c) /\
   (awaited (fst (restoreImage env gc base64 mime mode))
    = option_map afterResponse (awaited (gc (buildRequest base64 mime mode))))).
Proof.
  unfold restoreImage, apiKey, or_else.
  split; [intros H; rewrite H; reflexivity |].
  split; [intros H; rewrite H; reflexivity |].
  split.
  - intros H1 H2. rewrite H1, H2. reflexivity.
  - intros H.
    assert (Hk : truthy (if truthy (API_KEY env) then API_KEY env else GEMINI_API_KEY env)
                 = true).
    { destruct (truthy (API_KEY env)) eqn:E; [exact E |].
      destruct H as [H | H]; [discriminate H | exact H]. }
    rewrite Hk. cbn [negb fst snd].
    split; [reflexivity |]. split.
    + intros c. destruct (gc (buildRequest base64 mime mode)); discriminate.
    + destruct (gc (buildRequest base64 mime mode)); reflexivity.
Qed.

(** The theorem without any key, and with the key of the user beside that
    of the platform. *)
Lemma restoreImage_key_witness :
  restoreImage withoutKey (fun _ => SettlesAfter 4000 (Return withImage))
    "data:image/jpeg;base64,AAAA" "image/jpeg" standard
  = (Settled (Throw (newError msgNoApiKey)), []) /\
  apiKey userKey = Some "AIza-user-key".
Proof.
  split.
  - apply (restoreImage_key withoutKey (fun _ => SettlesAfter 4000 (Return withImage))
             "data:image/jpeg;base64,AAAA" "image/jpeg" standard); reflexivity.
  - apply (restoreImage_key userKey (fun _ => Never) "" "" standard). reflexivity.
Defined.

Lemma occurs_app (c : ascii) (s t : string) :
  occurs c (s ++ t) = occurs c s || occurs c t.
Proof.
  induction s as [| a s IH]; [reflexivity |].
  change (String a s ++ t) with (String a (s ++ t)).
  cbn [occurs]. rewrite IH. apply orb_assoc.
Qed.

Lemma append_assoc (s t u : string) : (s ++ t) ++ u = s ++ t ++ u.
Proof.
  induction s as [| a s IH]; [reflexivity |].
  cbn [append]. rewrite IH. reflexivity.
Qed.

Lemma after_comma_none (s : string) :
  occurs "," s = false -> after_comma s = None.
Proof.
  induction s as [| a s IH]; [reflexivity |].
  cbn [occurs after_comma]. intros H. apply orb_false_iff in H. destruct H as [Ha Hs].
  rewrite Ascii.eqb_sym, Ha. apply IH. exact Hs.
Qed.

Lemma after_comma_app (h p : string) :
  occurs "," h = false -> after_comma (h ++ String "," p) = Some p.
Proof.
  induction h as [| a h IH].
  - intros _. reflexivity.
  - change (String a h ++ String "," p) with (String a (h ++ String "," p)).
    cbn [occurs after_comma]. intros H. apply orb_false_iff in H. destruct H as [Ha Hs].
    rewrite Ascii.eqb_sym, Ha. apply IH. exact Hs.
Qed.

Lemma until_comma_app (p q : string) :
  occurs "," p = false -> until_comma (p ++ String "," q) = p.
Proof.
  induction p as [| a p IH].
  - intros _. reflexivity.
  - change (String a p ++ String "," q) with (String a (p ++ String "," q)).
    cbn [occurs until_comma]. intros H. apply orb_false_iff in H. destruct H as [Ha Hs].
    rewrite Ascii.eqb_sym, Ha, (IH Hs). reflexivity.
Qed.

Lemma until_comma_id (p : string) : occurs "," p = false -> until_comma p = p.
Proof.
  induction p as [| a p IH]; [reflexivity |].
  cbn [occurs until_comma]. intros H. apply orb_false_iff in H. destruct H as [Ha Hs].
  rewrite Ascii.eqb_sym, Ha, (IH Hs). reflexivity.
Qed.

Lemma reqData_split (s seg : string) (mime : string) (mode : RestorationMode) :
  split_comma_1 s = Some seg ->
  reqData (buildRequest s mime mode) = if seg =? "" then s else seg.
Proof.
  intros H. unfold buildRequest, or_else. cbn [reqData]. rewrite H. cbn [truthy].
  destruct (seg =? ""); reflexivity.
Qed.

(** X2.  The image data of the request is what stands between the first
    and the second comma of [base64Image]: for a data URL, its payload
    without the header.  A string without a comma is sent whole; so is a
    string whose payload is empty; and of a payload with a comma only the
    part before that comma is sent. *)
Theorem buildRequest_payload (mime : string) (mode : RestorationMode) :
  (forall s, occurs "," s = false -> reqData (buildRequest s mime mode) = s) /\
  (forall header payload,
      occurs "," header = false -> occurs "," payload = false -> payload <> "" ->
      reqData (buildRequest (header ++ "," ++ payload) mime mode) = payload) /\
  (forall header,
      occurs "," header = false ->
      reqData (buildRequest (header ++ ",") mime mode) = header ++ ",") /\
  (forall header payload more,
      occurs "," header = false -> occurs "," payload = false -> payload <> "" ->
      reqData (buildRequest (header ++ "," ++ payload ++ "," ++ more) mime mode)
      = payload).
Proof.
  split; [| split; [| split]].
  - intros s H. unfold buildRequest, split_comma_1, or_else. cbn [reqData].
    rewrite (after_comma_none s H). reflexivity.
  - intros h p Hh Hp Hne.
    rewrite (reqData_split _ p).
    + destruct (String.eqb_spec p ""); [contradiction | reflexivity].
    + unfold split_comma_1. change ("," ++ p) with (String "," p).
      rewrite (after_comma_app h p Hh). cbn [option_map].
      rewrite (until_comma_id p Hp). reflexivity.
  - intros h Hh. rewrite (reqData_split _ ""); [reflexivity |].
    unfold split_comma_1. change (h ++ ",") with (h ++ String "," "").
    rewrite (after_comma_app h "" Hh). reflexivity.
  - intros h p q Hh Hp Hne.
    rewrite (reqData_split _ p).
    + destruct (String.eqb_spec p ""); [contradiction | reflexivity].
    + unfold split_comma_1.
      change ("," ++ p ++ "," ++ q) with (String "," (p ++ String "," q)).
      rewrite (after_comma_app h _ Hh). cbn [option_map].
      rewrite (until_comma_app p q Hp). reflexivity.
Qed.

(** The theorem on what a [FileReader] gives for a JPEG. *)
Lemma buildRequest_payload_witness :
  reqData (buildRequest ("data:image/jpeg;base64" ++ "," ++ "/9j/4AAQSkZJRg==")
             "image/jpeg" ultra)
  = "/9j/4AAQSkZJRg==".
Proof.
  apply (buildRequest_payload "image/jpeg" ultra); [reflexivity | reflexivity | discriminate].
Defined.

(** X3.  What [restoreImage] returns is read back by [buildRequest]: when
    the mime type of an image fragment has no comma and its bytes are not
    empty and have none, the data of a request built from the data URL of
    the fragment are the bytes of the fragment. *)
Theorem dataUrl_payload (b : Blob) (bytes mime : string) (mode : RestorationMode) :
  data b = Some bytes -> bytes <> "" -> occurs "," bytes = false ->
  occurs "," (interpolate (mimeType b)) = false ->
  reqData (buildRequest (dataUrl b) mime mode) = bytes.
Proof.
  intros Hd Hne Hb Hm. unfold dataUrl. rewrite Hd. cbn [interpolate].
  destruct (buildRequest_payload mime mode) as (_ & H & _).
  replace ("data:" ++ interpolate (mimeType b) ++ ";base64," ++ bytes)
    with (("data:" ++ interpolate (mimeType b) ++ ";base64") ++ "," ++ bytes).
  - apply H; [| exact Hb | exact Hne].
    cbn [append occurs]. rewrite occurs_app, Hm. reflexivity.
  - rewrite !append_assoc. reflexivity.
Qed.

(** The theorem on the restored image of the examples. *)
Lemma dataUrl_payload_witness :
  reqData (buildRequest (dataUrl restored) "image/png" standard) = "iVBORw0KGgo=".
Proof.
  apply (dataUrl_payload restored "iVBORw0KGgo=" "image/png" standard);
    [reflexivity | discriminate | reflexivity | reflexivity].
Defined.

End RestoreImageMore.

Section RestoreImageOutcomes.

Lemma firstInline_Some (ps : list Part) (b : Blob) :
  firstInline ps = Some b -> FirstImage ps b.
Proof.
  induction ps as [| p ps IH]; [discriminate |].
  cbn [firstInline]. destruct (inlineData p) as [b' |] eqn:E.
  - intros [= <-]. exists [], p, ps. split; [reflexivity |].
    split; [constructor | exact E].
  - intros H. destruct (IH H) as (before & q & after & -> & Hb & Hq).
    exists (p :: before), q, after. split; [reflexivity |].
    split; [constructor; assumption | exact Hq].
Qed.

Lemma abnormalFinish_false (c : Candidate) :
  abnormalFinish c = false -> NormalFinish c.
Proof.
  unfold abnormalFinish, NormalFinish. destruct (finishReason c) as [fr |]; [| left; reflexivity].
  cbn [truthy]. destruct (String.eqb_spec fr "") as [-> | Hne].
  - intros _. right. left. reflexivity.
  - destruct (String.eqb_spec fr "STOP") as [-> | Hs]; [| discriminate].
    intros _. right. right. reflexivity.
Qed.

Lemma inspectResponse_Return (r : GenerateContentResponse) (s : string) :
  inspectResponse r = Return s ->
  exists c ps b,
    firstCandidate r = Some c /\ NormalFinish c /\ partsOf c = Some ps /\
    FirstImage ps b /\ s = dataUrl b.
Proof.
  unfold inspectResponse.
  destruct (firstCandidate r) as [c |] eqn:Ec; [| discriminate].
  destruct (abnormalFinish c) eqn:Ea; [discriminate |].
  destruct (partsOf c) as [[| p ps] |] eqn:Ep; try discriminate.
  destruct (firstInline (p :: ps)) as [b |] eqn:Ef.
  - intros [= <-]. exists c, (p :: ps), b.
    split; [reflexivity |]. split; [apply abnormalFinish_false; exact Ea |].
    split; [exact Ep |]. split; [apply firstInline_Some; exact Ef | reflexivity].
  - destruct (findText (p :: ps)); discriminate.
Qed.

Lemma afterResponse_Return (c : Completion GenerateContentResponse) (s : string) :
  afterResponse c = Return s -> exists r, c = Return r /\ inspectResponse r = Return s.
Proof.
  unfold afterResponse. destruct c as [r | e]; [| discriminate].
  intros H. exists r. split; [reflexivity |].
  destruct (inspectResponse r); [exact H | discriminate H].
Qed.

Lemma afterResponse_Throw (c : Completion GenerateContentResponse) (e : Error) :
  afterResponse c = Throw e -> exists e0, e = rethrow e0.
Proof.
  unfold afterResponse. destruct c as [r | e0].
  - destruct (inspectResponse r) as [s | e0]; [discriminate |].
    intros [= <-]. exists e0. reflexivity.
  - intros [= <-]. exists e0. reflexivity.
Qed.

Lemma awaited_restoreImage (env : ProcessEnv)
  (gc : GenerateContentRequest -> Promise GenerateContentResponse)
  (base64 mime : string) (mode : RestorationMode) (c : Completion string) :
  awaited (fst (restoreImage env gc base64 mime mode)) = Some c ->
  c = Throw (newError msgNoApiKey) \/
  exists c0, awaited (gc (buildRequest base64 mime mode)) = Some c0 /\ c = afterResponse c0.
Proof.
  unfold restoreImage. destruct (negb (truthy (apiKey env))).
  - intros [= <-]. left. reflexivity.
  - cbn [fst].
    destruct (gc (buildRequest base64 mime mode)) as [c0 | ms c0 |];
      try discriminate; intros [= <-]; right; exists c0; split; reflexivity.
Qed.

(** X4.  [restoreImage] fulfils its promise only with a data URL, that of
    the first image-bearing fragment of the first candidate of a response
    that finished normally; its promise is never fulfilled on return. *)
Theorem restoreImage_returns_data_url
  (env : ProcessEnv)
  (gc : GenerateContentRequest -> Promise GenerateContentResponse)
  (base64 mime : string) (mode : RestorationMode) (s : string) :
  awaited (fst (restoreImage env gc base64 mime mode)) = Some (Return s) ->
  prefix "data:" s = true /\
  fst (restoreImage env gc base64 mime mode) <> Settled (Return s) /\
  exists r c ps b,
    awaited (gc (buildRequest base64 mime mode)) = Some (Return r) /\
    firstCandidate r = Some c /\ NormalFinish c /\ partsOf c = Some ps /\
    FirstImage ps b /\ s = dataUrl b.
Proof.
  intros H.
  destruct (awaited_restoreImage env gc base64 mime mode _ H) as [E | (c0 & Hc0 & E)];
    [discriminate E |].
  symmetry in E. apply afterResponse_Return in E. destruct E as (r & -> & Hr).
  apply inspectResponse_Return in Hr.
  destruct Hr as (c & ps & b & Hc & Hn & Hp & Hb & ->).
  split; [unfold dataUrl; apply prefix_app_l; reflexivity |]. split.
  - unfold restoreImage. destruct (negb (truthy (apiKey env))); [discriminate |].
    cbn [fst]. destruct (gc (buildRequest base64 mime mode)); discriminate.
  - exists r, c, ps, b. split; [exact Hc0 |]. split; [exact Hc |].
    split; [exact Hn |]. split; [exact Hp |]. split; [exact Hb | reflexivity].
Qed.

(** The theorem on the response with an image. *)
Lemma restoreImage_returns_data_url_witness :
  prefix "data:" (dataUrl restored) = true /\
  exists r c ps b,
    awaited (SettlesAfter 4000 (Return withImage)) = Some (Return r) /\
    firstCandidate r = Some c /\ NormalFinish c /\ partsOf c = Some ps /\
    FirstImage ps b /\ dataUrl restored = dataUrl b.
Proof.
  destruct (restoreImage_returns_data_url withKey
              (fun _ => SettlesAfter 4000 (Return withImage))
              "data:image/jpeg;base64,AAAA" "image/jpeg" standard
              (dataUrl restored) eq_refl) as (H & _ & Hex).
  split; [exact H | exact Hex].
Defined.

Lemma rethrow_not_fetch (e : Error) :
  message_includes (rethrow e) "fetch failed" = false.
Proof.
  unfold rethrow. destruct (message_includes e "fetch failed") eqn:E1.
  - vm_compute. reflexivity.
  - destruct (message_includes e "Safety"); [vm_compute; reflexivity | exact E1].
Qed.

Lemma race_Throw (elapsed : N) (promise : Promise string) (tf : bool) (e : Error) :
  race elapsed promise tf = Throw e ->
  e = timeoutError \/ awaited promise = Some (Throw e).
Proof.
  unfold race. destruct promise as [c | ms c |].
  - intros ->. right. reflexivity.
  - destruct (elapsed + ms ?= timeoutMs)%N.
    + destruct tf; [intros [= <-]; left; reflexivity | intros ->; right; reflexivity].
    + intros ->. right. reflexivity.
    + intros [= <-]. left. reflexivity.
  - intros [= <-]. left. reflexivity.
Qed.

(** X5.  Once the file has been read, no failure that reaches the [catch]
    block of [processPhoto] has a message with "fetch failed": the failure
    is the timeout, the missing key, or an error that went through the
    [catch] block of [restoreImage], which has renamed such messages.  The
    branch of [processPhoto] for "fetch failed" is not taken then, and the
    credential flag is never touched by a timeout or a missing key. *)
Theorem attempt_never_fetch_failed
  (photo : PhotoItem) (mode : RestorationMode) (w : World)
  (elapsed : N) (base64 : string) (err : Error) (sent : list GenerateContentRequest) :
  readAsDataURL w (file photo) = (elapsed, Return base64) ->
  attempt photo mode w = (Throw err, sent) ->
  message_includes err "fetch failed" = false /\
  (err = timeoutError \/ err = newError msgNoApiKey \/ exists e0, err = rethrow e0) /\
  isEntityNotFound timeoutError = false /\
  isEntityNotFound (newError msgNoApiKey) = false.
Proof.
  intros Hr Ha. unfold attempt in Ha. rewrite Hr in Ha.
  destruct (restoreImage (processEnv w) (generateContent w) base64 (type (file photo)) mode)
    as [promise sent'] eqn:Ep.
  injection Ha as Hrace _.
  assert (Hcases : err = timeoutError \/ err = newError msgNoApiKey
                   \/ exists e0, err = rethrow e0).
  { apply race_Throw in Hrace. destruct Hrace as [-> | Haw]; [left; reflexivity |].
    right. replace promise with (fst (promise, sent')) in Haw by reflexivity.
    rewrite <- Ep in Haw. apply awaited_restoreImage in Haw.
    destruct Haw as [[= ->] | (c0 & _ & E)]; [left; reflexivity |].
    right. apply (afterResponse_Throw c0). symmetry. exact E. }
  split; [| split; [exact Hcases | split; vm_compute; reflexivity]].
  destruct Hcases as [-> | [-> | (e0 & ->)]];
    [vm_compute; reflexivity | vm_compute; reflexivity | apply rethrow_not_fetch].
Qed.

(** The theorem on a transport that reports "fetch failed". *)
Lemma attempt_never_fetch_failed_witness :
  message_includes (newError msgNetwork) "fetch failed" = false.
Proof.
  apply (attempt_never_fetch_failed (newPhoto first) standard
           (fails "TypeError: fetch failed") 15 "data:image/jpeg;base64,AAAA"
           (newError msgNetwork)
           [buildRequest "data:image/jpeg;base64,AAAA" "image/jpeg" standard]);
    reflexivity.
Defined.

End RestoreImageOutcomes.

(* ================================================================= *)
(** ** [processPhoto]: from the failure to the stored message *)

Section ProcessPhotoMore.

Lemma errorMessageOf_rethrow (e : Error) :
  errorMessageOf (rethrow e)
  = if message_includes e "fetch failed" then msgNetwork
    else if message_includes e "Safety" then msgSafety
    else errorMessageOf e.
Proof.
  unfold rethrow. destruct (message_includes e "fetch failed"); [vm_compute; reflexivity |].
  destruct (message_includes e "Safety"); [vm_compute; reflexivity | reflexivity].
Qed.

Lemma isEntityNotFound_rethrow (e : Error) :
  isEntityNotFound (rethrow e)
  = negb (message_includes e "fetch failed") && negb (message_includes e "Safety")
    && isEntityNotFound e.
Proof.
  unfold rethrow. destruct (message_includes e "fetch failed"); [vm_compute; reflexivity |].
  destruct (message_includes e "Safety"); [vm_compute; reflexivity | reflexivity].
Qed.

Lemma requests_oneRun (i : string) (sent : list GenerateContentRequest) :
  requests (Started i :: map Sent sent ++ [Finished i]) = sent.
Proof.
  unfold requests. simpl. induction sent as [| r sent IH]; [reflexivity |].
  simpl. rewrite IH. reflexivity.
Qed.

Lemma started_oneRun (i : string) (sent : list GenerateContentRequest) :
  started (Started i :: map Sent sent ++ [Finished i]) = [i].
Proof.
  unfold started. simpl. f_equal. induction sent as [| r sent IH]; [reflexivity |].
  simpl. exact IH.
Qed.

(** X6.  A failure of the transport that arrives before the deadline is
    classified twice, by [restoreImage] and then by [processPhoto].  With
    "fetch failed" in its message the photo gets the connectivity message
    of [restoreImage], not that of [processPhoto]; else with "Safety" the
    content-blocked message, even when the message also speaks of a quota
    or of an entity not found; else what [processPhoto] makes of the
    message.  The credential flag is set to false only in this last case,
    for an entity not found.  One request was sent.  The collection is the
    one the user left with the photos of that id in error with that
    message, and every other photo is as it was. *)
Theorem processPhoto_transport_failure
  (photo : PhotoItem) (w : World) (st : AppState)
  (elapsed ms : N) (base64 : string) (e : Error) :
  guarded photo = false ->
  readAsDataURL w (file photo) = (elapsed, Return base64) ->
  truthy (apiKey (processEnv w)) = true ->
  generateContent w (buildRequest base64 (type (file photo)) (restorationMode st))
  = SettlesAfter ms (Throw e) ->
  (elapsed + ms < timeoutMs)%N ->
  exists st' log,
    processPhoto photo w st = Return (st', log) /\
    requests log = [buildRequest base64 (type (file photo)) (restorationMode st)] /\
    EndsInError (if message_includes e "fetch failed" then msgNetwork
                 else if message_includes e "Safety" then msgSafety
                 else errorMessageOf e) photo (meanwhile w) st st' /\
    hasApiKey st'
    = if negb (message_includes e "fetch failed") && negb (message_includes e "Safety")
         && message_includes e "Requested entity was not found"
      then Some false else hasApiKey st.
Proof.
  intros Hg Hr Hk Hgc Hlt.
  pose proof (restoreImage_settles (processEnv w) (generateContent w) base64
                (type (file photo)) (restorationMode st) ms (Throw e) Hk Hgc) as Hp.
  rewrite (processPhoto_unguarded photo w st Hg), settle_Return.
  rewrite (attempt_read photo _ w elapsed base64 _ _ Hr Hp). cbn [fst snd].
  rewrite (race_early elapsed ms _ _ Hlt).
  change (afterResponse (Throw e)) with (@Throw string (rethrow e)).
  eexists. eexists. split; [reflexivity |].
  split; [apply requests_oneRun |]. split.
  - apply EndsInError_intro. rewrite <- errorMessageOf_rethrow.
    apply onFailure_photos_eq.
  - rewrite onFailure_hasApiKey, isEntityNotFound_rethrow.
    destruct (hasApiKey_actAll (meanwhile w) (start photo st)) as (Hh & _ & _).
    rewrite Hh. reflexivity.
Qed.

(** The theorem on a blocked request that also mentions a quota, for
    the first of two photos. *)
Lemma processPhoto_transport_failure_witness :
  exists st' log,
    processPhoto (newPhoto first) (fails "Safety block: quota for this category is 0")
      freshPair = Return (st', log) /\
    photos st' = [toError msgSafety (newPhoto first); newPhoto second] /\
    hasApiKey st' = None.
Proof.
  destruct (processPhoto_transport_failure (newPhoto first)
              (fails "Safety block: quota for this category is 0") freshPair
              15 300 "data:image/jpeg;base64,AAAA"
              (newError "Safety block: quota for this category is 0")
              eq_refl eq_refl eq_refl eq_refl eq_refl)
    as (st' & log & E & _ & [Hp _] & Hf).
  exists st', log. split; [exact E |]. split.
  - rewrite Hp. vm_compute. reflexivity.
  - rewrite Hf. vm_compute. reflexivity.
Defined.

(** X7.  Without a usable key, and once the file has been read, a run of
    [processPhoto] sends nothing and leaves the photo in error with the
    missing-key message, however long the reading took and whatever the
    remote side would answer; the credential flag is left as it was.  The
    collection is the one the user left with the photos of that id in
    error with that message, and every other photo is as it was. *)
Theorem processPhoto_without_key
  (photo : PhotoItem) (w : World) (st : AppState) (elapsed : N) (base64 : string) :
  guarded photo = false ->
  readAsDataURL w (file photo) = (elapsed, Return base64) ->
  truthy (apiKey (processEnv w)) = false ->
  exists st',
    processPhoto photo w st = Return (st', [Started (id photo); Finished (id photo)]) /\
    EndsInError msgNoApiKey photo (meanwhile w) st st' /\
    hasApiKey st' = hasApiKey st.
Proof.
  intros Hg Hr Hk.
  assert (Hp : restoreImage (processEnv w) (generateContent w) base64
                 (type (file photo)) (restorationMode st)
               = (Settled (Throw (newError msgNoApiKey)), [])).
  { unfold restoreImage. rewrite Hk. reflexivity. }
  rewrite (processPhoto_unguarded photo w st Hg), settle_Return.
  rewrite (attempt_read photo _ w elapsed base64 _ _ Hr Hp). cbn [fst snd race].
  eexists. split; [reflexivity |]. split.
  - apply EndsInError_intro.
    replace msgNoApiKey with (errorMessageOf (newError msgNoApiKey)) at 2
      by (vm_compute; reflexivity).
    apply onFailure_photos_eq.
  - rewrite onFailure_hasApiKey.
    replace (isEntityNotFound (newError msgNoApiKey)) with false
      by (vm_compute; reflexivity).
    destruct (hasApiKey_actAll (meanwhile w) (start photo st)) as (Hh & _ & _).
    exact Hh.
Qed.

(** The theorem in the world without a key, for the first of two
    photos. *)
Lemma processPhoto_without_key_witness :
  exists st',
    processPhoto (newPhoto first) keyless freshPair
    = Return (st', [Started (newId first); Finished (newId first)]) /\
    photos st' = [toError msgNoApiKey (newPhoto first); newPhoto second] /\
    hasApiKey st' = None.
Proof.
  destruct (processPhoto_without_key (newPhoto first) keyless freshPair
              15 "data:image/jpeg;base64,AAAA" eq_refl eq_refl eq_refl)
    as (st' & E & [Hp _] & H).
  exists st'. split; [exact E |]. split.
  - rewrite Hp. vm_compute. reflexivity.
  - exact H.
Defined.

(** X8.  A run of [processPhoto] sends at most one request: none when the
    guard stops it, when the file cannot be read or when there is no key,
    and otherwise exactly the request built from the file as it was read,
    the type of the file and the mode of the state, also when the run then
    ends in a timeout. *)
Theorem processPhoto_requests
  (photo : PhotoItem) (w : World) (st st' : AppState) (log : list Event) :
  processPhoto photo w st = Return (st', log) ->
  (List.length (requests log) <= 1)%nat /\
  started log = (if guarded photo then [] else [id photo]) /\
  requests log
  = if guarded photo then []
    else match snd (readAsDataURL w (file photo)) with
         | Throw _ => []
         | Return base64 =>
             if truthy (apiKey (processEnv w))
             then [buildRequest base64 (type (file photo)) (restorationMode st)]
             else []
         end.
Proof.
  unfold processPhoto. destruct (guarded photo).
  - intros [= <- <-]. split; [cbn; lia | split; reflexivity].
  - rewrite settle_Return. intros [= _ <-].
    rewrite requests_oneRun, started_oneRun.
    assert (E : snd (attempt photo (restorationMode st) w)
                = match snd (readAsDataURL w (file photo)) with
                  | Throw _ => []
                  | Return base64 =>
                      if truthy (apiKey (processEnv w))
                      then [buildRequest base64 (type (file photo)) (restorationMode st)]
                      else []
                  end).
    { unfold attempt. destruct (readAsDataURL w (file photo)) as [elapsed [base64 | e]];
        [| reflexivity].
      cbn [snd]. unfold restoreImage.
      destruct (truthy (apiKey (processEnv w))); reflexivity. }
    rewrite E. split; [| split; reflexivity].
    destruct (snd (readAsDataURL w (file photo))); [| cbn; lia].
    destruct (truthy (apiKey (processEnv w))); cbn; lia.
Qed.

(** The theorem on a remote call that never settles: the request was sent. *)
Lemma processPhoto_requests_witness :
  exists st' log,
    processPhoto (newPhoto first) hangs (fresh first) = Return (st', log) /\
    requests log = [buildRequest "data:image/jpeg;base64,AAAA" "image/jpeg" standard].
Proof.
  eexists. eexists. split; [reflexivity |].
  apply (processPhoto_requests (newPhoto first) hangs (fresh first) _ _ eq_refl).
Defined.

End ProcessPhotoMore.

(* ================================================================= *)
(** ** [processPhoto]: what a run leaves alone *)

Section ProcessPhotoFrame.

Lemma mapById_mapById (i : string) (f g : PhotoItem -> PhotoItem) (l : list PhotoItem) :
  (forall p, id (g p) = id p) ->
  mapById i f (mapById i g l) = mapById i (fun p => f (g p)) l.
Proof.
  intros Hg. unfold mapById. rewrite map_map. apply map_ext. intros p.
  destruct (id p =? i) eqn:E; [| rewrite E; reflexivity].
  rewrite Hg, E. reflexivity.
Qed.

Lemma processPhoto_state (photo : PhotoItem) (w : World) (st st' : AppState)
  (log : list Event) :
  guarded photo = false ->
  processPhoto photo w st = Return (st', log) ->
  exists f,
    ((exists r, f = toCompleted r) \/ (exists m, f = toError m)) /\
    photos st' = mapById (id photo) f (photos (actAll (meanwhile w) (start photo st))) /\
    restorationMode st' = restorationMode st /\
    isProcessingAll st' = isProcessingAll st /\
    (hasApiKey st' = hasApiKey st \/ hasApiKey st' = Some false).
Proof.
  intros Hg. rewrite (processPhoto_unguarded photo w st Hg), settle_Return.
  intros [= <- _].
  destruct (hasApiKey_actAll (meanwhile w) (start photo st)) as (Hh & Hm & Hb).
  destruct (fst (attempt photo (restorationMode st) w)) as [r | err].
  - exists (toCompleted r). split; [left; exists r; reflexivity |].
    split; [reflexivity |]. split; [exact Hm |]. split; [exact Hb | left; exact Hh].
  - exists (toError (errorMessageOf err)). split; [right; eexists; reflexivity |].
    unfold onFailure. destruct (isEntityNotFound err).
    + split; [reflexivity |]. split; [exact Hm |]. split; [exact Hb | right; reflexivity].
    + split; [reflexivity |]. split; [exact Hm |]. split; [exact Hb | left; exact Hh].
Qed.

(** X9.  A run of [processPhoto] during which the user does nothing is, as
    a whole, one update by id: the photos of the id become completed with
    one result, or in error with one message, and keep their id, file,
    preview and adjustments; every other photo, the order and the length of
    the collection, the mode and the batch flag are as before. *)
Theorem processPhoto_frame
  (photo : PhotoItem) (w : World) (st st' : AppState) (log : list Event) :
  guarded photo = false ->
  meanwhile w = [] ->
  processPhoto photo w st = Return (st', log) ->
  (exists f,
      ((exists r, f = toCompleted r) \/ (exists m, f = toError m)) /\
      photos st' = mapById (id photo) f (photos st)) /\
  List.length (photos st') = List.length (photos st) /\
  restorationMode st' = restorationMode st /\
  isProcessingAll st' = isProcessingAll st /\
  forall k p,
    nth_error (photos st) k = Some p ->
    exists p',
      nth_error (photos st') k = Some p' /\
      id p' = id p /\ file p' = file p /\ preview p' = preview p /\
      adjustments p' = adjustments p /\
      (id p <> id photo -> p' = p).
Proof.
  intros Hg Hm H.
  destruct (processPhoto_state photo w st st' log Hg H) as (f & Hf & Hp & Hmode & Hb & _).
  rewrite Hm in Hp. cbn [actAll fold_left] in Hp.
  unfold start, setPhotos in Hp. cbn [photos] in Hp.
  rewrite mapById_mapById in Hp by reflexivity.
  assert (Hp' : photos st' = mapById (id photo) f (photos st)).
  { rewrite Hp. unfold mapById. apply map_ext. intros p.
    destruct (id p =? id photo); [| reflexivity].
    destruct Hf as [(r & ->) | (m & ->)]; reflexivity. }
  split; [exists f; split; assumption |].
  split; [rewrite Hp'; unfold mapById; apply length_map |].
  split; [exact Hmode |]. split; [exact Hb |].
  intros k p Hk. rewrite Hp', nth_error_mapById, Hk. cbn [option_map].
  destruct (String.eqb_spec (id p) (id photo)) as [e | ne].
  - eexists. split; [reflexivity |].
    destruct Hf as [(r & ->) | (m & ->)]; repeat split; intros Hd; contradiction.
  - exists p. repeat split.
Qed.

(** The theorem on the second photo of a pair, which the run on the first
    leaves as it is. *)
Lemma processPhoto_frame_witness :
  exists st' log,
    processPhoto (newPhoto first) (answers withImage) freshPair = Return (st', log) /\
    List.length (photos st') = 2%nat /\
    restorationMode st' = standard.
Proof.
  eexists. eexists. split; [reflexivity |].
  destruct (processPhoto_frame (newPhoto first) (answers withImage) freshPair _ _
              eq_refl eq_refl eq_refl) as (_ & Hl & Hm & _).
  split; [exact Hl | exact Hm].
Defined.

Lemma flag_trans (a b c : option bool) :
  b = a \/ b = Some false -> c = b \/ c = Some false -> c = a \/ c = Some false.
Proof. intros [-> | ->] [-> | ->]; auto. Qed.

Lemma flag_processPhoto (photo : PhotoItem) (w : World) (st st' : AppState)
  (log : list Event) :
  processPhoto photo w st = Return (st', log) ->
  (hasApiKey st' = hasApiKey st \/ hasApiKey st' = Some false) /\
  restorationMode st' = restorationMode st.
Proof.
  destruct (guarded photo) eqn:Hg.
  - unfold processPhoto. rewrite Hg. intros [= <- _]. split; [left |]; reflexivity.
  - intros H. destruct (processPhoto_state photo w st st' log Hg H)
      as (_ & _ & _ & Hm & _ & Hh). split; assumption.
Qed.

Lemma flag_processEach (ps : list PhotoItem) (worlds : nat -> World) :
  forall (n : nat) (st st' : AppState) (log : list Event),
    processEach ps worlds n st = Return (st', log) ->
    (hasApiKey st' = hasApiKey st \/ hasApiKey st' = Some false) /\
    restorationMode st' = restorationMode st.
Proof.
  induction ps as [| photo rest IH]; intros n st st' log E.
  - injection E as <- _. split; [left |]; reflexivity.
  - cbn [processEach] in E.
    destruct (processPhoto photo (worlds n) st) as [[st1 log1] | e] eqn:E1;
      [| discriminate E].
    destruct (processEach rest worlds (S n) st1) as [[st2 log2] | e] eqn:E2;
      [| discriminate E].
    injection E as <- _.
    destruct (flag_processPhoto _ _ _ _ _ E1) as [H1 M1].
    destruct (IH _ _ _ _ E2) as [H2 M2].
    split; [apply (flag_trans _ _ _ H1 H2) | congruence].
Qed.

Lemma flag_exec (c : Command) (st : AppState) :
  hasApiKey (exec c st) = hasApiKey st \/ hasApiKey (exec c st) = Some false.
Proof.
  destruct c as [a | photo w | worlds]; cbn [exec].
  - left. reflexivity.
  - destruct (processPhoto photo w st) as [[st' log] | e] eqn:E; [| left; reflexivity].
    apply (flag_processPhoto _ _ _ _ _ E).
  - unfold processAll.
    destruct (processEach (filter eligible (photos st)) worlds 0
                (setIsProcessingAll true st)) as [[st' log] | e] eqn:E;
      [| left; reflexivity].
    apply (flag_processEach _ _ _ _ _ _ E).
Qed.

(** X10.  Restoring never raises the credential flag: after any sequence
    of drops, removals, adjustments, single restorations and batches the
    flag is what it was or it is false.  A restoration that succeeds after
    the flag was set to false leaves it false. *)
Theorem restoring_never_raises_flag (cs : list Command) (st : AppState) :
  hasApiKey (run cs st) = hasApiKey st \/ hasApiKey (run cs st) = Some false.
Proof.
  revert st. induction cs as [| c cs IH]; intros st.
  - left. reflexivity.
  - change (run (c :: cs) st) with (run cs (exec c st)).
    apply (flag_trans _ _ _ (flag_exec c st) (IH (exec c st))).
Qed.

End ProcessPhotoFrame.

(* ================================================================= *)
(** ** The collection: [onDrop], [removePhoto], [updateAdjustment] *)

Section Collection.

(** X11.  [onDrop] keeps every photo of the collection at its place and as
    it is, and appends one photo for each accepted file, in the order of
    the files: pending, without result or error, with the default
    adjustments, the file itself and its object URL.  Dropping nothing
    changes nothing, and two drops amount to one drop of all the files. *)
Theorem onDrop_appends (fs : list Accepted) (prev : list PhotoItem) :
  List.length (onDrop fs prev) = (List.length prev + List.length fs)%nat /\
  (forall k p, nth_error prev k = Some p -> nth_error (onDrop fs prev) k = Some p) /\
  (forall j a,
      nth_error fs j = Some a ->
      exists p,
        nth_error (onDrop fs prev) (List.length prev + j) = Some p /\
        file p = accFile a /\ preview p = objectURL a /\ status p = StPending /\
        result p = None /\ error p = None /\ adjustments p = defaultAdjustments /\
        id p = substring_from 7 (random36 a)) /\
  onDrop [] prev = prev /\
  (forall fs', onDrop fs' (onDrop fs prev) = onDrop (fs ++ fs') prev).
Proof.
  unfold onDrop. split; [| split; [| split; [| split]]].
  - rewrite length_app, length_map. reflexivity.
  - intros k p Hk. rewrite nth_error_app1; [exact Hk |].
    apply nth_error_Some. congruence.
  - intros j a Hj. exists (newPhoto a). split; [| repeat split].
    rewrite nth_error_app2 by lia.
    replace (List.length prev + j - List.length prev)%nat with j by lia.
    rewrite nth_error_map, Hj. reflexivity.
  - apply app_nil_r.
  - intros fs'. rewrite map_app, app_assoc. reflexivity.
Qed.

(** The theorem on a second file dropped after a first. *)
Lemma onDrop_appends_witness :
  nth_error (onDrop [second] (photos (fresh first))) 0 = Some (newPhoto first).
Proof.
  apply (onDrop_appends [second] (photos (fresh first))). reflexivity.
Defined.

Lemma find_none_notin (i : string) (prev : list PhotoItem) :
  find (fun p => id p =? i) prev = None <-> ~ In i (ids prev).
Proof.
  induction prev as [| p prev IH]; cbn [find ids map In].
  - split; [intros _ [] | reflexivity].
  - destruct (String.eqb_spec (id p) i) as [e | ne].
    + split; [discriminate | intros H; exfalso; apply H; left; exact e].
    + rewrite IH. unfold ids. split.
      * intros H [e | Hin]; [contradiction | apply H; exact Hin].
      * intros H Hin. apply H. right. exact Hin.
Qed.

Lemma removePhoto_length (i : string) (prev : list PhotoItem) :
  List.length prev
  = (List.length (removePhoto i prev) + count_occ string_dec (ids prev) i)%nat.
Proof.
  induction prev as [| p prev IH]; [reflexivity |].
  cbn [removePhoto filter ids map count_occ List.length].
  destruct (String.eqb_spec (id p) i) as [e | ne].
  - destruct (string_dec (id p) i) as [_ | n]; [| contradiction].
    fold (removePhoto i prev). fold (ids prev). lia.
  - destruct (string_dec (id p) i) as [e | _]; [contradiction |].
    cbn [List.length]. fold (removePhoto i prev). fold (ids prev). lia.
Qed.

(** X12.  [removePhoto] takes away every photo of the given id and keeps
    the others, as they are and in their order; a collection without that
    id is returned unchanged.  It hands at most one preview to
    [URL.revokeObjectURL], that of the first photo of the id: when the ids
    of the collection are pairwise different, exactly the photo that is
    removed has its preview revoked, and nothing is revoked when nothing is
    removed. *)
Theorem removePhoto_removes (i : string) (prev : list PhotoItem) :
  (forall p, In p (removePhoto i prev) <-> In p prev /\ id p <> i) /\
  Subseq (removePhoto i prev) prev /\
  (~ In i (ids prev) -> removePhoto i prev = prev /\ revoked i prev = []) /\
  List.length prev
  = (List.length (removePhoto i prev) + count_occ string_dec (ids prev) i)%nat /\
  (List.length (revoked i prev) <= 1)%nat /\
  (In i (ids prev) ->
   exists photo,
     In photo prev /\ id photo = i /\ revoked i prev = [preview photo] /\
     (NoDup (ids prev) ->
      (List.length prev = S (List.length (removePhoto i prev))) /\
      forall q, In q prev -> id q = i -> q = photo)).
Proof.
  split; [| split; [| split; [| split; [| split]]]].
  - intros p. unfold removePhoto. rewrite filter_In.
    destruct (String.eqb_spec (id p) i) as [e | ne].
    + split; [intros [_ H]; discriminate H | intros [_ H]; contradiction].
    + split; [intros [H _]; split; assumption | intros [H _]; split; [exact H | reflexivity]].
  - apply Subseq_filter.
  - intros Hn. split.
    + unfold removePhoto. apply forallb_filter_id. apply forallb_forall.
      intros p Hp. destruct (String.eqb_spec (id p) i) as [e | ne]; [| reflexivity].
      exfalso. apply Hn. rewrite <- e. apply in_map. exact Hp.
    + unfold revoked. apply find_none_notin in Hn. rewrite Hn. reflexivity.
  - apply removePhoto_length.
  - unfold revoked. destruct (find _ prev); cbn; lia.
  - intros Hin. unfold revoked.
    destruct (find (fun p => id p =? i) prev) as [photo |] eqn:Ef.
    + apply find_some in Ef. destruct Ef as [Hp He].
      apply String.eqb_eq in He. exists photo.
      split; [exact Hp |]. split; [exact He |]. split; [reflexivity |].
      intros Hnd. split.
      * rewrite (removePhoto_length i prev).
        rewrite (proj1 (NoDup_count_occ' string_dec (ids prev)) Hnd i Hin). lia.
      * intros q Hq Hqi.
        assert (Hinj : forall l : list PhotoItem,
                   NoDup (ids l) -> In q l -> In photo l -> id q = id photo -> q = photo).
        { clear. induction l as [| x l IH]; [intros _ [] |].
          cbn [ids map]. intros Hnd [-> | Hq] [-> | Hp] E; try reflexivity.
          - inversion Hnd as [| ? ? Hx _]. exfalso. apply Hx. rewrite E.
            apply in_map. exact Hp.
          - inversion Hnd as [| ? ? Hx _]. exfalso. apply Hx. rewrite <- E.
            apply in_map. exact Hq.
          - inversion Hnd. apply IH; assumption. }
        apply (Hinj prev Hnd Hq Hp). congruence.
    + exfalso. apply find_none_notin in Ef. contradiction.
Qed.

(** The theorem on a pair of photos, the first of which is removed. *)
Lemma removePhoto_removes_witness :
  removePhoto "zzzzzz" (photos freshPair) = photos freshPair /\
  revoked "zzzzzz" (photos freshPair) = [].
Proof.
  apply (removePhoto_removes "zzzzzz" (photos freshPair)).
  vm_compute. intros [H | [H | []]]; discriminate H.
Defined.

Lemma withAdjustments_twice (a b : Adjustments) (p : PhotoItem) :
  withAdjustments a (withAdjustments b p) = withAdjustments a p.
Proof. reflexivity. Qed.

Lemma setKey_twice (key : AdjustmentKey) (v1 v2 : Z) (a : Adjustments) :
  setKey key v2 (setKey key v1 a) = setKey key v2 a.
Proof. destruct key; reflexivity. Qed.

Lemma setKey_swap (k1 k2 : AdjustmentKey) (v1 v2 : Z) (a : Adjustments) :
  k1 <> k2 -> setKey k2 v2 (setKey k1 v1 a) = setKey k1 v1 (setKey k2 v2 a).
Proof. destruct k1, k2; intros H; try reflexivity; contradiction. Qed.

(** X13.  For one photo and one parameter the last call of
    [updateAdjustment] wins; calls for different parameters, or for
    different ids, can be made in either order; and a call changes no
    status, so that it starts and stops no restoration. *)
Theorem updateAdjustment_composes
  (i1 i2 : string) (k1 k2 : AdjustmentKey) (v1 v2 : Z) (prev : list PhotoItem) :
  updateAdjustment i1 k1 v2 (updateAdjustment i1 k1 v1 prev)
  = updateAdjustment i1 k1 v2 prev /\
  (k1 <> k2 \/ i1 <> i2 ->
   updateAdjustment i2 k2 v2 (updateAdjustment i1 k1 v1 prev)
   = updateAdjustment i1 k1 v1 (updateAdjustment i2 k2 v2 prev)) /\
  map status (updateAdjustment i1 k1 v1 prev) = map status prev /\
  filter eligible (updateAdjustment i1 k1 v1 prev)
  = updateAdjustment i1 k1 v1 (filter eligible prev).
Proof.
  split; [| split; [| split]].
  - unfold updateAdjustment. rewrite mapById_mapById by reflexivity.
    unfold mapById. apply map_ext. intros p. destruct (id p =? i1); [| reflexivity].
    cbn. rewrite setKey_twice. reflexivity.
  - intros Hd. unfold updateAdjustment, mapById. rewrite !map_map. apply map_ext.
    intros p.
    destruct (String.eqb_spec (id p) i1) as [e1 | n1];
      destruct (String.eqb_spec (id p) i2) as [e2 | n2]; cbn [id withAdjustments].
    + destruct (String.eqb_spec (id p) i1) as [_ | n]; [| contradiction].
      destruct (String.eqb_spec (id p) i2) as [_ | n]; [| contradiction].
      destruct Hd as [Hk | Hi]; [| congruence].
      cbn. rewrite (setKey_swap k1 k2 v1 v2 _ Hk). reflexivity.
    + destruct (String.eqb_spec (id p) i1) as [_ | n]; [| contradiction].
      destruct (String.eqb_spec (id p) i2) as [e | _]; [contradiction | reflexivity].
    + destruct (String.eqb_spec (id p) i1) as [e | _]; [contradiction |].
      destruct (String.eqb_spec (id p) i2) as [_ | n]; [reflexivity | contradiction].
    + destruct (String.eqb_spec (id p) i1) as [e | _]; [contradiction |].
      destruct (String.eqb_spec (id p) i2) as [e | _]; [contradiction | reflexivity].
  - unfold updateAdjustment, mapById. rewrite map_map. apply map_ext.
    intros p. destruct (id p =? i1); reflexivity.
  - unfold updateAdjustment, mapById. induction prev as [| p prev IH]; [reflexivity |].
    cbn [map filter].
    assert (E : eligible (if id p =? i1
                          then withAdjustments (setKey k1 v1 (adjustments p)) p else p)
                = eligible p) by (destruct (id p =? i1); reflexivity).
    rewrite E. destruct (eligible p); cbn [map]; rewrite IH; reflexivity.
Qed.

(** The theorem on the brightness and the contrast of one photo. *)
Lemma updateAdjustment_composes_witness :
  updateAdjustment (newId first) Contrast 90
    (updateAdjustment (newId first) Brightness 120 (photos (fresh first)))
  = updateAdjustment (newId first) Brightness 120
      (updateAdjustment (newId first) Contrast 90 (photos (fresh first))).
Proof.
  apply (updateAdjustment_composes (newId first) (newId first) Brightness Contrast
           120 90 (photos (fresh first))).
  left. discriminate.
Defined.

End Collection.

(* ================================================================= *)
(** ** [processAll]: its runs and its requests *)

Section ProcessAllMore.

Lemma requests_app (l1 l2 : list Event) :
  requests (l1 ++ l2) = (requests l1 ++ requests l2)%list.
Proof. apply flat_map_app. Qed.

Lemma started_app (l1 l2 : list Event) :
  started (l1 ++ l2) = (started l1 ++ started l2)%list.
Proof. apply flat_map_app. Qed.

Lemma attempt_sent (photo : PhotoItem) (mode : RestorationMode) (w : World) :
  snd (attempt photo mode w)
  = match snd (readAsDataURL w (file photo)) with
    | Throw _ => []
    | Return base64 =>
        if truthy (apiKey (processEnv w))
        then [buildRequest base64 (type (file photo)) mode]
        else []
    end.
Proof.
  unfold attempt. destruct (readAsDataURL w (file photo)) as [elapsed [base64 | e]];
    [| reflexivity].
  cbn [snd]. unfold restoreImage. destruct (truthy (apiKey (processEnv w))); reflexivity.
Qed.

Lemma processPhoto_log (photo : PhotoItem) (w : World) (st st' : AppState)
  (log : list Event) :
  guarded photo = false ->
  processPhoto photo w st = Return (st', log) ->
  started log = [id photo] /\
  requests log = snd (attempt photo (restorationMode st) w).
Proof.
  intros Hg. rewrite (processPhoto_unguarded photo w st Hg), settle_Return.
  intros [= _ <-]. split; [apply started_oneRun | apply requests_oneRun].
Qed.

Lemma processEach_requests (ps : list PhotoItem) (worlds : nat -> World) :
  Forall (fun q => guarded q = false) ps ->
  forall (n : nat) (st st' : AppState) (log : list Event),
    processEach ps worlds n st = Return (st', log) ->
    started log = map id ps /\
    (List.length (requests log) <= List.length ps)%nat /\
    Forall (fun r => model r = modelOf (restorationMode st)
                     /\ imageSize r = imageSizeOf (restorationMode st)) (requests log) /\
    ((forall k, ready (worlds k)) ->
     map reqMimeType (requests log) = map (fun p => type (file p)) ps).
Proof.
  intros Hps. induction Hps as [| photo rest Hg _ IH]; intros n st st' log E.
  - injection E as _ <-. repeat split; constructor.
  - cbn [processEach] in E.
    destruct (processPhoto photo (worlds n) st) as [[st1 log1] | e] eqn:E1;
      [| discriminate E].
    destruct (processEach rest worlds (S n) st1) as [[st2 log2] | e] eqn:E2;
      [| discriminate E].
    injection E as _ <-.
    destruct (processPhoto_log photo (worlds n) st st1 log1 Hg E1) as [Hs1 Hr1].
    destruct (flag_processPhoto _ _ _ _ _ E1) as [_ Hm1].
    destruct (IH (S n) st1 st2 log2 E2) as (Hs2 & Hl2 & Hf2 & He2).
    rewrite Hm1 in Hf2.
    rewrite started_app, requests_app, Hs1, Hs2, Hr1, attempt_sent.
    split; [reflexivity |]. split; [| split].
    + rewrite length_app. cbn [List.length].
      destruct (snd (readAsDataURL (worlds n) (file photo))); [| cbn; lia].
      destruct (truthy (apiKey (processEnv (worlds n)))); cbn; lia.
    + apply Forall_app. split; [| exact Hf2].
      destruct (snd (readAsDataURL (worlds n) (file photo))); [| constructor].
      destruct (truthy (apiKey (processEnv (worlds n)))); repeat constructor.
    + intros Hready. rewrite map_app, (He2 Hready).
      destruct (Hready n) as [Hk Hread]. destruct (Hread (file photo)) as (b & Hb).
      rewrite Hb, Hk. reflexivity.
Qed.

(** X14.  [processAll] makes one run for each photo that is pending or in
    error when it is called, in the order of the collection, and sends at
    most one request for each, all of them for the model of the mode the
    batch was started in.  When the key is there and every file can be
    read it sends exactly one request for each of these photos, in their
    order and with the type of their file, also for those that then fail
    or run into the timeout. *)
Theorem processAll_requests (worlds : nat -> World) (st st' : AppState)
  (log : list Event) :
  processAll worlds st = Return (st', log) ->
  started log = map id (filter eligible (photos st)) /\
  (List.length (requests log) <= List.length (filter eligible (photos st)))%nat /\
  Forall (fun r => model r = modelOf (restorationMode st)
                   /\ imageSize r = imageSizeOf (restorationMode st)) (requests log) /\
  ((forall k,
       truthy (apiKey (processEnv (worlds k))) = true /\
       forall f, exists base64, snd (readAsDataURL (worlds k) f) = Return base64) ->
   map reqMimeType (requests log)
   = map (fun p => type (file p)) (filter eligible (photos st))).
Proof.
  unfold processAll.
  destruct (processEach (filter eligible (photos st)) worlds 0
              (setIsProcessingAll true st)) as [[st1 log1] | e] eqn:E; [| discriminate].
  intros [= _ <-].
  assert (Hps : Forall (fun q => guarded q = false) (filter eligible (photos st))).
  { apply Forall_forall. intros q Hq. apply filter_In in Hq.
    apply eligible_guarded. apply Hq. }
  apply (processEach_requests _ worlds Hps 0%nat _ st1 log1 E).
Qed.

(** The theorem on the batch of the examples: two requests, also for the
    photo whose call fails. *)
Lemma processAll_requests_witness :
  exists st' log,
    processAll batch freshPair = Return (st', log) /\
    map reqMimeType (requests log) = ["image/jpeg"; "image/png"].
Proof.
  eexists. eexists. split; [reflexivity |].
  destruct (processAll_requests batch freshPair _ _ eq_refl) as (_ & _ & _ & He).
  apply He. intros [| k]; (split; [reflexivity |]); intros f; eexists; reflexivity.
Defined.

(** X15.  A photo that was removed is not run by a later batch: after
    [removePhoto] the log of [processAll] has no run for the removed id,
    and every run it has is for a photo that was in the collection before
    the removal. *)
Theorem processAll_skips_removed (i : string) (worlds : nat -> World) (st : AppState) :
  exists st' log,
    processAll worlds (act (Remove i) st) = Return (st', log) /\
    ~ In i (started log) /\
    ~ In (Started i) log /\
    incl (started log) (map id (photos st)).
Proof.
  assert (Hps : Forall (fun q => guarded q = false)
                  (filter eligible (photos (act (Remove i) st)))).
  { apply Forall_forall. intros q Hq. apply filter_In in Hq.
    apply eligible_guarded. apply Hq. }
  unfold processAll.
  destruct (processEach_log _ worlds Hps 0%nat (setIsProcessingAll true (act (Remove i) st)))
    as (st1 & log1 & E & _).
  rewrite E. exists (setIsProcessingAll false st1), log1. split; [reflexivity |].
  destruct (processEach_requests _ worlds Hps 0%nat _ st1 log1 E) as (Hs & _).
  assert (Hin : forall j, In j (started log1) -> In j (map id (photos st)) /\ j <> i).
  { intros j Hj. rewrite Hs in Hj. apply in_map_iff in Hj.
    destruct Hj as (p & <- & Hp). apply filter_In in Hp. destruct Hp as [Hp _].
    cbn in Hp. unfold removePhoto in Hp. apply filter_In in Hp. destruct Hp as [Hp Hne].
    split; [apply in_map; exact Hp |].
    destruct (String.eqb_spec (id p) i); [discriminate Hne | assumption]. }
  split; [intros H; apply Hin in H; destruct H as [_ H]; apply H; reflexivity |].
  split.
  - intros H. assert (Hi : In i (started log1)).
    { unfold started. apply in_flat_map. exists (Started i). split; [exact H | left; reflexivity]. }
    apply Hin in Hi. destruct Hi as [_ Hi]. apply Hi. reflexivity.
  - intros j Hj. apply Hin in Hj. apply Hj.
Qed.

Lemma filter_eligible_nil (l : list PhotoItem) :
  Forall (fun p => status p = StProcessing \/ status p = StCompleted) l ->
  filter eligible l = [].
Proof.
  intros H. induction H as [| p l Hp _ IH]; [reflexivity |].
  cbn [filter]. unfold eligible at 1. destruct Hp as [-> | ->]; exact IH.
Qed.

(** X16.  The batch button and [processAll] agree.  When every photo is
    completed the button is disabled, and [processAll] would have run
    nothing and left the collection as it is; the same holds when every
    photo is processing or completed, with the button enabled.  When the
    button is enabled and no photo is processing, some photo is pending or
    in error and [processAll] runs it first. *)
Theorem batch_button (worlds : nat -> World) (st : AppState) :
  (forallb (fun p => Status_eqb (status p) StCompleted) (photos st) = true ->
   batchDisabled st = true) /\
  (Forall (fun p => status p = StProcessing \/ status p = StCompleted) (photos st) ->
   processAll worlds st = Return (setIsProcessingAll false st, [])) /\
  (batchDisabled st = false ->
   Forall (fun p => status p <> StProcessing) (photos st) ->
   exists photo rest st' log,
     filter eligible (photos st) = photo :: rest /\
     processAll worlds st = Return (st', log) /\
     started log = id photo :: map id rest).
Proof.
  split; [| split].
  - intros H. unfold batchDisabled. rewrite H. apply orb_true_r.
  - intros H. unfold processAll. rewrite (filter_eligible_nil _ H). reflexivity.
  - intros Hd Hnp. unfold batchDisabled in Hd. apply orb_false_iff in Hd.
    destruct Hd as [_ Hd].
    assert (Hex : exists p, In p (photos st) /\ eligible p = true).
    { induction (photos st) as [| p l IH]; [discriminate Hd |].
      cbn [forallb] in Hd. inversion Hnp as [| ? ? Hp Hl]; subst.
      destruct (status p) eqn:Es.
      - exists p. split; [left; reflexivity | unfold eligible; rewrite Es; reflexivity].
      - contradiction.
      - cbn [Status_eqb andb] in Hd. destruct (IH Hd Hl) as (q & Hq & He).
        exists q. split; [right; exact Hq | exact He].
      - exists p. split; [left; reflexivity | unfold eligible; rewrite Es; reflexivity]. }
    destruct Hex as (p & Hp & He).
    destruct (filter eligible (photos st)) as [| photo rest] eqn:Ef.
    + exfalso. assert (Hin : In p (filter eligible (photos st))).
      { apply filter_In. split; assumption. }
      rewrite Ef in Hin. exact Hin.
    + assert (Hps : Forall (fun q => guarded q = false) (photo :: rest)).
      { rewrite <- Ef. apply Forall_forall. intros q Hq. apply filter_In in Hq.
        apply eligible_guarded. apply Hq. }
      unfold processAll. rewrite Ef.
      destruct (processEach_log _ worlds Hps 0%nat (setIsProcessingAll true st))
        as (st1 & log1 & E & _).
      rewrite E. exists photo, rest, (setIsProcessingAll false st1), log1.
      split; [reflexivity |]. split; [reflexivity |].
      apply (processEach_requests _ worlds Hps 0%nat _ st1 log1 E).
Qed.

(** The theorem on a collection whose only photo is completed. *)
Lemma batch_button_witness :
  processAll batch (setPhotos (mapById (newId first) (toCompleted (dataUrl restored)))
                      (fresh first))
  = Return (setIsProcessingAll false
              (setPhotos (mapById (newId first) (toCompleted (dataUrl restored)))
                 (fresh first)), []).
Proof.
  apply (batch_button batch
           (setPhotos (mapById (newId first) (toCompleted (dataUrl restored)))
              (fresh first))).
  constructor; [right; reflexivity | constructor].
Defined.

End ProcessAllMore.

(* ================================================================= *)
(** ** What is shown and what is exported *)

Section Rendering.

Lemma race_Return (elapsed : N) (promise : Promise string) (tf : bool) (s : string) :
  race elapsed promise tf = Return s -> awaited promise = Some (Return s).
Proof.
  unfold race. destruct promise as [c | ms c |]; [intros ->; reflexivity | | discriminate].
  destruct (elapsed + ms ?= timeoutMs)%N; [destruct tf | |];
    try discriminate; intros ->; reflexivity.
Qed.

Lemma attempt_Return (photo : PhotoItem) (mode : RestorationMode) (w : World) (r : string) :
  fst (attempt photo mode w) = Return r -> isDataUrl r.
Proof.
  unfold attempt. destruct (readAsDataURL w (file photo)) as [elapsed [base64 | e]];
    [| discriminate].
  destruct (restoreImage (processEnv w) (generateContent w) base64 (type (file photo)) mode)
    as [promise sent] eqn:Ep.
  cbn [fst]. intros H. apply race_Return in H.
  replace promise with (fst (promise, sent)) in H by reflexivity. rewrite <- Ep in H.
  apply awaited_restoreImage in H. destruct H as [H | (c0 & _ & H)]; [discriminate H |].
  symmetry in H. apply afterResponse_Return in H. destruct H as (resp & _ & H).
  apply inspectResponse_Return in H. destruct H as (_ & _ & b & _ & _ & _ & _ & ->).
  exists b. reflexivity.
Qed.

Lemma dataUrls_mapById (i : string) (f : PhotoItem -> PhotoItem) (l : list PhotoItem) :
  (forall p, result (f p) = result p) ->
  resultsAreDataUrls l -> resultsAreDataUrls (mapById i f l).
Proof.
  intros Hf. apply Forall_mapById. intros p Hp r. rewrite Hf. apply Hp.
Qed.

Lemma dataUrls_completed (i r : string) (l : list PhotoItem) :
  isDataUrl r -> resultsAreDataUrls l -> resultsAreDataUrls (mapById i (toCompleted r) l).
Proof.
  intros Hr. apply Forall_mapById. intros p _ r' [= <-]. exact Hr.
Qed.

Lemma dataUrls_act (a : UserAction) (st : AppState) :
  resultsAreDataUrls (photos st) -> resultsAreDataUrls (photos (act a st)).
Proof.
  intros H. destruct a as [fs | i | i key value]; cbn.
  - unfold onDrop. apply Forall_app. split; [exact H |].
    apply Forall_forall. intros p Hp. apply in_map_iff in Hp.
    destruct Hp as (a & <- & _). intros r [=].
  - unfold removePhoto. apply Forall_forall. intros p Hp.
    apply filter_In in Hp. destruct Hp as [Hp _].
    exact (proj1 (Forall_forall _ _) H p Hp).
  - unfold updateAdjustment. apply dataUrls_mapById; [reflexivity | exact H].
Qed.

Lemma dataUrls_actAll (l : list UserAction) (st : AppState) :
  resultsAreDataUrls (photos st) -> resultsAreDataUrls (photos (actAll l st)).
Proof.
  revert st. induction l as [| a l IH]; intros st H; [exact H |].
  change (actAll (a :: l) st) with (actAll l (act a st)). apply IH, dataUrls_act, H.
Qed.

Lemma dataUrls_processPhoto (photo : PhotoItem) (w : World) (st st' : AppState)
  (log : list Event) :
  processPhoto photo w st = Return (st', log) ->
  resultsAreDataUrls (photos st) -> resultsAreDataUrls (photos st').
Proof.
  unfold processPhoto. destruct (guarded photo); [intros [= <- _] H; exact H |].
  rewrite settle_Return. intros [= <- _] H.
  assert (H2 : resultsAreDataUrls (photos (actAll (meanwhile w) (start photo st)))).
  { apply dataUrls_actAll. cbn. apply dataUrls_mapById; [reflexivity | exact H]. }
  destruct (fst (attempt photo (restorationMode st) w)) as [r | err] eqn:Ea.
  - cbn. apply dataUrls_completed; [| exact H2]. apply (attempt_Return _ _ _ _ Ea).
  - unfold onFailure. destruct (isEntityNotFound err); cbn;
      (apply dataUrls_mapById; [reflexivity | exact H2]).
Qed.

Lemma dataUrls_processEach (ps : list PhotoItem) (worlds : nat -> World) :
  forall (n : nat) (st st' : AppState) (log : list Event),
    processEach ps worlds n st = Return (st', log) ->
    resultsAreDataUrls (photos st) -> resultsAreDataUrls (photos st').
Proof.
  induction ps as [| photo rest IH]; intros n st st' log E H.
  - injection E as <- _. exact H.
  - cbn [processEach] in E.
    destruct (processPhoto photo (worlds n) st) as [[st1 log1] | e] eqn:E1;
      [| discriminate E].
    destruct (processEach rest worlds (S n) st1) as [[st2 log2] | e] eqn:E2;
      [| discriminate E].
    injection E as <- _.
    apply (IH _ _ _ _ E2). apply (dataUrls_processPhoto _ _ _ _ _ E1 H).
Qed.

Lemma dataUrls_exec (c : Command) (st : AppState) :
  resultsAreDataUrls (photos st) -> resultsAreDataUrls (photos (exec c st)).
Proof.
  intros H. destruct c as [a | photo w | worlds]; cbn [exec].
  - apply dataUrls_act, H.
  - destruct (processPhoto photo w st) as [[st' log] | e] eqn:E; [| exact H].
    apply (dataUrls_processPhoto _ _ _ _ _ E H).
  - unfold processAll.
    destruct (processEach (filter eligible (photos st)) worlds 0
                (setIsProcessingAll true st)) as [[st' log] | e] eqn:E; [| exact H].
    apply (dataUrls_processEach _ _ _ _ _ _ E H).
Qed.

Lemma dataUrls_run (cs : list Command) (st : AppState) :
  resultsAreDataUrls (photos st) -> resultsAreDataUrls (photos (run cs st)).
Proof.
  revert st. induction cs as [| c cs IH]; intros st H; [exact H |].
  change (run (c :: cs) st) with (run cs (exec c st)). apply IH, dataUrls_exec, H.
Qed.

Lemma truthy_dataUrl (b : Blob) : truthy (Some (dataUrl b)) = true.
Proof. reflexivity. Qed.

Lemma coherent_run (cs : list Command) (st : AppState) :
  Forall coherent (photos st) -> Forall coherent (photos (run cs st)).
Proof.
  apply (preserved_run (Forall coherent)).
  - intros i l. apply Forall_mapById. intros p _. apply coherent_toProcessing.
  - intros i r l. apply Forall_mapById. intros p _. apply coherent_toCompleted.
  - intros i m l. apply Forall_mapById. intros p _. apply coherent_toError.
  - exact coherent_act.
Qed.

(** X17.  In every state the component can reach, a result is a data URL.
    A completed photo is shown by its result, with the filter of its
    adjustments, and has the download button; [downloadImage] then passes
    its guard and, when the image loads and the canvas gives a context,
    draws that result and offers it under the name of the file with the
    prefix [restored-enhanced-].  A pending photo is shown by its preview
    without any filter, has the enabled button that starts it, and
    [downloadImage] does nothing for it. *)
Theorem rendered_photo (st : AppState) (p : PhotoItem) :
  Reachable st -> In p (photos st) ->
  (forall r, result p = Some r -> isDataUrl r /\ prefix "data:" r = true) /\
  (status p = StCompleted ->
   exists b,
     result p = Some (dataUrl b) /\
     imgSrc p = dataUrl b /\
     imgFilter p = getFilterString (adjustments p) /\
     footerButton p = DownloadButton /\
     forall br,
       imageLoads br = true -> context2d br = true ->
       downloadImage p br
       = Some {| imgSource := dataUrl b;
                 ctxFilter := canvasFilter (adjustments p);
                 linkDownload := "restored-enhanced-" ++ name (file p) |}) /\
  (status p = StPending ->
   imgSrc p = preview p /\ imgFilter p = "none" /\
   footerButton p = ProcessButton false /\
   forall br, downloadImage p br = None).
Proof.
  intros (cs & ->) Hin.
  assert (Hd : resultsAreDataUrls (photos (run cs initialState))).
  { apply dataUrls_run. constructor. }
  assert (Hc : Forall coherent (photos (run cs initialState))).
  { apply coherent_run. constructor. }
  pose proof (proj1 (Forall_forall _ _) Hd p Hin) as Hdp.
  pose proof (proj1 (Forall_forall _ _) Hc p Hin) as Hcp.
  cbv beta in Hdp. unfold coherent in Hcp.
  split; [| split].
  - intros r Hr. destruct (Hdp r Hr) as (b & ->).
    split; [exists b; reflexivity | unfold dataUrl; apply prefix_app_l; reflexivity].
  - intros Hs. rewrite Hs in Hcp.
    destruct (result p) as [r |] eqn:Er; [| contradiction].
    destruct (Hdp r eq_refl) as (b & ->). exists b.
    split; [reflexivity |].
    unfold imgSrc, imgFilter, footerButton, downloadImage, or_else.
    rewrite Er, Hs, truthy_dataUrl. cbn [interpolate Status_eqb negb].
    repeat split. intros br Hl Hx. rewrite Hl, Hx. reflexivity.
  - intros Hs. rewrite Hs in Hcp. destruct Hcp as [Hr _].
    unfold imgSrc, imgFilter, footerButton, downloadImage, or_else.
    rewrite Hr, Hs. cbn. repeat split.
Qed.

(** The theorem on a photo that was dropped and restored. *)
Lemma rendered_photo_witness :
  exists b,
    imgSrc (photoAt 0 (run [User (Drop [first]);
                            ProcessOne (newPhoto first) (answers withImage)]
                         initialState))
    = dataUrl b.
Proof.
  destruct (rendered_photo
              (run [User (Drop [first]); ProcessOne (newPhoto first) (answers withImage)]
                 initialState)
              (photoAt 0 (run [User (Drop [first]);
                               ProcessOne (newPhoto first) (answers withImage)]
                            initialState)))
    as (_ & H & _).
  - eexists. reflexivity.
  - left. reflexivity.
  - destruct (H eq_refl) as (b & _ & Hb & _). exists b. exact Hb.
Defined.

End Rendering.

(* ================================================================= *)
(** ** The two filters *)

Section Filters.

Lemma numeric_uint (d : uint) : numeric (NilEmpty.string_of_uint d) = true.
Proof. induction d; cbn [NilEmpty.string_of_uint numeric]; try rewrite IHd; reflexivity. Qed.

Lemma numeric_showZ (n : Z) : numeric (showZ n) = true.
Proof.
  unfold showZ, NilZero.string_of_int, NilZero.string_of_uint.
  destruct (Z.to_int n) as [d | d].
  - destruct d; try reflexivity; apply numeric_uint.
  - cbn [numeric]. destruct d; try reflexivity; apply numeric_uint.
Qed.

Lemma showZ_inj (a b : Z) : showZ a = showZ b -> a = b.
Proof.
  unfold showZ. intros H.
  assert (Hn : forall n, Z.to_int n <> Pos Nil /\ Z.to_int n <> Neg Nil).
  { intros [| p | p]; cbn; split; try discriminate; intros [= E];
      apply (DecimalPos.Unsigned.to_uint_nonnil p E). }
  apply DecimalZ.to_int_inj.
  assert (E : Some (Z.to_int a) = Some (Z.to_int b)).
  { rewrite <- (NilZero.isi (Z.to_int a)) by apply Hn.
    rewrite <- (NilZero.isi (Z.to_int b)) by apply Hn.
    rewrite H. reflexivity. }
  injection E as E. exact E.
Qed.

(** Two printed integers followed by something that cannot continue an
    integer are told apart. *)
Lemma numeric_app_inj (u v r r' : string) :
  numeric u = true -> numeric v = true -> stops r = true -> stops r' = true ->
  u ++ r = v ++ r' -> u = v /\ r = r'.
Proof.
  revert v. induction u as [| c u IH]; intros [| d v] Hu Hv Hr Hr' H.
  - split; [reflexivity | exact H].
  - exfalso. cbn [append] in H. subst r. cbn [numeric] in Hv. cbn [stops] in Hr.
    apply andb_true_iff in Hv. destruct Hv as [Hd _]. rewrite Hd in Hr. discriminate Hr.
  - exfalso. cbn [append] in H. subst r'. cbn [numeric] in Hu. cbn [stops] in Hr'.
    apply andb_true_iff in Hu. destruct Hu as [Hc _]. rewrite Hc in Hr'. discriminate Hr'.
  - cbn [append] in H. injection H as -> H.
    cbn [numeric] in Hu, Hv. apply andb_true_iff in Hu. apply andb_true_iff in Hv.
    destruct (IH v (proj2 Hu) (proj2 Hv) Hr Hr' H) as [-> ->]. split; reflexivity.
Qed.

Lemma append_inv_head (p x y : string) : p ++ x = p ++ y -> x = y.
Proof.
  induction p as [| c p IH]; [intros H; exact H |].
  cbn [append]. intros [= H]. apply IH. exact H.
Qed.

Lemma showZ_app_inj (a b : Z) (r r' : string) :
  stops r = true -> stops r' = true ->
  showZ a ++ r = showZ b ++ r' -> a = b /\ r = r'.
Proof.
  intros Hr Hr' H.
  destruct (numeric_app_inj _ _ _ _ (numeric_showZ a) (numeric_showZ b) Hr Hr' H)
    as [E ->].
  split; [apply showZ_inj; exact E | reflexivity].
Qed.

(** X18.  Within the bounds of the four sliders, the filter of the
    preview tells every setting apart: two adjustments that the sliders
    can produce and whose [getFilterString] is the same are the same.  The
    filter that [downloadImage] gives to the canvas does not depend on the
    sharpness: whatever value the slider gives it the blur is 0px and the
    exported image is drawn with the same filter, so that what the
    sharpness slider changes on the screen is not in the file; the three
    other settings are told apart by the canvas filter too. *)
Theorem filters_and_sharpness :
  (forall a a',
      withinSliders a -> withinSliders a' ->
      getFilterString a = getFilterString a' -> a = a') /\
  (forall a v,
      withinSliders a -> inRange Sharpness v ->
      canvasFilter (setKey Sharpness v a) = canvasFilter a) /\
  (forall photo v br,
      withinSliders (adjustments photo) -> inRange Sharpness v ->
      downloadImage (withAdjustments (setKey Sharpness v (adjustments photo)) photo) br
      = downloadImage photo br) /\
  (forall a a',
      withinSliders a -> withinSliders a' ->
      canvasFilter a = canvasFilter a' ->
      brightness a = brightness a' /\ contrast a = contrast a'
      /\ saturation a = saturation a').
Proof.
  split; [| split; [| split]].
  - intros [b c s h] [b' c' s' h'] (_ & _ & _ & Hh) (_ & _ & _ & Hh').
    unfold inRange in Hh, Hh'. cbn in Hh, Hh'.
    unfold getFilterString. cbn [brightness contrast saturation sharpness].
    intros H.
    apply (append_inv_head "brightness(") in H.
    apply showZ_app_inj in H; [| reflexivity | reflexivity]. destruct H as [-> H].
    apply (append_inv_head "%) contrast(") in H.
    apply showZ_app_inj in H; [| reflexivity | reflexivity]. destruct H as [-> H].
    apply (append_inv_head "%) saturate(") in H.
    apply showZ_app_inj in H; [| reflexivity | reflexivity]. destruct H as [-> H].
    apply (append_inv_head "%) ") in H.
    assert (E : h = h').
    { destruct (Z.ltb_spec 0 h) as [Hp | Hz]; destruct (Z.ltb_spec 0 h') as [Hp' | Hz'].
      - apply (append_inv_head "contrast(") in H.
        apply showZ_app_inj in H; [| reflexivity | reflexivity]. lia.
      - discriminate H.
      - discriminate H.
      - lia. }
    rewrite E. reflexivity.
  - intros a v _ _. unfold canvasFilter.
    cbn [setKey brightness contrast saturation sharpness].
    destruct (0 <? v)%Z; destruct (0 <? sharpness a)%Z; reflexivity.
  - intros photo v br _ _. unfold downloadImage, canvasFilter.
    cbn [withAdjustments result file adjustments setKey
           brightness contrast saturation sharpness].
    destruct (0 <? v)%Z; destruct (0 <? sharpness (adjustments photo))%Z; reflexivity.
  - intros a a' _ _. unfold canvasFilter. intros H.
    apply (append_inv_head "brightness(") in H.
    apply showZ_app_inj in H; [| reflexivity | reflexivity]. destruct H as [Hb H].
    apply (append_inv_head "%) contrast(") in H.
    apply showZ_app_inj in H; [| reflexivity | reflexivity]. destruct H as [Hc H].
    apply (append_inv_head "%) saturate(") in H.
    apply showZ_app_inj in H; [| reflexivity | reflexivity]. destruct H as [Hs _].
    repeat split; assumption.
Qed.

(** The theorem on two settings of the sliders that differ in the
    sharpness only. *)
Lemma filters_and_sharpness_witness :
  withinSliders tuned /\ withinSliders (setKey Sharpness 0 tuned) /\
  getFilterString tuned <> getFilterString (setKey Sharpness 0 tuned) /\
  canvasFilter tuned = canvasFilter (setKey Sharpness 0 tuned).
Proof.
  assert (W : withinSliders tuned)
    by (unfold withinSliders, inRange; cbn; lia).
  assert (W' : withinSliders (setKey Sharpness 0 tuned))
    by (unfold withinSliders, inRange; cbn; lia).
  assert (R : inRange Sharpness 0) by (unfold inRange; cbn; lia).
  destruct filters_and_sharpness as (Hinj & Hc & _).
  split; [exact W |]. split; [exact W' |]. split.
  - intros H. apply (Hinj tuned (setKey Sharpness 0 tuned) W W') in H.
    discriminate H.
  - symmetry. apply (Hc tuned 0%Z W R).
Defined.

End Filters.

(* ================================================================= *)
(** ** The key of the user and the banner *)

Section Banner.

(** X19.  The banner that asks for a key is shown exactly in the ultra mode
    with the credential flag at false.  When a run of [processPhoto] in
    the ultra mode fails with a message that has "Requested entity was not
    found", the banner is shown afterwards.  [handleSelectKey] then hides
    it as soon as the dialog of the host has returned, without asking the
    host whether a key was chosen; it leaves it shown when the host is
    absent, has no such dialog, or the dialog fails or never returns.
    Going back to the standard mode hides it too, and the flag stays
    false. *)
Theorem banner_after_invalid_key
  (photo : PhotoItem) (w : World) (st : AppState)
  (err : Error) (sent : list GenerateContentRequest) :
  restorationMode st = ultra ->
  guarded photo = false ->
  attempt photo ultra w = (Throw err, sent) ->
  message_includes err "Requested entity was not found" = true ->
  exists st' log,
    processPhoto photo w st = Return (st', log) /\
    bannerShown st' = true /\
    (forall a p u,
        openSelectKey a = Some p -> awaited p = Some (Return u) ->
        bannerShown (handleSelectKey (Some a) st') = false /\
        hasApiKey (handleSelectKey (Some a) st') = Some true /\
        photos (handleSelectKey (Some a) st') = photos st') /\
    handleSelectKey None st' = st' /\
    (forall a,
        openSelectKey a = None \/
        (exists p, openSelectKey a = Some p /\
                   (awaited p = None \/ exists e, awaited p = Some (Throw e))) ->
        handleSelectKey (Some a) st' = st') /\
    bannerShown (setRestorationMode standard st') = false /\
    hasApiKey (setRestorationMode standard st') = Some false.
Proof.
  intros Hm Hg Ha He.
  rewrite (processPhoto_unguarded photo w st Hg), settle_Return, Hm, Ha. cbn [fst snd].
  eexists. eexists. split; [reflexivity |].
  assert (Hflag : hasApiKey (onFailure (id photo) err
                               (actAll (meanwhile w) (start photo st))) = Some false).
  { rewrite onFailure_hasApiKey. unfold isEntityNotFound. rewrite He. reflexivity. }
  assert (Hmode : restorationMode (onFailure (id photo) err
                                     (actAll (meanwhile w) (start photo st))) = ultra).
  { destruct (hasApiKey_actAll (meanwhile w) (start photo st)) as (_ & Hr & _).
    unfold onFailure. destruct (isEntityNotFound err); cbn; rewrite Hr; exact Hm. }
  set (st' := onFailure (id photo) err (actAll (meanwhile w) (start photo st))) in *.
  clearbody st'.
  split; [unfold bannerShown; rewrite Hmode, Hflag; reflexivity |].
  split; [| split; [reflexivity | split; [| split]]].
  - intros a p u Hp Hu. unfold handleSelectKey. rewrite Hp, Hu.
    unfold bannerShown. cbn. rewrite Hmode. repeat split.
  - intros a [Hn | (p & Hp & [Hw | (e & Hw)])]; unfold handleSelectKey;
      [rewrite Hn | rewrite Hp, Hw | rewrite Hp, Hw]; reflexivity.
  - reflexivity.
  - exact Hflag.
Qed.

(** The theorem on an invalid key in the ultra mode, with the host of the
    examples. *)
Lemma banner_after_invalid_key_witness :
  exists st' log,
    processPhoto (newPhoto first) invalidKey ultraState = Return (st', log) /\
    bannerShown st' = true /\
    bannerShown (handleSelectKey (Some (host false)) st') = false.
Proof.
  destruct (banner_after_invalid_key (newPhoto first) invalidKey ultraState
              (newError "404 NOT_FOUND: Requested entity was not found.")
              [buildRequest "data:image/jpeg;base64,AAAA" "image/jpeg" ultra]
              eq_refl eq_refl eq_refl eq_refl)
    as (st' & log & E & Hb & Hsel & _).
  exists st', log. split; [exact E |]. split; [exact Hb |].
  apply (Hsel (host false) (SettlesAfter 3000 (Return tt)) tt); reflexivity.
Defined.

End Banner.

(* ================================================================= *)
(** ** [processAll]: what a batch leaves alone *)

Section ProcessAllFrame.

Lemma processPhoto_quiet (photo : PhotoItem) (w : World) (st st' : AppState)
  (log : list Event) (k : nat) (p : PhotoItem) :
  guarded photo = false ->
  meanwhile w = [] ->
  processPhoto photo w st = Return (st', log) ->
  nth_error (photos st) k = Some p ->
  exists p',
    nth_error (photos st') k = Some p' /\
    id p' = id p /\ file p' = file p /\ preview p' = preview p /\
    adjustments p' = adjustments p /\
    (id p <> id photo -> p' = p).
Proof.
  intros Hg Hm H Hk.
  destruct (processPhoto_state photo w st st' log Hg H) as (f & Hf & Hp & _).
  rewrite Hm in Hp. cbn [actAll fold_left] in Hp.
  unfold start, setPhotos in Hp. cbn [photos] in Hp.
  rewrite mapById_mapById in Hp by reflexivity.
  rewrite Hp, nth_error_mapById, Hk. cbn [option_map].
  destruct (String.eqb_spec (id p) (id photo)) as [e | ne].
  - eexists. split; [reflexivity |].
    destruct Hf as [(r & ->) | (m & ->)]; repeat split; intros Hd; contradiction.
  - exists p. repeat split.
Qed.

Lemma processEach_quiet (ps : list PhotoItem) (worlds : nat -> World) :
  Forall (fun q => guarded q = false) ps ->
  (forall k, meanwhile (worlds k) = []) ->
  forall (n : nat) (st st' : AppState) (log : list Event),
    processEach ps worlds n st = Return (st', log) ->
    forall k p,
      nth_error (photos st) k = Some p ->
      exists p',
        nth_error (photos st') k = Some p' /\
        id p' = id p /\ file p' = file p /\ preview p' = preview p /\
        adjustments p' = adjustments p /\
        (~ In (id p) (map id ps) -> p' = p).
Proof.
  intros Hps Hw. induction Hps as [| photo rest Hg _ IH]; intros n st st' log E k p Hk.
  - injection E as <- _. exists p. repeat split. exact Hk.
  - cbn [processEach] in E.
    destruct (processPhoto photo (worlds n) st) as [[st1 log1] | e] eqn:E1;
      [| discriminate E].
    destruct (processEach rest worlds (S n) st1) as [[st2 log2] | e] eqn:E2;
      [| discriminate E].
    injection E as <- _.
    destruct (processPhoto_quiet photo (worlds n) st st1 log1 k p Hg (Hw n) E1 Hk)
      as (p1 & Hk1 & Hi1 & Hf1 & Hv1 & Ha1 & Hs1).
    destruct (IH (S n) st1 st2 log2 E2 k p1 Hk1)
      as (p2 & Hk2 & Hi2 & Hf2 & Hv2 & Ha2 & Hs2).
    exists p2. split; [exact Hk2 |].
    split; [congruence |]. split; [congruence |]. split; [congruence |].
    split; [congruence |].
    intros Hnot. cbn [map In] in Hnot.
    assert (E : p1 = p).
    { apply Hs1. intros e. apply Hnot. left. symmetry. exact e. }
    rewrite <- E. apply Hs2. rewrite Hi1. intros Hin. apply Hnot. right. exact Hin.
Qed.

(** X20.  A batch during which the user does nothing keeps the length and
    the order of the collection and, for every photo, its id, file, preview
    and adjustments.  A photo whose id is that of no photo that was pending
    or in error at the start is exactly as before: a completed photo keeps
    its result through every later batch. *)
Theorem processAll_frame (worlds : nat -> World) (st st' : AppState)
  (log : list Event) :
  (forall k, meanwhile (worlds k) = []) ->
  processAll worlds st = Return (st', log) ->
  restorationMode st' = restorationMode st /\
  forall k p,
    nth_error (photos st) k = Some p ->
    exists p',
      nth_error (photos st') k = Some p' /\
      id p' = id p /\ file p' = file p /\ preview p' = preview p /\
      adjustments p' = adjustments p /\
      (~ In (id p) (map id (filter eligible (photos st))) -> p' = p).
Proof.
  intros Hw. unfold processAll.
  destruct (processEach (filter eligible (photos st)) worlds 0
              (setIsProcessingAll true st)) as [[st1 log1] | e] eqn:E; [| discriminate].
  intros [= <- _].
  assert (Hps : Forall (fun q => guarded q = false) (filter eligible (photos st))).
  { apply Forall_forall. intros q Hq. apply filter_In in Hq.
    apply eligible_guarded. apply Hq. }
  split.
  - apply (flag_processEach _ _ _ _ _ _ E).
  - intros k p Hk.
    apply (processEach_quiet _ worlds Hps Hw 0%nat _ st1 log1 E k p Hk).
Qed.

(** The theorem on a batch over a completed photo and a pending one. *)
Lemma processAll_frame_witness :
  exists st' log,
    processAll (fun _ => answers withImage)
      (setPhotos (mapById (newId first) (toCompleted "data:image/png;base64,AA=="))
         freshPair)
    = Return (st', log) /\
    nth_error (photos st') 0
    = Some (toCompleted "data:image/png;base64,AA==" (newPhoto first)).
Proof.
  eexists. eexists. split; [reflexivity |].
  destruct (processAll_frame (fun _ => answers withImage)
              (setPhotos (mapById (newId first) (toCompleted "data:image/png;base64,AA=="))
                 freshPair) _ _ (fun _ => eq_refl) eq_refl) as (_ & H).
  destruct (H 0%nat (toCompleted "data:image/png;base64,AA==" (newPhoto first)) eq_refl)
    as (p' & Hn & _ & _ & _ & _ & Hsame).
  rewrite Hn. f_equal. apply Hsame. vm_compute. intros [H0 | []]. discriminate H0.
Defined.

End ProcessAllFrame.

(* ================================================================= *)
(** ** The check of the key when the component is mounted *)

Section Mount.

(** X21.  [checkKey] runs on the initial state.  Whatever the host
    answers, no banner is shown then, the mode being the standard one.
    If the user next selects the ultra mode, the banner is shown exactly
    when the host is there, has the function and has answered that no key
    is selected; outside the host, or when the question fails or is never
    answered, the flag stays unknown and no banner is shown. *)
Theorem checkKey_at_mount (aistudio : option AiStudio) :
  photos (checkKey aistudio initialState) = [] /\
  bannerShown (checkKey aistudio initialState) = false /\
  (bannerShown (setRestorationMode ultra (checkKey aistudio initialState)) = true <->
   exists a p,
     aistudio = Some a /\ hasSelectedApiKey a = Some p /\
     awaited p = Some (Return false)) /\
  (aistudio = None -> checkKey aistudio initialState = initialState).
Proof.
  assert (Hb : forall st0,
             bannerShown (setRestorationMode ultra st0) = true
             <-> hasApiKey st0 = Some false).
  { intros st0. unfold bannerShown. cbn [restorationMode hasApiKey setRestorationMode].
    destruct (hasApiKey st0) as [[|] |]; split; intros H;
      try reflexivity; discriminate H. }
  assert (Hk : hasApiKey (checkKey aistudio initialState) = Some false <->
               exists a p,
                 aistudio = Some a /\ hasSelectedApiKey a = Some p /\
                 awaited p = Some (Return false)).
  { unfold checkKey. destruct aistudio as [a |].
    - destruct (hasSelectedApiKey a) as [p |] eqn:Ep.
      + destruct (awaited p) as [[[|] | e] |] eqn:Ew; split;
          try (intros H; discriminate H);
          try (intros (a' & p' & [= <-] & Hp & Hw); rewrite Ep in Hp;
               injection Hp as <-; rewrite Ew in Hw; discriminate Hw).
        * intros _. exists a, p. split; [reflexivity |]. split; [exact Ep | exact Ew].
        * intros _. reflexivity.
      + split; [intros H; discriminate H |].
        intros (a' & p' & [= <-] & Hp & _). rewrite Ep in Hp. discriminate Hp.
    - split; [intros H; discriminate H | intros (a & p & H & _); discriminate H]. }
  assert (Hs : photos (checkKey aistudio initialState) = []
               /\ restorationMode (checkKey aistudio initialState) = standard).
  { unfold checkKey. destruct aistudio as [a |]; [| split; reflexivity].
    destruct (hasSelectedApiKey a) as [p |]; [| split; reflexivity].
    destruct (awaited p) as [[hasKey | e] |]; split; reflexivity. }
  split; [apply Hs |]. split.
  - unfold bannerShown. rewrite (proj2 Hs). reflexivity.
  - split; [rewrite Hb; exact Hk |]. intros ->. reflexivity.
Qed.

(** The theorem in a host in which no key is selected. *)
Lemma checkKey_at_mount_witness :
  bannerShown (setRestorationMode ultra (checkKey (Some (host false)) initialState))
  = true.
Proof.
  apply (checkKey_at_mount (Some (host false))).
  exists (host false), (SettlesAfter 20 (Return false)). repeat split.
Defined.

End Mount.

(* ================================================================= *)
(** ** What the user does during a run *)

Section Meanwhile.

Lemma removePhoto_mapById (i : string) (g : PhotoItem -> PhotoItem) (l : list PhotoItem) :
  (forall p, id (g p) = id p) -> removePhoto i (mapById i g l) = removePhoto i l.
Proof.
  intros Hg. unfold removePhoto, mapById. induction l as [| p l IH]; [reflexivity |].
  cbn [map filter]. destruct (id p =? i) eqn:E.
  - rewrite Hg, E. exact IH.
  - rewrite E, IH. reflexivity.
Qed.

Lemma mapById_removePhoto (i : string) (f : PhotoItem -> PhotoItem) (l : list PhotoItem) :
  mapById i f (removePhoto i l) = removePhoto i l.
Proof.
  unfold removePhoto, mapById. induction l as [| p l IH]; [reflexivity |].
  cbn [filter]. destruct (id p =? i) eqn:E; [exact IH |].
  cbn [map]. rewrite E, IH. reflexivity.
Qed.

(** X22.  A photo that is removed while it is being restored stays
    removed: when the run ends the collection is the initial one without
    the photos of that id, whatever the restoration ended with; the
    request, if one was due, has been sent all the same. *)
Theorem processPhoto_removed_meanwhile
  (photo : PhotoItem) (w : World) (st st' : AppState) (log : list Event) :
  guarded photo = false ->
  meanwhile w = [Remove (id photo)] ->
  processPhoto photo w st = Return (st', log) ->
  photos st' = removePhoto (id photo) (photos st) /\
  (forall p, In p (photos st') -> id p <> id photo) /\
  requests log = snd (attempt photo (restorationMode st) w).
Proof.
  intros Hg Hm H.
  destruct (processPhoto_state photo w st st' log Hg H) as (f & _ & Hp & _).
  rewrite Hm in Hp. cbn [actAll fold_left] in Hp.
  unfold act, start, setPhotos in Hp. cbn [photos] in Hp.
  rewrite removePhoto_mapById in Hp by reflexivity.
  rewrite mapById_removePhoto in Hp.
  split; [exact Hp |]. split.
  - intros p Hin. rewrite Hp in Hin. unfold removePhoto in Hin.
    apply filter_In in Hin. destruct Hin as [_ Hne].
    destruct (String.eqb_spec (id p) (id photo)); [discriminate Hne | assumption].
  - apply (processPhoto_log photo w st st' log Hg H).
Qed.

(** The theorem on a photo that is removed while the model works on it. *)
Lemma processPhoto_removed_meanwhile_witness :
  exists st' log,
    processPhoto (newPhoto first)
      (world withKey 15 (SettlesAfter 4000 (Return withImage)) [Remove (newId first)])
      freshPair = Return (st', log) /\
    photos st' = [newPhoto second].
Proof.
  eexists. eexists. split; [reflexivity |].
  apply (processPhoto_removed_meanwhile (newPhoto first)
           (world withKey 15 (SettlesAfter 4000 (Return withImage)) [Remove (newId first)])
           freshPair _ _ eq_refl eq_refl eq_refl).
Defined.

(** X23.  Files that are dropped while a photo is being restored are not
    lost when the run ends: the collection is longer by one photo for each
    file, in the order of the files and after the photos that were there.
    Such a photo is the fresh photo of its file, unless its id is the id
    of the photo being restored: then the end of the run has marked it
    completed or in error as well. *)
Theorem processPhoto_dropped_meanwhile
  (photo : PhotoItem) (w : World) (st st' : AppState) (log : list Event)
  (fs : list Accepted) :
  guarded photo = false ->
  meanwhile w = [Drop fs] ->
  processPhoto photo w st = Return (st', log) ->
  List.length (photos st') = (List.length (photos st) + List.length fs)%nat /\
  forall j a,
    nth_error fs j = Some a ->
    exists p,
      nth_error (photos st') (List.length (photos st) + j) = Some p /\
      id p = newId a /\ file p = accFile a /\ preview p = objectURL a /\
      (newId a <> id photo -> p = newPhoto a) /\
      (newId a = id photo -> status p = StCompleted \/ status p = StError).
Proof.
  intros Hg Hm H.
  destruct (processPhoto_state photo w st st' log Hg H) as (f & Hf & Hp & _).
  rewrite Hm in Hp. cbn [actAll fold_left] in Hp.
  unfold act, start, setPhotos, onDrop in Hp. cbn [photos] in Hp.
  assert (Hlen : List.length (mapById (id photo) toProcessing (photos st))
                 = List.length (photos st)) by (unfold mapById; apply length_map).
  split.
  - rewrite Hp. unfold mapById at 1. rewrite length_map, length_app, length_map, Hlen.
    reflexivity.
  - intros j a Hj. rewrite Hp, nth_error_mapById.
    rewrite nth_error_app2 by (rewrite Hlen; lia).
    replace (List.length (photos st) + j
             - List.length (mapById (id photo) toProcessing (photos st)))%nat
      with j by (rewrite Hlen; lia).
    rewrite nth_error_map, Hj. cbn [option_map].
    change (id (newPhoto a)) with (newId a).
    destruct (String.eqb_spec (newId a) (id photo)) as [e | ne].
    + eexists. split; [reflexivity |].
      destruct Hf as [(r & ->) | (m & ->)]; cbn;
        (split; [reflexivity |]); (split; [reflexivity |]); (split; [reflexivity |]);
        (split; [intros Hd; contradiction |]); intros _; [left | right]; reflexivity.
    + exists (newPhoto a). repeat split. intros e. contradiction.
Qed.

(** The theorem on a file dropped while another photo is restored. *)
Lemma processPhoto_dropped_meanwhile_witness :
  exists st' log,
    processPhoto (newPhoto first) (batch 0) (fresh first) = Return (st', log) /\
    nth_error (photos st') 1 = Some (newPhoto third).
Proof.
  eexists. eexists. split; [reflexivity |].
  destruct (processPhoto_dropped_meanwhile (newPhoto first) (batch 0) (fresh first) _ _
              [third] eq_refl eq_refl eq_refl) as (_ & H).
  destruct (H 0%nat third eq_refl) as (p & Hn & _ & _ & _ & Hfresh & _).
  assert (E : p = newPhoto third) by (apply Hfresh; vm_compute; discriminate).
  rewrite E in Hn. exact Hn.
Defined.

End Meanwhile.
